(** * RAG_MVP: ingestion chunker, store upsert and grounded answering

    A shallow embedding of the TypeScript sources

      - [src/scripts/db_ping.ts]  (seed script: [cleanText], [sentenceSplit],
        [buildChunks], [isNoLongerInForce], [upsertDocument], [processItem]),
      - [src/lib/rag.ts]          ([cosineScoreFromDistance], [formatCitation],
        [retrieve], [buildContext], [answer], [generateAnswer]),
      - [src/app/api/chat/route.ts] ([POST]),
      - the SQL schema of the [documents] table,
      - of the same files, [fetchWithRetry], the deduplication of
        [runDiscovery], [isLikelyHeading], the token loops of
        [extractMainTokens], the loop of [main], and the prune script
        ([isNoLongerInForce], [fetchText], [listCelex], [prune]),
      - [src/app/page.tsx] (the body [send] posts, the link of a citation,
        and the route [POST /api/ask]),

    followed by the theorems that settle the properties stated about them.

    Conventions.  A JavaScript string is a sequence of UTF-16 code units, and
    [.length] counts code units; strings are therefore lists of code units
    ([N]), which keeps the lengths of texts with Romanian diacritics exact.
    JavaScript numbers that hold sizes and indices are integers ([Z]); scores
    and distances are IEEE-754 binary64 values (Rocq's primitive floats).
    Calls that leave the program (HTTP, the embedding and chat services, the
    database, the clock) are the constructors of a small free monad [io],
    interpreted over an explicit world. *)

From Stdlib Require Import Ascii String DecimalString DecimalZ DecimalFacts.
From Stdlib Require Import Floats.
From Stdlib Require Import ZArith NArith List Bool Lia.
Import ListNotations.

#[local] Set Warnings "-inexact-float".

(* ================================================================== *)
(** * JavaScript strings *)
(* ================================================================== *)

Module JS.

(** A UTF-16 code unit. *)
Definition char := N.
Definition jsstring := list char.

(** An ASCII literal as a JavaScript string. *)
Definition lit (s : string) : jsstring :=
  map N_of_ascii (list_ascii_of_string s).

(** [s.length], as a JavaScript number. *)
Definition len (s : jsstring) : Z := Z.of_nat (length s).

(** A string in a condition: the empty string is the only falsy one. *)
Definition truthy (s : jsstring) : bool :=
  match s with [] => false | _ :: _ => true end.

Definition TAB : char := 9%N.
Definition LF : char := 10%N.
Definition FF : char := 12%N.
Definition CR : char := 13%N.
Definition SP : char := 32%N.
Definition NBSP : char := 160%N.
Definition COLON : char := 58%N.

(** The class [\s] of regular expressions, which is also the set that
    [String.prototype.trim] strips: WhiteSpace and LineTerminator. *)
Definition is_ws (c : char) : bool :=
  ((9 <=? c) && (c <=? 13) || (c =? 32) || (c =? 160) || (c =? 0x1680)
   || (0x2000 <=? c) && (c <=? 0x200A) || (c =? 0x2028) || (c =? 0x2029)
   || (c =? 0x202F) || (c =? 0x205F) || (c =? 0x3000) || (c =? 0xFEFF))%N.

Fixpoint trimStart (s : jsstring) : jsstring :=
  match s with
  | [] => []
  | c :: s' => if is_ws c then trimStart s' else s
  end.

Definition trimEnd (s : jsstring) : jsstring := rev (trimStart (rev s)).

Definition trim (s : jsstring) : jsstring := trimEnd (trimStart s).

(** [s.slice(start, end)]: a negative index counts from the end, every index
    is clamped to the string, and an empty range gives the empty string. *)
Definition slice (s : jsstring) (start end_ : Z) : jsstring :=
  let n := len s in
  let from := if (start <? 0)%Z then Z.max (n + start) 0 else Z.min start n in
  let to := if (end_ <? 0)%Z then Z.max (n + end_) 0 else Z.min end_ n in
  firstn (Z.to_nat (to - from)) (skipn (Z.to_nat from) s).

(** [parts.join(sep)]. *)
Fixpoint join (sep : jsstring) (parts : list jsstring) : jsstring :=
  match parts with
  | [] => []
  | [p] => p
  | p :: rest => p ++ sep ++ join sep rest
  end.

(** ** Global replacement of runs

    [s.replace(/[class]{k,}/g, rep)] for [k >= 1]: scanning from the left,
    every maximal run of class characters of length at least [k] is replaced
    by [rep]; a shorter run is kept as it is.  The scan carries the run read
    so far. *)
Section Runs.
Variable P : char -> bool.
Variable k : nat.
Variable rep : jsstring.

Definition emit (run : jsstring) : jsstring :=
  if (k <=? length run)%nat then rep else run.

Fixpoint replace_runs_from (run s : jsstring) : jsstring :=
  match s with
  | [] => emit run
  | c :: s' =>
      if P c then replace_runs_from (run ++ [c]) s'
      else emit run ++ c :: replace_runs_from [] s'
  end.

Definition replace_runs (s : jsstring) : jsstring := replace_runs_from [] s.
End Runs.

(** [a === b] on strings. *)
Fixpoint eqb (a b : jsstring) : bool :=
  match a, b with
  | [], [] => true
  | x :: a', y :: b' => (x =? y)%N && eqb a' b'
  | _, _ => false
  end.

Fixpoint starts_with (p s : jsstring) : bool :=
  match p, s with
  | [], _ => true
  | x :: p', y :: s' => (x =? y)%N && starts_with p' s'
  | _ :: _, [] => false
  end.

(** [s.includes(sub)]. *)
Fixpoint includes (sub s : jsstring) : bool :=
  starts_with sub s
  || match s with [] => false | _ :: s' => includes sub s' end.

(** [s.replace(sub, rep)] with a string pattern: the first occurrence. *)
Fixpoint replace_first (sub rep s : jsstring) : jsstring :=
  if starts_with sub s then rep ++ skipn (length sub) s
  else match s with [] => [] | c :: s' => c :: replace_first sub rep s' end.

(** [String(i)] for an integer [i]: its decimal digits, with a leading minus
    sign when negative (the shape JavaScript prints below 10^21). *)
Definition of_int (i : Z) : jsstring :=
  lit (NilZero.string_of_int (Z.to_int i)).

(** The option monad, for loops whose body may fail to return. *)
Definition obind {A B} (x : option A) (f : A -> option B) : option B :=
  match x with Some a => f a | None => None end.

Fixpoint ofold {A B} (f : A -> B -> option A) (l : list B) (a : A) : option A :=
  match l with
  | [] => Some a
  | b :: l' => obind (f a b) (ofold f l')
  end.

End JS.

Import JS.

(* ================================================================== *)
(** * The seed script: cleaning, sentence splitting and chunking *)
(* ================================================================== *)

Module Seed.

Inductive TokenType := Heading | Text.

(** [type Token = { type: 'heading' | 'text'; text: string }] *)
Record Token := mkToken { type : TokenType; text : jsstring }.

(** ** [cleanText] *)

Definition nbsp_to_space (c : char) : char := if (c =? NBSP)%N then SP else c.
Definition is_sp_tab (c : char) : bool := ((c =? SP) || (c =? TAB))%N.
Definition is_cr_ff (c : char) : bool := ((c =? CR) || (c =? FF))%N.
Definition is_lf (c : char) : bool := (c =? LF)%N.

(** [s.replace(/\u00A0/g, ' ').replace(/[ \t]+/g, ' ')
      .replace(/[\r\f]+/g, '\n').replace(/\n{3,}/g, '\n\n').trim()] *)
Definition cleanText (s : jsstring) : jsstring :=
  trim
    (replace_runs is_lf 3 [LF; LF]
       (replace_runs is_cr_ff 1 [LF]
          (replace_runs is_sp_tab 1 [SP]
             (map nbsp_to_space s)))).

(** ** [sentenceSplit] *)

(** [[\.!?]] *)
Definition is_sentence_end (c : char) : bool :=
  ((c =? 46) || (c =? 33) || (c =? 63))%N.

(** The class of the lookahead: [A-Z] and the Romanian capitals U+00CE,
    U+00C2, U+0102, U+0218 and U+021A. *)
Definition is_capital (c : char) : bool :=
  ((65 <=? c) && (c <=? 90) || (c =? 0xCE) || (c =? 0xC2) || (c =? 0x102)
   || (c =? 0x218) || (c =? 0x21A))%N.

(** Length of the whitespace run at the head of [s]. *)
Fixpoint ws_run (s : jsstring) : nat :=
  match s with
  | c :: s' => if is_ws c then S (ws_run s') else O
  | [] => O
  end.

(** The separator [/(?<=[\.!?])\s+(?=[A-Z...])/u] tried at one position:
    [prev] is the code unit before the position and [s] the text from it.
    The greedy [\s+] takes the whole whitespace run (after a shorter one the
    next code unit is whitespace, which no capital is), so a match has the
    length of the run. *)
Definition sep_match (prev : option char) (s : jsstring) : option nat :=
  match prev with
  | None => None
  | Some p =>
      if is_sentence_end p then
        match ws_run s, skipn (ws_run s) s with
        | S n, u :: _ => if is_capital u then Some (S n) else None
        | _, _ => None
        end
      else None
  end.

(** [text.split(separator)]: the position loop of [String.prototype.split].
    [skip] counts the code units of a matched separator still to pass,
    [part] is the substring since the last separator. *)
Fixpoint split_from (skip : nat) (prev : option char) (part s : jsstring)
  : list jsstring :=
  match s with
  | [] => [part]
  | c :: s' =>
      match skip with
      | S n => split_from n (Some c) part s'
      | O =>
          match sep_match prev s with
          | Some (S n) => part :: split_from n (Some c) [] s'
          | _ => split_from O (Some c) (part ++ [c]) s'
          end
      end
  end.

Definition split_sentences (s : jsstring) : list jsstring :=
  split_from O None [] s.

Definition sentenceSplit (paragraph : jsstring) : list jsstring :=
  let text := trim (replace_runs is_ws 1 [SP] paragraph) in
  if truthy text then
    let parts := split_sentences text in
    if (length parts <=? 1)%nat then [text] else parts
  else [].

(** ** [buildChunks] *)

(** The two variables of the closure: the passages pushed so far and the
    accumulation buffer. *)
Record acc := mkAcc { chunks : list jsstring; current : jsstring }.

(** [const flush = () => { const c = cleanText(current); if (c) chunks.push(c);
    current = ''; }] *)
Definition flush (a : acc) : acc :=
  let c := cleanText (current a) in
  mkAcc (if truthy c then chunks a ++ [c] else chunks a) [].

Section Chunker.
Variables minSize maxSize : Z.

(** The [while (start < s.length)] loop that hard-splits a long sentence.
    One unit of [fuel] pays for one iteration; [None] is a loop that has
    not finished within the fuel. *)
Fixpoint hardSplit (fuel : nat) (s : jsstring) (start : Z) (a : acc)
  : option acc :=
  if (start <? len s)%Z then
    match fuel with
    | O => None
    | S fuel' =>
        let end_ := Z.min (start + maxSize) (len s) in
        let slice_ := slice s start end_ in
        let a1 :=
          if ((len (current a) + len slice_ + 1 >? maxSize)
              && (len (current a) >=? minSize))%Z
          then flush a else a in
        let a2 :=
          mkAcc (chunks a1)
            (current a1 ++ (if truthy (current a1) then [SP] else [])
               ++ slice_) in
        hardSplit fuel' s end_ a2
    end
  else Some a.

(** The body of [for (const s of sentences)]. *)
Definition addSentence (fuel : nat) (a : acc) (s : jsstring) : option acc :=
  let tryAdd :=
    if (len (current a) >? 0)%Z then current a ++ [SP] ++ s else s in
  if (len tryAdd <=? maxSize)%Z then Some (mkAcc (chunks a) tryAdd)
  else if (len (current a) >=? minSize)%Z then
    Some (mkAcc (chunks (flush a)) s)
  else if (len s >=? maxSize)%Z then hardSplit fuel s 0 a
  else
    let a1 := if truthy (current a) then flush a else a in
    Some (mkAcc (chunks a1) s).

(** The body of [for (let i = 0; i < tokens.length; i++)]. *)
Definition addToken (fuel : nat) (a : acc) (t : Token) : option acc :=
  match type t with
  | Heading =>
      let a1 := if (len (trim (current a)) >? 0)%Z then flush a else a in
      Some (mkAcc (chunks a1)
              (current a1
                 ++ ((if truthy (current a1) then [LF] else [])
                       ++ text t ++ [LF])))
  | Text => ofold (addSentence fuel) (sentenceSplit (text t)) a
  end.

(** [buildChunks(tokens, minSize, maxSize)]; the source's defaults are
    [minSize = 800] and [maxSize = 1000]. *)
Definition buildChunks (fuel : nat) (tokens : list Token)
  : option (list jsstring) :=
  obind (ofold (addToken fuel) tokens (mkAcc [] []))
    (fun a =>
       let a1 := if truthy (trim (current a)) then flush a else a in
       Some (chunks a1)).
End Chunker.

(** The sentences of the body tokens of a sequence. *)
Definition sentences (tokens : list Token) : list jsstring :=
  flat_map (fun t => match type t with
                     | Heading => []
                     | Text => sentenceSplit (text t)
                     end) tokens.

(** Iterations that are enough to hard-split any sentence of [tokens] when
    [maxSize] is positive: one more than the longest sentence (every
    iteration takes at least one code unit). *)
Definition enough_fuel (tokens : list Token) : nat :=
  S (fold_right Nat.max O (map (@length char) (sentences tokens))).

(** [buildChunks(tokens, minSize, maxSize)] returns [chunks]. *)
Definition returns (minSize maxSize : Z) (tokens : list Token)
    (chunks : list jsstring) : Prop :=
  exists fuel, buildChunks minSize maxSize fuel tokens = Some chunks.

End Seed.

(* ================================================================== *)
(** * Calls that leave the program *)
(* ================================================================== *)

Module Effects.

(** A thrown value, as the sources read it: [e?.status] and [e?.message]. *)
Record Error := mkError { err_status : option Z; message : jsstring }.

(** [new Error(msg)] *)
Definition new_Error (msg : jsstring) : Error := mkError None msg.

(** A [fetch] response: [res.status] and the text [await res.text()] gives;
    [res.ok] is a status in 200..299. *)
Record Response := mkResponse { status : Z; res_text : jsstring }.

Definition ok (r : Response) : bool :=
  ((200 <=? status r) && (status r <=? 299))%Z.

(** A row of [documents] (the surrogate key [id BIGSERIAL] is left out: no
    statement of the program reads it).  [embedding] is the vector literal
    the program sends. *)
Record Row := mkRow {
  row_celex : jsstring;
  row_doc_id : jsstring;
  row_chunk_id : Z;
  row_content : jsstring;
  row_embedding : jsstring
}.

(** A row of the result of the similarity query. *)
Record Hit := mkHit {
  hit_celex : jsstring;
  hit_doc_id : jsstring;
  hit_chunk_id : Z;
  hit_content : jsstring;
  hit_score : float
}.

(** The SQL statements the program issues. *)
Inductive statement :=
| BEGIN
| COMMIT
| ROLLBACK
  (** [INSERT INTO documents (celex, doc_id, chunk_id, content, embedding)
      VALUES ($1, $2, $3, $4, $5::vector)
      ON CONFLICT (celex, chunk_id) DO UPDATE SET doc_id = EXCLUDED.doc_id,
      content = EXCLUDED.content, embedding = EXCLUDED.embedding] *)
| INSERT_documents (celex doc_id : jsstring) (chunk_id : Z)
    (content embedding : jsstring)
  (** [SELECT celex, doc_id, chunk_id, content,
      (1 - (embedding <=> $1::vector)) AS score FROM documents
      ORDER BY embedding <=> $1::vector LIMIT $2] *)
| SELECT_nearest (v : jsstring) (k : Z).

(** The calls, indexed by the type of what they return. *)
Inductive call : Type -> Type :=
| DateNow : call Z
| ReadFileSync (path : jsstring) : call jsstring
| Fetch (url : jsstring) (timeoutMs : Z) : call Response
| Jitter : call Z                  (* Math.floor(Math.random() * 200) *)
| Sleep (ms : Z) : call unit
| EmbeddingsCreate (model input : jsstring) : call (list float)
| ChatCompletionsCreate (model : jsstring) (temperature : float)
    (system user : jsstring) : call (option jsstring)
| PoolConnect : call unit
| ClientQuery (q : statement) : call (list Hit)
| ClientRelease : call unit
| PoolQuery (q : statement) : call (list Hit).

(** A program: it returns, throws, or makes a call and goes on with what the
    call gave, a value or a thrown error. *)
Inductive io (A : Type) : Type :=
| Ret (a : A)
| Throw (e : Error)
| Vis (X : Type) (c : call X) (k : Error + X -> io A).

Arguments Ret {A} a.
Arguments Throw {A} e.
Arguments Vis {A X} c k.

Fixpoint bind {A B} (m : io A) (f : A -> io B) : io B :=
  match m with
  | Ret a => f a
  | Throw e => Throw e
  | Vis c k => Vis c (fun r => bind (k r) f)
  end.

(** [await c]: an error of the call is thrown. *)
Definition perform {X} (c : call X) : io X :=
  Vis c (fun r => match r with inl e => Throw e | inr x => Ret x end).

(** [try { m } catch (e) { h e }] *)
Fixpoint try_catch {A} (m : io A) (h : Error -> io A) : io A :=
  match m with
  | Ret a => Ret a
  | Throw e => h e
  | Vis c k => Vis c (fun r => try_catch (k r) h)
  end.

(** [try { m } finally { f }] *)
Definition try_finally {A} (m : io A) (f : io unit) : io A :=
  bind (try_catch (bind m (fun a => Ret (inr a))) (fun e => Ret (inl e)))
    (fun r =>
       bind f (fun _ =>
         match r with inl e => Throw e | inr a => Ret a end)).

Declare Scope io_scope.
Delimit Scope io_scope with io.
Notation "x <- m ;; k" := (bind m (fun x => k))
  (at level 61, m at next level, right associativity) : io_scope.
Notation "m ;;; k" := (bind m (fun _ => k))
  (at level 61, right associativity) : io_scope.

(** What a run leaves behind: the calls made, in order. *)
Inductive event := Called (X : Type) (c : call X).
Arguments Called {X} c.

(** An interpretation of the calls over a world [W]. *)
Definition handler (W : Type) := forall X, call X -> W -> W * (Error + X).

Fixpoint run {W A} (h : handler W) (m : io A) (w : W)
  : W * list event * (Error + A) :=
  match m with
  | Ret a => (w, [], inr a)
  | Throw e => (w, [], inl e)
  | Vis c k =>
      let (w1, r) := h _ c w in
      let '(w2, tr, res) := run h (k r) w1 in
      (w2, Called c :: tr, res)
  end.

(** ** The database

    [table] is the committed content of [documents]; [txn] is the working
    copy of the transaction the client has open, if any. *)
Record Db := mkDb { table : list Row; txn : option (list Row) }.

Definition same_key (celex : jsstring) (chunk_id : Z) (r : Row) : bool :=
  JS.eqb (row_celex r) celex && (row_chunk_id r =? chunk_id)%Z.

(** The [INSERT ... ON CONFLICT (celex, chunk_id) DO UPDATE]: the row with
    the key is updated in place, and a new row is added when there is none
    (the unique index [uq_docs_celex_chunk] is the conflict target). *)
Fixpoint insert_on_conflict (r : Row) (t : list Row) : list Row :=
  match t with
  | [] => [r]
  | r' :: t' =>
      if same_key (row_celex r) (row_chunk_id r) r' then r :: t'
      else r' :: insert_on_conflict r t'
  end.

Section Database.
(** The rows the similarity query selects from a table: the distance
    operator of pgvector is outside the program. *)
Variable nearest : list Row -> jsstring -> Z -> list Hit.

Definition visible (d : Db) : list Row :=
  match txn d with Some t => t | None => table d end.

(** A statement on the client's connection. *)
Definition client_exec (q : statement) (d : Db) : Db * list Hit :=
  match q with
  | BEGIN =>
      (match txn d with
       | Some _ => d
       | None => mkDb (table d) (Some (table d))
       end, [])
  | COMMIT =>
      (match txn d with
       | Some t => mkDb t None
       | None => d
       end, [])
  | ROLLBACK => (mkDb (table d) None, [])
  | INSERT_documents celex doc_id chunk_id content embedding =>
      let r := mkRow celex doc_id chunk_id content embedding in
      (match txn d with
       | Some t => mkDb (table d) (Some (insert_on_conflict r t))
       | None => mkDb (insert_on_conflict r (table d)) None
       end, [])
  | SELECT_nearest v k => (d, nearest (visible d) v k)
  end.

(** A statement through the pool, on a connection of its own: it sees and
    changes the committed table. *)
Definition pool_exec (q : statement) (d : Db) : Db * list Hit :=
  match q with
  | INSERT_documents celex doc_id chunk_id content embedding =>
      (mkDb (insert_on_conflict
               (mkRow celex doc_id chunk_id content embedding) (table d))
         (txn d), [])
  | SELECT_nearest v k => (d, nearest (table d) v k)
  | _ => (d, [])
  end.

(** The world of a run: the database and the state [E] of everything else.
    [outside] answers the calls that are not statements, and [fault] says
    when the database refuses a statement. *)
Variable E : Type.
Variable outside : handler E.
Variable fault : statement -> E -> E * option Error.

Definition world : Type := Db * E.

Definition on_db (exec : statement -> Db -> Db * list Hit) (q : statement)
    (w : world) : world * (Error + list Hit) :=
  let (e1, f) := fault q (snd w) in
  match f with
  | Some err => ((fst w, e1), inl err)
  | None => let (d1, rows) := exec q (fst w) in ((d1, e1), inr rows)
  end.

Definition handle : handler world :=
  fun X (c : call X) (w : world) =>
    match c in call T return world * (Error + T) with
    | ClientQuery q => on_db client_exec q w
    | PoolQuery q => on_db pool_exec q w
    | c' => let (e1, r) := outside _ c' (snd w) in ((fst w, e1), r)
    end.
End Database.

Arguments handle nearest {E} outside fault X c w.
Arguments on_db {E} fault exec q w.

End Effects.

Import Effects.
Local Open Scope io_scope.

(* ================================================================== *)
(** * The seed script: status markers, store upsert, one record *)
(* ================================================================== *)

Module Ingest.
Import Seed.

(** ** The regular expressions of the status scan

    The patterns are sequences of literal code units compared without case
    ([/i]), whitespace runs [\s+] and [\s*], digits [[0-9]] and an optional
    literal [(c)?]. *)
Inductive atom :=
| Chr (c : char)
| Spaces (least : nat)
| Digit
| Opt (c : char).

(** The other case of a code unit of the patterns: the ASCII letters, and
    U+00EE/U+00CE and U+0103/U+0102.  Without the [u] flag a code unit
    matches a literal when both have the same upper case, and a code unit
    outside ASCII never matches an ASCII one. *)
Definition other_case (c : char) : char :=
  (if (65 <=? c) && (c <=? 90) then c + 32
   else if (97 <=? c) && (c <=? 122) then c - 32
   else if c =? 0xEE then 0xCE else if c =? 0xCE then 0xEE
   else if c =? 0x103 then 0x102 else if c =? 0x102 then 0x103
   else c)%N.

Definition same_letter (p x : char) : bool :=
  ((x =? p) || (x =? other_case p))%N.

Definition is_digit (c : char) : bool := ((48 <=? c) && (c <=? 57))%N.

Fixpoint first_some {A B} (f : A -> option B) (l : list A) : option B :=
  match l with
  | [] => None
  | a :: l' => match f a with Some b => Some b | None => first_some f l' end
  end.

(** The pattern tried at the head of [s]: the length of the match the
    backtracking matcher finds first (greedy runs, longest first). *)
Fixpoint match_len (p : list atom) (s : jsstring) {struct p} : option nat :=
  match p with
  | [] => Some O
  | Chr c :: p' =>
      match s with
      | x :: s' => if same_letter c x then option_map S (match_len p' s') else None
      | [] => None
      end
  | Digit :: p' =>
      match s with
      | x :: s' => if is_digit x then option_map S (match_len p' s') else None
      | [] => None
      end
  | Opt c :: p' =>
      match
        match s with
        | x :: s' => if same_letter c x then option_map S (match_len p' s') else None
        | [] => None
        end
      with
      | Some n => Some n
      | None => match_len p' s
      end
  | Spaces least :: p' =>
      first_some
        (fun j => option_map (Nat.add j) (match_len p' (skipn j s)))
        (rev (seq least (S (ws_run s) - least)))
  end.

(** [re.exec(s)]: the leftmost match, as the text from its start and its
    length. *)
Fixpoint exec (p : list atom) (s : jsstring) : option (jsstring * nat) :=
  match match_len p s with
  | Some n => Some (s, n)
  | None => match s with [] => None | _ :: s' => exec p s' end
  end.

(** [re.test(s)] *)
Definition test (p : list atom) (s : jsstring) : bool :=
  match exec p s with Some _ => true | None => false end.

Definition word (s : string) : list atom := map Chr (lit s).
Definition sp : list atom := [Spaces 1].

(** [NO_LONGER_IN_FORCE_MARKERS] *)
Definition NO_LONGER_IN_FORCE_MARKERS : list (list atom) :=
  [ word "No" ++ sp ++ word "longer" ++ sp ++ word "in" ++ sp ++ word "force";
    word "Ceased" ++ sp ++ word "to" ++ sp ++ word "be" ++ sp ++ word "in"
      ++ sp ++ word "force";
    word "Nu" ++ sp ++ word "mai" ++ sp ++ word "este" ++ sp
      ++ [Chr 0xEE%N; Chr 110%N] ++ sp ++ word "vigoare";
    word "Nu" ++ sp ++ word "mai" ++ sp ++ word "este" ++ sp ++ word "in"
      ++ sp ++ word "vigoare";
    word "abrogare" ++ sp ++ word "implicit" ++ [Chr 0x103%N];
    word "abrogat" ++ [Opt 0x103%N];
    word "End" ++ sp ++ word "of" ++ sp ++ word "validity" ].

(** [/Date of end of validity:\s*([0-9]{2}\/[0-9]{2}\/[0-9]{4})/i]; the
    group is the last ten code units of a match. *)
Definition END_OF_VALIDITY : list atom :=
  word "Date of end of validity:" ++ [Spaces 0]
    ++ [Digit; Digit] ++ word "/" ++ [Digit; Digit] ++ word "/"
    ++ [Digit; Digit; Digit; Digit].

Record Status := mkStatus { matched : bool; endOfValidity : option jsstring }.

Definition isNoLongerInForce (html : jsstring) : Status :=
  if existsb (fun re => test re html) NO_LONGER_IN_FORCE_MARKERS then
    mkStatus true
      (match exec END_OF_VALIDITY html with
       | Some (s, n) => Some (firstn 10 (skipn (n - 10) s))
       | None => None
       end)
  else mkStatus false None.

(** [fetchWithRetry(url, init, attempts, baseDelayMs, timeoutMs)]: [n]
    attempts are left and [i] is the loop counter. *)
Fixpoint fetchWithRetry_from (n : nat) (i : Z) (lastErr : option Error)
    (url : jsstring) (baseDelayMs timeoutMs : Z) : io Response :=
  match n with
  | O =>
      Throw (match lastErr with
             | Some e => e
             | None => new_Error (lit "Fetch failed after retries")
             end)
  | S n' =>
      let again (lastErr' : option Error) :=
        j <- perform Jitter ;;
        perform (Sleep (baseDelayMs * 2 ^ i + j)) ;;;
        fetchWithRetry_from n' (i + 1) lastErr' url baseDelayMs timeoutMs in
      Vis (Fetch url timeoutMs) (fun r =>
        match r with
        | inr res =>
            if ((status res >=? 200) && (status res <? 300))%Z then Ret res
            else if ((status res =? 429)
                     || (status res >=? 500) && (status res <=? 599))%Z
            then again lastErr
            else Ret res
        | inl err => again (Some err)
        end)
  end.

Definition fetchWithRetry (url : jsstring) (attempts baseDelayMs timeoutMs : Z)
  : io Response :=
  fetchWithRetry_from (Z.to_nat attempts) 0 None url baseDelayMs timeoutMs.

(** [type DiscItem] *)
Record DiscItem := mkDiscItem {
  celex : jsstring;
  title : jsstring;
  lang : jsstring;
  work : jsstring;
  expression : jsstring;
  issued : option jsstring;
  urlTxt : jsstring
}.

Record Durations := mkDurations { fetchMs : Z; parseMs : Z; dbMs : Z; totalMs : Z }.

Record Report := mkReport {
  rep_celex : jsstring;
  chunkCount : Z;
  avgChunkLen : Z;
  durations : Durations
}.

Section Script.
(** What the script takes from its environment and from libraries that
    are outside it: the mock switch ([SEED_MOCK] or [SEED_TEST_MODE]), the
    fixture file, the embedding model, the vector of the mock branch of
    [embed], [Number.prototype.toString] on the components of a vector,
    and the extraction of tokens from markup by cheerio. *)
Variable SEED_MOCK : bool.
Variable SEED_MOCK_HTML_FILE : jsstring.
Variable EMBED_MODEL : jsstring.
Variable mock_embedding : jsstring -> list float.
Variable number_to_string : float -> jsstring.
Variable extractMainTokens : jsstring -> list Token.

Definition toPgVector (vec : list float) : jsstring :=
  lit "[" ++ join (lit ",") (map number_to_string vec) ++ lit "]".

Definition embed (text : jsstring) : io (list float) :=
  if SEED_MOCK then Ret (mock_embedding text)
  else
    try_catch (perform (EmbeddingsCreate EMBED_MODEL text))
      (fun e =>
         if match err_status e with Some s => (s =? 429)%Z | None => false end
            && test (word "quota") (message e)
         then Throw (new_Error (lit
           "OpenAI quota exceeded. Configure billing for your API key or use --no-embed to dry-run."))
         else Throw e).

(** The first loop of [upsertDocument]: one vector literal per chunk. *)
Fixpoint embed_all (chunks : list jsstring) : io (list jsstring) :=
  match chunks with
  | [] => Ret []
  | c :: rest =>
      emb <- embed c ;;
      embs <- embed_all rest ;;
      Ret (toPgVector emb :: embs)
  end.

(** The second loop: one insert per chunk, [i] being the chunk index. *)
Fixpoint insert_all (celex : jsstring) (i : Z)
    (rows : list (jsstring * jsstring)) : io unit :=
  match rows with
  | [] => Ret tt
  | (chunk, embedding) :: rest =>
      perform (ClientQuery (INSERT_documents celex celex i chunk embedding)) ;;;
      insert_all celex (i + 1) rest
  end.

Definition upsertDocument (celex : jsstring) (chunks : list jsstring)
  : io unit :=
  embeddings <- embed_all chunks ;;
  perform PoolConnect ;;;
  try_finally
    (try_catch
       (perform (ClientQuery BEGIN) ;;;
        insert_all celex 0 (combine chunks embeddings) ;;;
        perform (ClientQuery COMMIT) ;;;
        Ret tt)
       (fun e => perform (ClientQuery ROLLBACK) ;;; Throw e))
    (perform ClientRelease).

(** [Math.round(sum / n)] for non-negative integers, [n > 0]. *)
Definition round_div (sum n : Z) : Z := ((2 * sum + n) / (2 * n))%Z.

Definition fetch_html (item : DiscItem) : io jsstring :=
  if SEED_MOCK then perform (ReadFileSync SEED_MOCK_HTML_FILE)
  else
    res <- fetchWithRetry (urlTxt item) 5 800 25000 ;;
    res <- (if negb (ok res) && includes (lit "/RO/") (urlTxt item)
            then fetchWithRetry
                   (replace_first (lit "/RO/") (lit "/EN/") (urlTxt item))
                   5 800 25000
            else Ret res) ;;
    if negb (ok res) then
      Throw (new_Error
               (lit "Failed to fetch TXT for " ++ celex item ++ lit ". HTTP "
                  ++ of_int (status res) ++ lit ": "
                  ++ slice (res_text res) 0 200))
    else Ret (res_text res).

(** [processItem(item, opts)]; console output is left out.  The chunker
    is called with [maxSize = 1000], for which it returns within
    [enough_fuel] (see [processItem_chunker_returns] below): the last branch of
    the match is never taken. *)
Definition processItem (item : DiscItem) (noEmbed : bool) : io Report :=
  t0 <- perform DateNow ;;
  html <- fetch_html item ;;
  tFetch <- perform DateNow ;;
  let abro := isNoLongerInForce html in
  if matched abro then
    Ret (mkReport (celex item) 0 0
           (mkDurations (tFetch - t0) 0 0 (tFetch - t0)))
  else
    let tokens := extractMainTokens html in
    match buildChunks 800 1000 (enough_fuel tokens) tokens with
    | Some chunks =>
        tParse <- perform DateNow ;;
        (if negb noEmbed then upsertDocument (celex item) chunks
         else Ret tt) ;;;
        tDb <- perform DateNow ;;
        Ret (mkReport (celex item) (Z.of_nat (length chunks))
               (match chunks with
                | _ :: _ =>
                    round_div
                      (fold_left (fun a b => (a + len b)%Z) chunks 0%Z)
                      (Z.of_nat (length chunks))
                | [] => 0%Z
                end)
               (mkDurations (tFetch - t0) (tParse - tFetch) (tDb - tParse)
                  (tDb - t0)))
    | None => Throw (new_Error (lit "unreachable"))
    end.
End Script.

End Ingest.

(* ================================================================== *)
(** * [lib/rag.ts]: retrieval and the grounded answer *)
(* ================================================================== *)

Module Rag.

(** [type RetrievedChunk] *)
Record RetrievedChunk := mkChunk {
  celex : jsstring;
  doc_id : jsstring;
  chunk_id : Z;
  content : jsstring;
  score : float
}.

Definition TEMPERATURE : float := 0.2%float.

(** [return 1 - Number(distance)]; [Number] is the identity on a number. *)
Definition cosineScoreFromDistance (distance : float) : float :=
  (1 - distance)%float.

(** [`#${celex}:${chunkId}`] *)
Definition formatCitation (celex : jsstring) (chunkId : Z) : jsstring :=
  lit "#" ++ celex ++ lit ":" ++ of_int chunkId.

(** [chunks.map(c => `[${formatCitation(c.celex, c.chunk_id)}]\n${c.content}`)
      .join('\n\n')] *)
Definition context_block (c : RetrievedChunk) : jsstring :=
  lit "[" ++ formatCitation (celex c) (chunk_id c) ++ lit "]" ++ [LF]
    ++ content c.

Definition buildContext (chunks : list RetrievedChunk) : jsstring :=
  join [LF; LF] (map context_block chunks).

(** The fixed text of an abstention:
    "Nu [U+0219]tiu. Nu am suficiente informa[U+021B]ii din contextul
    recuperat." *)
Definition INSUFFICIENT : jsstring :=
  lit "Nu " ++ [0x219%N] ++ lit "tiu. Nu am suficiente informa" ++ [0x21B%N]
    ++ lit "ii din contextul recuperat.".

Definition SYSTEM : jsstring :=
  lit "Answer STRICTLY from the provided context. If the context is insufficient, say you don't know. Cite using the format [#CELEX:chunkId]. Answer in Romanian.".

(** [`[U+00CE]ntrebare:\n${query}\n\nContext:\n${context}`] *)
Definition user_message (query context : jsstring) : jsstring :=
  [0xCE%N] ++ lit "ntrebare:" ++ [LF] ++ query ++ [LF; LF] ++ lit "Context:"
    ++ [LF] ++ context.

(** [!chunks.length || (chunks[0]?.score ?? 0) < 0.25] *)
Definition insufficient (chunks : list RetrievedChunk) : bool :=
  match chunks with
  | [] => true
  | top :: _ => PrimFloat.ltb (score top) 0.25%float
  end.

Record SourceEntry := mkEntry { citation : jsstring; entry_score : float }.

Record Answer := mkAnswer {
  answer_text : jsstring;
  sources : list jsstring;
  sourceEntries : list SourceEntry
}.

Record Source := mkSource {
  src_celex : jsstring;
  src_chunk_id : Z;
  relevance : float
}.

Record Generated := mkGenerated {
  generated_answer : jsstring;
  generated_sources : list Source
}.

Section Config.
(** [OPENAI_EMBED_MODEL], [OPENAI_CHAT_MODEL] and the printing of the
    components of a vector. *)
Variable EMBED_MODEL : jsstring.
Variable CHAT_MODEL : jsstring.
Variable number_to_string : float -> jsstring.

Definition toPgVector (vec : list float) : jsstring :=
  lit "[" ++ join (lit ",") (map number_to_string vec) ++ lit "]".

Definition embedText (text : jsstring) : io (list float) :=
  perform (EmbeddingsCreate EMBED_MODEL text).

(** [retrieve(queryText, k = 5)]: [None] is a call without [k]. *)
Definition retrieve (queryText : jsstring) (k : option Z)
  : io (list RetrievedChunk) :=
  let k := match k with Some k => k | None => 5%Z end in
  embedding <- embedText queryText ;;
  let v := toPgVector embedding in
  rows <- perform (PoolQuery (SELECT_nearest v k)) ;;
  Ret (map (fun r => mkChunk (hit_celex r) (hit_doc_id r) (hit_chunk_id r)
                       (hit_content r) (hit_score r)) rows).

(** [completion.choices[0]?.message?.content?.trim() || ''] *)
Definition completion_text (c : option jsstring) : jsstring :=
  match c with Some s => trim s | None => [] end.

(** [answer(query)] *)
Definition answer (query : jsstring) : io Answer :=
  chunks <- retrieve query (Some 5%Z) ;;
  if insufficient chunks then Ret (mkAnswer INSUFFICIENT [] [])
  else
    let context := buildContext chunks in
    completion <-
      perform (ChatCompletionsCreate CHAT_MODEL TEMPERATURE SYSTEM
                 (user_message query context)) ;;
    let text := completion_text completion in
    let sourceEntries :=
      map (fun c => mkEntry (formatCitation (celex c) (chunk_id c)) (score c))
        chunks in
    let sources := map citation sourceEntries in
    Ret (mkAnswer text sources sourceEntries).

(** [retrieveTopK(queryText, k = 10)] *)
Definition retrieveTopK (queryText : jsstring) (k : option Z)
  : io (list RetrievedChunk) :=
  retrieve queryText (Some (match k with Some k => k | None => 10%Z end)).

(** [generateAnswer(question, k = 10)] *)
Definition generateAnswer (question : jsstring) (k : option Z)
  : io Generated :=
  let k := match k with Some k => k | None => 10%Z end in
  chunks <- retrieve question (Some k) ;;
  if insufficient chunks then Ret (mkGenerated INSUFFICIENT [])
  else
    let context := buildContext chunks in
    completion <-
      perform (ChatCompletionsCreate CHAT_MODEL TEMPERATURE SYSTEM
                 (user_message question context)) ;;
    let answer := completion_text completion in
    let sources :=
      map (fun c => mkSource (celex c) (chunk_id c) (score c)) chunks in
    Ret (mkGenerated answer sources).
End Config.

End Rag.

(* ================================================================== *)
(** * [app/api/chat/route.ts] *)
(* ================================================================== *)

Module ChatRoute.
Import Rag.

(** The JSON body of a request, as far as [BodySchema] reads it: each field
    is absent or has the type the schema asks for. *)
Record Body := mkBody { body_message : option jsstring; body_k : option Z }.

(** [z.object({ message: z.string().min(1),
                k: z.number().int().min(1).max(20).optional() })] *)
Definition valid (b : Body) : bool :=
  match body_message b with
  | Some m => (1 <=? len m)%Z
  | None => false
  end
  && match body_k b with
     | Some k => ((1 <=? k) && (k <=? 20))%Z
     | None => true
     end.

Inductive Payload :=
| AnswerJson (answer : jsstring) (sources : list Source)
| ErrorJson (error : jsstring).

Record HttpResponse := mkHttp { http_status : Z; payload : Payload }.

Section Route.
Variable EMBED_MODEL : jsstring.
Variable CHAT_MODEL : jsstring.
Variable number_to_string : float -> jsstring.
(** The message of the error [BodySchema.parse] throws. *)
Variable zod_message : Body -> jsstring.

Definition POST (json : Body) : io HttpResponse :=
  try_catch
    (match body_message json with
     | Some message =>
         if valid json then
           r <- generateAnswer EMBED_MODEL CHAT_MODEL number_to_string
                  message
                  (Some (match body_k json with Some k => k | None => 10%Z end)) ;;
           Ret (mkHttp 200 (AnswerJson (generated_answer r) (generated_sources r)))
         else Throw (new_Error (zod_message json))
     | None => Throw (new_Error (zod_message json))
     end)
    (fun err => Ret (mkHttp 400 (ErrorJson (message err)))).
End Route.

End ChatRoute.

(* ================================================================== *)
(** * Vocabulary of the properties *)
(* ================================================================== *)

Module Spec.
Import Seed.

(** The non-whitespace content of a string: its code units outside [\s],
    in order. *)
Definition nw (s : jsstring) : jsstring := filter (fun c => negb (is_ws c)) s.

Arguments nw : simpl never.

(** A string with a code unit that is not whitespace. *)
Definition nonblank (s : jsstring) : Prop := nw s <> [].

(** [p] is the beginning of [s]. *)
Definition begins_with (p s : jsstring) : Prop := exists r, s = p ++ r.

(** [cleanText] before its final [trim]. *)
Definition replaced (s : jsstring) : jsstring :=
  replace_runs is_lf 3 [LF; LF]
    (replace_runs is_cr_ff 1 [LF]
       (replace_runs is_sp_tab 1 [SP] (map nbsp_to_space s))).

(** Whatever the chunker does to its two variables is a sequence of two
    moves: a flush, and text appended to the buffer.  [moves a x b]: some
    moves lead from [a] to [b], and [x] is all the text they appended. *)
Inductive moves : acc -> jsstring -> acc -> Prop :=
| moves_done a : moves a [] a
| moves_flush a x b : moves (flush a) x b -> moves a x b
| moves_append a y x b :
    moves (mkAcc (chunks a) (current a ++ y)) x b -> moves a (y ++ x) b.

(** The non-whitespace content held by the two variables. *)
Definition content (a : acc) : jsstring :=
  nw (concat (chunks a) ++ current a).

Definition no_empty (l : list jsstring) : Prop := Forall (fun c => c <> []) l.

(** Every passage has at most [maxSize] code units. *)
Definition within (maxSize : Z) (l : list jsstring) : Prop :=
  Forall (fun c => (len c <= maxSize)%Z) l.

(** The passages are within [maxSize], and so is the buffer but for blank
    text at its beginning. *)
Definition fits (maxSize : Z) (a : acc) : Prop :=
  within maxSize (chunks a)
  /\ exists w core,
      current a = w ++ core /\ nw w = []
      /\ (core = [] \/ (len core <= maxSize)%Z).

(** The passage that begins with the cleaned text of [h] is the [n]-th one,
    or it is still in the buffer and will be the [n]-th. *)
Definition carried (n : nat) (h : jsstring) (a : acc) : Prop :=
  (exists c, nth_error (chunks a) n = Some c /\ begins_with (cleanText h) c)
  \/ (length (chunks a) = n
      /\ exists w r, nw w = [] /\ current a = w ++ h ++ r).

Definition heading_ (s : string) : Token := mkToken Heading (lit s).
Definition body_ (s : string) : Token := mkToken Text (lit s).

(** ** Runs *)

Definition trace {W A} (x : W * list event * (Error + A)) : list event :=
  snd (fst x).

Definition result {W A} (x : W * list event * (Error + A)) : Error + A :=
  snd x.

(** The [LIMIT] of a similarity query. *)
Definition limit_of (e : event) : option Z :=
  match e with
  | Called c =>
      match c with
      | PoolQuery (SELECT_nearest _ k) => Some k
      | ClientQuery (SELECT_nearest _ k) => Some k
      | _ => None
      end
  end.

(** The limits of the similarity queries of a trace, in order. *)
Fixpoint limits (tr : list event) : list Z :=
  match tr with
  | [] => []
  | e :: tr' =>
      match limit_of e with
      | Some k => k :: limits tr'
      | None => limits tr'
      end
  end.

(** A call to the database. *)
Definition is_db {X} (c : call X) : bool :=
  match c with
  | PoolConnect | ClientQuery _ | ClientRelease | PoolQuery _ => true
  | _ => false
  end.

Definition db_event (e : event) : bool :=
  match e with Called c => is_db c end.

(** At most one similarity query, and with the limit [k]. *)
Definition at_most_one (k : Z) (tr : list event) : Prop :=
  limits tr = [k] \/ limits tr = [].

(** A program that makes no call to the database. *)
Fixpoint db_free {A} (m : io A) : Prop :=
  match m with
  | Ret _ | Throw _ => True
  | Vis c k => is_db c = false /\ forall r, db_free (k r)
  end.

(** The table after the inserts of [upsertDocument]: [rows] are the chunks
    with their vector literals and [i] is the index of the first. *)
Fixpoint inserted (celex : jsstring) (i : Z) (rows : list (jsstring * jsstring))
    (t : list Row) : list Row :=
  match rows with
  | [] => t
  | (chunk, embedding) :: rest =>
      inserted celex (i + 1) rest
        (insert_on_conflict (mkRow celex celex i chunk embedding) t)
  end.

(** The rows [rows] makes, in order. *)
Fixpoint rows_from (celex : jsstring) (i : Z) (rows : list (jsstring * jsstring))
  : list Row :=
  match rows with
  | [] => []
  | (chunk, embedding) :: rest =>
      mkRow celex celex i chunk embedding :: rows_from celex (i + 1) rest
  end.

(** The rows stored for a document, in table order. *)
Definition rows_of (celex : jsstring) (t : list Row) : list Row :=
  filter (fun r => JS.eqb (row_celex r) celex) t.

(** The chunk indices stored for a document, in table order. *)
Definition indices (celex : jsstring) (t : list Row) : list Z :=
  map row_chunk_id (rows_of celex t).

End Spec.

(* ================================================================== *)
(** * Fixtures *)
(* ================================================================== *)

Module Fixtures.

(** A world outside the database that answers every call: the clock reads
    [0], a fetch or a file read gives [html], an embedding is the vector
    [[0.5]], a similarity query through the pool gives [rows], and the chat
    model says [reply]. *)
Definition scripted (html : jsstring) (rows : list Hit)
    (reply : option jsstring) : handler unit :=
  fun X (c : call X) (w : unit) =>
    match c in call T return unit * (Error + T) with
    | DateNow => (tt, inr 0%Z)
    | ReadFileSync _ => (tt, inr html)
    | Fetch _ _ => (tt, inr (mkResponse 200 html))
    | Jitter => (tt, inr 0%Z)
    | Sleep _ => (tt, inr tt)
    | EmbeddingsCreate _ _ => (tt, inr [0.5%float])
    | ChatCompletionsCreate _ _ _ _ => (tt, inr reply)
    | PoolConnect => (tt, inr tt)
    | ClientQuery _ => (tt, inr [])
    | ClientRelease => (tt, inr tt)
    | PoolQuery _ => (tt, inr rows)
    end.

Definition quiet (html : jsstring) : handler unit := scripted html [] None.

(** The database with no fault and a similarity query that selects
    nothing. *)
Definition no_fault (q : statement) (e : unit) : unit * option Error :=
  (e, None).

Definition nothing (t : list Row) (v : jsstring) (k : Z) : list Hit := [].

Definition db_world (html : jsstring) : handler (world unit) :=
  handle nothing (quiet html) no_fault.

Definition print_number (x : float) : jsstring := lit "0.5".

(** Three rows stored for the document "32019R1234". *)
Definition stored : list Row :=
  [ mkRow (lit "32019R1234") (lit "32019R1234") 0 (lit "old 0") (lit "[0.5]");
    mkRow (lit "32019R1234") (lit "32019R1234") 1 (lit "old 1") (lit "[0.5]");
    mkRow (lit "32019R1234") (lit "32019R1234") 2 (lit "old 2") (lit "[0.5]") ].

Definition item (celex : string) : Ingest.DiscItem :=
  Ingest.mkDiscItem (lit celex) (lit celex) (lit "ro") [] [] None
    (lit "https://eur-lex.europa.eu/legal-content/RO/TXT/?uri=CELEX:" ++ lit celex).

End Fixtures.

(* ================================================================== *)
(** * The seed script: discovered items *)
(* ================================================================== *)

Module Discovery.
Import Ingest.

(** [`https://eur-lex.europa.eu/legal-content/${LANG}/TXT/?uri=CELEX:${celex}`]:
    the address of the text page of a document in one language.  The seed
    script builds it with [lang.toUpperCase()] and with [RO], the prune
    script with [EURLEX_LANG], the page of the application with [RO]. *)
Definition eurlexTxtUrl (LANG celex : jsstring) : jsstring :=
  lit "https://eur-lex.europa.eu/legal-content/" ++ LANG
    ++ lit "/TXT/?uri=CELEX:" ++ celex.

(** The item [main] makes for one CELEX number of [--celex=]. *)
Definition manualItem (celex : jsstring) : DiscItem :=
  mkDiscItem celex celex (lit "ro") [] [] None (eurlexTxtUrl (lit "RO") celex).

(** A [Map<string, V>]: its entries, in insertion order.  [set] on a key
    that is present replaces the value where the entry is. *)
Section JsMap.
Context {V : Type}.

Fixpoint Map_get (k : jsstring) (m : list (jsstring * V)) : option V :=
  match m with
  | [] => None
  | (k', v) :: m' => if JS.eqb k' k then Some v else Map_get k m'
  end.

Fixpoint Map_set (k : jsstring) (v : V) (m : list (jsstring * V))
  : list (jsstring * V) :=
  match m with
  | [] => [(k, v)]
  | (k', v') :: m' =>
      if JS.eqb k' k then (k, v) :: m' else (k', v') :: Map_set k v m'
  end.
End JsMap.

(** The body of [for (const it of items)] that fills [byCelex]. *)
Definition dedupeStep (byCelex : list (jsstring * DiscItem)) (it : DiscItem)
  : list (jsstring * DiscItem) :=
  match Map_get (celex it) byCelex with
  | None => Map_set (celex it) it byCelex
  | Some prev =>
      if negb (JS.eqb (lang prev) (lit "ro")) && JS.eqb (lang it) (lit "ro")
      then Map_set (celex it) it byCelex
      else byCelex
  end.

(** The end of [runDiscovery]: deduplicate by CELEX, prefer Romanian;
    [Array.from(byCelex.values())]. *)
Definition dedupe (items : list DiscItem) : list DiscItem :=
  map snd (fold_left dedupeStep items []).

End Discovery.

(* ================================================================== *)
(** * The seed script: tokens of a page *)
(* ================================================================== *)

Module Parse.
Import Seed Ingest.

(** The alternatives of [/^(Article|Articolul|Art\.|Section|Capitolul|
    Chapter|Annex)/i]. *)
Definition HEADING_WORDS : list (list atom) :=
  [ word "Article"; word "Articolul"; word "Art."; word "Section";
    word "Capitolul"; word "Chapter"; word "Annex" ].

(** A pattern anchored at the start of [s]. *)
Definition at_start (p : list atom) (s : jsstring) : bool :=
  match match_len p s with Some _ => true | None => false end.

(** [[IVXLC]] *)
Definition is_roman (c : char) : bool :=
  ((c =? 73) || (c =? 86) || (c =? 88) || (c =? 76) || (c =? 67))%N.

Fixpoint roman_run (s : jsstring) : nat :=
  match s with
  | c :: s' => if is_roman c then S (roman_run s') else O
  | [] => O
  end.

(** [\.?\s] at the head of [s]: with the full stop, and then without. *)
Definition stop_then_space (s : jsstring) : bool :=
  match s with
  | c :: d :: _ => ((c =? 46)%N && is_ws d) || is_ws c
  | [c] => is_ws c
  | [] => false
  end.

(** [/^[IVXLC]+\.?\s/.test(t)]: the greedy run of numerals, longest
    first. *)
Definition roman_numeral (t : jsstring) : bool :=
  existsb (fun j => stop_then_space (skipn j t)) (rev (seq 1 (roman_run t))).

Definition isLikelyHeading (text : jsstring) : bool :=
  let t := trim text in
  if truthy t then
    existsb (fun p => at_start p t) HEADING_WORDS || roman_numeral t
  else false.

(** An element that [main.find('h1, h2, h3, h4, p, li')] selected:
    its tag name in lower case, when it has one, and [$(n).text()]. *)
Record Node := mkNode { tagName : option jsstring; node_text : jsstring }.

Definition BULLET : char := 0x2022%N.

(** The body of [for (const n of nodes)]: the token of a node, none
    when its cleaned text is empty. *)
Definition tokenOf (n : Node) : option Token :=
  let text := cleanText (node_text n) in
  if truthy text then
    let text :=
      if match tagName n with
         | Some name => JS.eqb name (lit "li")
         | None => false
         end
      then [BULLET; SP] ++ text else text in
    Some (mkToken
            (if match tagName n with
                | Some name => starts_with (lit "h") name
                | None => false
                end
                || isLikelyHeading text
             then Heading else Text)
            text)
  else None.

Fixpoint tokensOf (nodes : list Node) : list Token :=
  match nodes with
  | [] => []
  | n :: rest =>
      match tokenOf n with
      | Some t => t :: tokensOf rest
      | None => tokensOf rest
      end
  end.

Definition is_heading (t : Token) : bool :=
  match type t with Heading => true | Text => false end.

(** The body of [for (const t of tokens)] that coalesces consecutive
    headings: the text of a heading is added to the last token of [merged]
    when that is a heading too. *)
Definition coalesceStep (merged : list Token) (t : Token) : list Token :=
  match rev merged with
  | last :: front =>
      if is_heading last && is_heading t
      then rev front ++ [mkToken (type last) (text last ++ [LF] ++ text t)]
      else merged ++ [t]
  | [] => merged ++ [t]
  end.

Definition coalesce (tokens : list Token) : list Token :=
  fold_left coalesceStep tokens [].

Section Cheerio.
(** The selection of the elements of the main container, which cheerio
    makes from the markup. *)
Variable select : jsstring -> list Node.

Definition extractMainTokens (html : jsstring) : list Token :=
  coalesce (tokensOf (select html)).
End Cheerio.

End Parse.

(* ================================================================== *)
(** * The seed script: the loop over the items *)
(* ================================================================== *)

Module SeedMain.
Import Seed Ingest.

Section Script.
Variable SEED_MOCK : bool.
Variable SEED_MOCK_HTML_FILE : jsstring.
Variable EMBED_MODEL : jsstring.
Variable mock_embedding : jsstring -> list float.
Variable number_to_string : float -> jsstring.
Variable extractMainTokens : jsstring -> list Token.

(** The loop of [main] over the items, console output left out:
    [try { const rep = await processItem(it, { noEmbed }); reports.push(rep);
    ... } catch (e) { console.error(...) }]; the result is [reports]. *)
Fixpoint processAll (items : list DiscItem) (noEmbed : bool)
  : io (list Report) :=
  match items with
  | [] => Ret []
  | it :: rest =>
      rep <- try_catch
               (rep <- processItem SEED_MOCK SEED_MOCK_HTML_FILE EMBED_MODEL
                         mock_embedding number_to_string extractMainTokens
                         it noEmbed ;;
                Ret (Some rep))
               (fun _ => Ret None) ;;
      reports <- processAll rest noEmbed ;;
      Ret (match rep with Some r => r :: reports | None => reports end)
  end.

(** The runs of [processItem] on the items, one after the other: the run
    of an item starts in the world the run of the item before it left. *)
Fixpoint item_runs {W} (h : handler W) (items : list DiscItem)
    (noEmbed : bool) (w : W) : list (W * list event * (Error + Report)) :=
  match items with
  | [] => []
  | it :: rest =>
      let x := run h (processItem SEED_MOCK SEED_MOCK_HTML_FILE EMBED_MODEL
                        mock_embedding number_to_string extractMainTokens
                        it noEmbed) w in
      x :: item_runs h rest noEmbed (fst (fst x))
  end.
End Script.

End SeedMain.

(* ================================================================== *)
(** * The prune script *)
(* ================================================================== *)

Module Prune.
Import Ingest.

(** [MARKERS] *)
Definition MARKERS : list (list atom) :=
  [ word "No" ++ sp ++ word "longer" ++ sp ++ word "in" ++ sp ++ word "force";
    word "Ceased" ++ sp ++ word "to" ++ sp ++ word "be" ++ sp ++ word "in"
      ++ sp ++ word "force";
    word "Nu" ++ sp ++ word "mai" ++ sp ++ word "este" ++ sp
      ++ [Chr 0xEE%N; Chr 110%N] ++ sp ++ word "vigoare";
    word "Nu" ++ sp ++ word "mai" ++ sp ++ word "este" ++ sp ++ word "in"
      ++ sp ++ word "vigoare";
    word "abrogare" ++ sp ++ word "implicit" ++ [Chr 0x103%N];
    word "abrogat" ++ [Opt 0x103%N] ].

(** [isNoLongerInForce] of the prune script. *)
Definition isNoLongerInForce (html : jsstring) : Status :=
  if existsb (fun re => test re html) MARKERS then
    mkStatus true
      (match exec END_OF_VALIDITY html with
       | Some (s, n) => Some (firstn 10 (skipn (n - 10) s))
       | None => None
       end)
  else mkStatus false None.

(** The statements of the script. *)
Inductive query :=
  (** [SELECT DISTINCT celex FROM documents ORDER BY celex] *)
| SELECT_DISTINCT_celex
  (** [DELETE FROM documents WHERE celex = $1] *)
| DELETE_documents (celex : jsstring).

(** [type Options = { dryRun: boolean; limit?: number }]; [limit] is the
    integer [Array.prototype.slice] makes of the number ([NaN] is 0). *)
Record Options := mkOptions { dryRun : bool; limit : option Z }.

(** An entry of [flagged]. *)
Record Flag := mkFlag { flag_celex : jsstring; flag_end : option jsstring }.

(** The values of a column, each once, in the order of first
    occurrence. *)
Fixpoint distinct (l : list jsstring) : list jsstring :=
  match l with
  | [] => []
  | x :: l' => x :: filter (fun y => negb (JS.eqb y x)) (distinct l')
  end.

(** [array.slice(0, end)] *)
Definition slice0 {A} (l : list A) (end_ : Z) : list A :=
  let n := Z.of_nat (length l) in
  firstn (Z.to_nat (if (end_ <? 0)%Z then Z.max (n + end_) 0 else Z.min end_ n))
    l.

Section Script.
(** [EURLEX_LANG], [encodeURIComponent] (which throws on a lone
    surrogate), the order the server's collation gives to the CELEX
    numbers, and the world outside the table: [fetch] answers a request and
    [fault] says when the server refuses a statement. *)
Variable EURLEX_LANG : jsstring.
Variable encodeURIComponent : jsstring -> Error + jsstring.
Variable order_by_celex : list jsstring -> list jsstring.
Variable E : Type.
Variable fetch : jsstring -> E -> E * (Error + Response).
Variable fault : query -> E -> E * option Error.

(** The table [documents], the world outside, and the two variables of
    [prune] that its summary prints. *)
Record State := mkState {
  documents : list Row;
  world : E;
  removed : Z;
  flagged : list Flag
}.

(** A step of the script: it changes the state and returns or throws. *)
Definition prog (A : Type) : Type := State -> State * (Error + A).

Definition ret {A} (a : A) : prog A := fun s => (s, inr a).

Definition throw {A} (e : Error) : prog A := fun s => (s, inl e).

Definition seq_ {A B} (m : prog A) (f : A -> prog B) : prog B :=
  fun s =>
    match m s with
    | (s1, inr a) => f a s1
    | (s1, inl e) => (s1, inl e)
    end.

(** [try { m } catch (e) { h e }] *)
Definition catch {A} (m : prog A) (h : Error -> prog A) : prog A :=
  fun s =>
    match m s with
    | (s1, inr a) => (s1, inr a)
    | (s1, inl e) => h e s1
    end.

(** [await fetch(url, { redirect: 'follow' })] *)
Definition do_fetch (url : jsstring) : prog Response :=
  fun s =>
    let (e1, r) := fetch url (world s) in
    (mkState (documents s) e1 (removed s) (flagged s), r).

(** [await pool.query(q)]: the rows of the [celex] column it gives. *)
Definition pool_query (q : query) : prog (list jsstring) :=
  fun s =>
    let (e1, f) := fault q (world s) in
    match f with
    | Some err => (mkState (documents s) e1 (removed s) (flagged s), inl err)
    | None =>
        match q with
        | SELECT_DISTINCT_celex =>
            (mkState (documents s) e1 (removed s) (flagged s),
             inr (order_by_celex (distinct (map row_celex (documents s)))))
        | DELETE_documents celex =>
            (mkState
               (filter (fun r => negb (JS.eqb (row_celex r) celex))
                  (documents s))
               e1 (removed s) (flagged s),
             inr [])
        end
    end.

Definition BASE_URL : jsstring :=
  lit "https://eur-lex.europa.eu/legal-content/" ++ EURLEX_LANG
    ++ lit "/TXT/?uri=CELEX:".

Definition fetchText (url : jsstring) : prog jsstring :=
  seq_ (do_fetch url) (fun res =>
  if negb (ok res) then
    throw (new_Error (lit "HTTP " ++ of_int (status res) ++ lit " for " ++ url))
  else ret (res_text res)).

Definition listCelex : prog (list jsstring) :=
  pool_query SELECT_DISTINCT_celex.

(** [flagged.push({ celex, end: endOfValidity })] and [removed++] *)
Definition push_flagged (f : Flag) : prog unit :=
  fun s =>
    (mkState (documents s) (world s) (removed s) (flagged s ++ [f]), inr tt).

Definition incr_removed : prog unit :=
  fun s =>
    (mkState (documents s) (world s) (removed s + 1) (flagged s), inr tt).

(** The body of [for (const celex of toScan)], console output left out. *)
Definition scanOne (opts : Options) (celex : jsstring) : prog unit :=
  match encodeURIComponent celex with
  | inl e => throw e
  | inr encoded =>
      let url := BASE_URL ++ encoded in
      catch
        (seq_ (fetchText url) (fun html =>
         let st := isNoLongerInForce html in
         if matched st then
           seq_ (push_flagged (mkFlag celex (endOfValidity st))) (fun _ =>
           if negb (dryRun opts) then
             seq_ (pool_query (DELETE_documents celex)) (fun _ => incr_removed)
           else ret tt)
         else ret tt))
        (fun _ => ret tt)
  end.

Fixpoint scan (opts : Options) (toScan : list jsstring) : prog unit :=
  match toScan with
  | [] => ret tt
  | celex :: rest => seq_ (scanOne opts celex) (fun _ => scan opts rest)
  end.

(** [prune(pool, opts)]; it returns the number of documents it checked,
    which its summary prints with [flagged.length] and [removed]. *)
Definition prune (opts : Options) : prog Z :=
  seq_ listCelex (fun celexes =>
  let toScan :=
    match limit opts with
    | Some n => slice0 celexes n
    | None => celexes
    end in
  fun s =>
    seq_ (scan opts toScan) (fun _ => ret (Z.of_nat (length toScan)))
      (mkState (documents s) (world s) 0 [])).
End Script.

Arguments documents {E} s.
Arguments world {E} s.
Arguments removed {E} s.
Arguments flagged {E} s.
Arguments mkState {E} documents world removed flagged.

(** What a run was answered: the pages requested, each with what came
    back, and the statements sent, each with the refusal of the server if
    it refused. *)
Record Log := mkLog {
  pages : list (jsstring * (Error + Response));
  statements : list (query * option Error)
}.

Section Logged.
Variable E : Type.
Variable fetch : jsstring -> E -> E * (Error + Response).
Variable fault : query -> E -> E * option Error.

(** The world [E] with a log beside it: [fetch] and [fault] answer as
    they do, and the answer is written down. *)
Definition logged_fetch (url : jsstring) (w : E * Log)
  : (E * Log) * (Error + Response) :=
  let (e1, r) := fetch url (fst w) in
  ((e1, mkLog (pages (snd w) ++ [(url, r)]) (statements (snd w))), r).

Definition logged_fault (q : query) (w : E * Log)
  : (E * Log) * option Error :=
  let (e1, f) := fault q (fst w) in
  ((e1, mkLog (pages (snd w)) (statements (snd w) ++ [(q, f)])), f).
End Logged.

Arguments logged_fetch {E} fetch url w.
Arguments logged_fault {E} fault q w.

(** A state without its log. *)
Definition unlogged {E} (s : State (E * Log)) : State E :=
  mkState (documents s) (fst (world s)) (removed s) (flagged s).

(** The flag a page gives to a document: none when the request failed,
    when the response is not ok, and when no marker matches its text. *)
Definition flag_of (celex : jsstring) (r : Error + Response) : list Flag :=
  match r with
  | inr res =>
      if ok res && matched (isNoLongerInForce (res_text res))
      then [mkFlag celex (endOfValidity (isNoLongerInForce (res_text res)))]
      else []
  | inl _ => []
  end.

(** The documents of the [DELETE] statements the server did not refuse. *)
Definition deleted_of (l : list (query * option Error)) : list jsstring :=
  flat_map (fun qf =>
              match qf with
              | (DELETE_documents c, None) => [c]
              | _ => []
              end) l.

End Prune.

(* ================================================================== *)
(** * [app/api/ask/route.ts] and the page of the application *)
(* ================================================================== *)

Module AskRoute.
Import Rag.

(** The JSON body of a request, as far as [BodySchema] reads it: each field
    is absent or has the type the schema asks for.  A request whose body is
    not JSON is read as [{}]. *)
Record Body := mkBody {
  body_query : option jsstring;
  body_question : option jsstring;
  body_k : option Z
}.

Definition text_ok (s : option jsstring) : bool :=
  match s with Some m => (1 <=? len m)%Z | None => true end.

Definition present (s : option jsstring) : bool :=
  match s with Some _ => true | None => false end.

(** [z.object({ query: z.string().min(1).optional(),
      question: z.string().min(1).optional(),
      k: z.number().int().positive().max(50).optional() })
      .refine((d) => typeof d.query === 'string'
                     || typeof d.question === 'string')] *)
Definition valid (b : Body) : bool :=
  text_ok (body_query b) && text_ok (body_question b)
  && match body_k b with
     | Some k => ((0 <? k) && (k <=? 50))%Z
     | None => true
     end
  && (present (body_query b) || present (body_question b)).

(** What the response carries; the issues zod lists under [details] are
    left out. *)
Inductive Payload :=
| ResultJson (result : Answer)
| InvalidRequest
| ErrorJson (error : jsstring).

Record HttpResponse := mkHttp { http_status : Z; payload : Payload }.

Section Route.
Variable EMBED_MODEL : jsstring.
Variable CHAT_MODEL : jsstring.
Variable number_to_string : float -> jsstring.

Definition POST (json : Body) : io HttpResponse :=
  try_catch
    (if valid json then
       match body_query json, body_question json with
       | Some q, _ | None, Some q =>
           result <- answer EMBED_MODEL CHAT_MODEL number_to_string q ;;
           Ret (mkHttp 200 (ResultJson result))
       | None, None => Ret (mkHttp 400 InvalidRequest)
       end
     else Ret (mkHttp 400 InvalidRequest))
    (fun e =>
       Ret (mkHttp 500
              (ErrorJson (if truthy (message e) then message e
                          else lit "Unexpected error")))).
End Route.

End AskRoute.

Module Page.
Import Rag.

(** [body.split(':')[0]]: the text before the first colon. *)
Fixpoint before_colon (s : jsstring) : jsstring :=
  match s with
  | [] => []
  | c :: s' => if (c =? COLON)%N then [] else c :: before_colon s'
  end.

(** The address the page links a citation to. *)
Definition citation_href (citation : jsstring) : jsstring :=
  let cit := citation in
  let body :=
    if starts_with (lit "#") cit then slice cit 1 (len cit) else cit in
  let celex := before_colon body in
  Discovery.eurlexTxtUrl (lit "RO") celex.

(** The body [send] posts to [/api/ask], none when it returns at its
    guard [if (!question || pending) return]. *)
Definition send_body (input : jsstring) (pending : bool)
  : option AskRoute.Body :=
  let question := trim input in
  if negb (truthy question) || pending then None
  else Some (AskRoute.mkBody None (Some question) None).

End Page.

(* ================================================================== *)
(** * Vocabulary of the further properties *)
(* ================================================================== *)

Module Observations.
Import Seed.

(** A program none of whose calls is one of [P]. *)
Fixpoint never {A} (P : event -> bool) (m : io A) : Prop :=
  match m with
  | Ret _ | Throw _ => True
  | Vis c k => P (Called c) = false /\ forall r, never P (k r)
  end.

(** A program that returns only values of [Q]. *)
Fixpoint ensures {A} (Q : A -> Prop) (m : io A) : Prop :=
  match m with
  | Ret a => Q a
  | Throw _ => True
  | Vis c k => forall r, ensures Q (k r)
  end.

Definition is_fetch (e : event) : bool :=
  match e with Called c => match c with Fetch _ _ => true | _ => false end end.

Definition is_embedding (e : event) : bool :=
  match e with
  | Called c => match c with EmbeddingsCreate _ _ => true | _ => false end
  end.

Definition is_chat (e : event) : bool :=
  match e with
  | Called c =>
      match c with ChatCompletionsCreate _ _ _ _ => true | _ => false end
  end.

Definition is_release (e : event) : bool :=
  match e with Called c => match c with ClientRelease => true | _ => false end end.

Definition is_client_query (e : event) : bool :=
  match e with Called c => match c with ClientQuery _ => true | _ => false end end.

(** The requests of a trace: address and time limit, in order. *)
Fixpoint fetched (tr : list event) : list (jsstring * Z) :=
  match tr with
  | [] => []
  | Called c :: tr' =>
      match c with
      | Fetch url timeoutMs => (url, timeoutMs) :: fetched tr'
      | _ => fetched tr'
      end
  end.

(** The delays of a trace, in order. *)
Fixpoint sleeps (tr : list event) : list Z :=
  match tr with
  | [] => []
  | Called c :: tr' =>
      match c with
      | Sleep ms => ms :: sleeps tr'
      | _ => sleeps tr'
      end
  end.

(** The code units [s1] match the literals [w], case apart. *)
Definition spelt (w s1 : jsstring) : Prop :=
  Forall2 (fun c x => Ingest.same_letter c x = true) w s1.

(** A date as the status pages print it: dd/dd/dddd. *)
Definition is_date (d : jsstring) : bool :=
  match d with
  | [a1; a2; s1; b1; b2; s2; c1; c2; c3; c4] =>
      Ingest.is_digit a1 && Ingest.is_digit a2 && (s1 =? 47)%N
      && Ingest.is_digit b1 && Ingest.is_digit b2 && (s2 =? 47)%N
      && Ingest.is_digit c1 && Ingest.is_digit c2 && Ingest.is_digit c3
      && Ingest.is_digit c4
  | _ => false
  end.

(** What a request gave, and nothing for a call that is no request. *)
Definition answer_of {X} (c : call X) : Error + X -> list (Error + Response) :=
  match c in call T return Error + T -> list (Error + Response) with
  | Fetch _ _ => fun r => [r]
  | _ => fun _ => []
  end.

(** The handler [h] with a list beside its world, where what each request
    gave is written down, in order. *)
Definition recording {W} (h : handler W)
  : handler (W * list (Error + Response)) :=
  fun X c wl =>
    let (w1, r) := h X c (fst wl) in ((w1, snd wl ++ answer_of c r), r).

(** The error of the last request that threw, if one did. *)
Fixpoint last_error (l : list (Error + Response)) : option Error :=
  match l with
  | [] => None
  | r :: l' =>
      match last_error l' with
      | Some e => Some e
      | None => match r with inl e => Some e | inr _ => None end
      end
  end.

(** A response [fetchWithRetry] tries again on. *)
Definition retryable (res : Response) : bool :=
  ((status res =? 429) || (500 <=? status res) && (status res <=? 599))%Z.

(** No two headings in a row. *)
Fixpoint no_heading_pair (l : list Token) : Prop :=
  match l with
  | a :: (b :: _) as l' =>
      (Parse.is_heading a && Parse.is_heading b = false) /\ no_heading_pair l'
  | _ => True
  end.

(** The item of [items] to keep for the CELEX number [c]: the first one
    in Romanian, and the first one when none is in Romanian. *)
Definition chosen (c : jsstring) (items : list Ingest.DiscItem)
  : option Ingest.DiscItem :=
  match
    find (fun it => JS.eqb (Ingest.celex it) c
                    && JS.eqb (Ingest.lang it) (lit "ro")) items
  with
  | Some it => Some it
  | None => find (fun it => JS.eqb (Ingest.celex it) c) items
  end.

(** Every code unit of the class [P] in [s] is [x], and no two of the
    class follow one another; [inrun] says that the code unit before [s]
    is of the class. *)
Fixpoint singles_from (P : char -> bool) (x : char) (inrun : bool)
    (s : jsstring) : bool :=
  match s with
  | [] => true
  | c :: s' =>
      if P c then negb inrun && (c =? x)%N && singles_from P x true s'
      else singles_from P x false s'
  end.

Definition singles (P : char -> bool) (x : char) (s : jsstring) : bool :=
  singles_from P x false s.

(** No [k] code units of the class [P] in a row in [s]; [n] of the class
    come just before [s]. *)
Fixpoint runs_below_from (P : char -> bool) (k n : nat) (s : jsstring)
  : bool :=
  match s with
  | [] => true
  | c :: s' =>
      if P c then (S n <? k)%nat && runs_below_from P k (S n) s'
      else runs_below_from P k O s'
  end.

Definition runs_below (P : char -> bool) (k : nat) (s : jsstring) : bool :=
  runs_below_from P k O s.

(** No whitespace at either end. *)
Definition trimmed (s : jsstring) : bool :=
  match s with [] => true | c :: _ => negb (is_ws c) end
  && match rev s with [] => true | c :: _ => negb (is_ws c) end.

(** The form of a cleaned text: no no-break space; no tab, and no two
    spaces in a row; no carriage return and no form feed; no three line
    feeds in a row; no whitespace at either end. *)
Definition clean (s : jsstring) : bool :=
  forallb (fun c => negb (c =? NBSP)%N) s
  && singles is_sp_tab SP s
  && runs_below is_cr_ff 1 s
  && runs_below is_lf 3 s
  && trimmed s.

(** The form of a paragraph before it is split: every whitespace code
    unit is a space between two code units that are not whitespace. *)
Definition spaced (s : jsstring) : bool :=
  singles is_ws SP s && trimmed s.

(** What a selected element gives to the text of the page: its code
    units outside whitespace, after a bullet when it is a list item that
    has some. *)
Definition node_content (n : Parse.Node) : jsstring :=
  (if match Parse.tagName n with
      | Some name => JS.eqb name (lit "li")
      | None => false
      end
      && truthy (Spec.nw (Parse.node_text n))
   then [Parse.BULLET] else [])
    ++ Spec.nw (Parse.node_text n).

(** ** Passages and where they come from *)

(** The body of the [while] loop of the hard split, given the slice:
    the buffer is flushed when it has [minSize] code units or more and the
    slice does not fit, and the slice is appended to the buffer. *)
Definition addSlice (minSize maxSize : Z) (a : acc) (slice_ : jsstring) : acc :=
  let a1 :=
    if ((len (current a) + len slice_ + 1 >? maxSize)
        && (len (current a) >=? minSize))%Z
    then flush a else a in
  mkAcc (chunks a1)
    (current a1 ++ (if truthy (current a1) then [SP] else []) ++ slice_).

(** [p] is a piece of [s]: code units of [s] that follow one another,
    and at least one. *)
Definition piece (p s : jsstring) : Prop :=
  p <> [] /\ exists u v, s = u ++ p ++ v.

(** The texts of the heading tokens, and the sentences of the body
    tokens, of a sequence. *)
Definition heading_of (tokens : list Token) (h : jsstring) : Prop :=
  exists t, In t tokens /\ type t = Heading /\ text t = h.

Definition sentence_of (tokens : list Token) (s : jsstring) : Prop :=
  In s (sentences tokens).

(** The passage [c] is one heading and nothing else. *)
Definition heading_alone (isH : jsstring -> Prop) (c : jsstring) : Prop :=
  exists h, isH h /\ c = cleanText (h ++ [LF]).

(** The passage [c] is one sentence and nothing else, and the sentence
    has more than [maxSize] code units. *)
Definition sentence_alone (maxSize : Z) (isS : jsstring -> Prop)
    (c : jsstring) : Prop :=
  exists s, isS s /\ (maxSize < len s)%Z /\ c = cleanText s.

(** The passage [c] is a buffer of at most [minSize] code units followed
    by a piece, of at most [maxSize] code units, of a sentence of [maxSize]
    code units or more; so it has at most [minSize + maxSize] code units. *)
Definition ends_with_slice (minSize maxSize : Z) (isS : jsstring -> Prop)
    (c : jsstring) : Prop :=
  exists s b p,
    isS s /\ (maxSize <= len s)%Z /\ piece p s
    /\ (len b <= minSize)%Z /\ (len p <= maxSize)%Z
    /\ c = cleanText (b ++ p) /\ (len c <= minSize + maxSize)%Z.

(** What a passage can be. *)
Definition allowed (minSize maxSize : Z) (isH isS : jsstring -> Prop)
    (c : jsstring) : Prop :=
  (len c <= maxSize)%Z
  \/ heading_alone isH c
  \/ sentence_alone maxSize isS c
  \/ ends_with_slice minSize maxSize isS c.

(** What the buffer can be: nothing, or text of at most [maxSize] code
    units, after blank text; a heading after blank text; a sentence of more than [maxSize]
    code units; or at most [minSize] code units followed by a piece, of at
    most [maxSize] code units, of a sentence of [maxSize] or more. *)
Definition buffer_kind (minSize maxSize : Z) (isH isS : jsstring -> Prop)
    (cur : jsstring) : Prop :=
  (exists w core,
      cur = w ++ core /\ Spec.nw w = []
      /\ (core = [] \/ (len core <= maxSize)%Z))
  \/ (exists w h, isH h /\ Spec.nw w = [] /\ cur = w ++ h ++ [LF])
  \/ (exists s, isS s /\ (maxSize < len s)%Z /\ cur = s)
  \/ (exists s b p,
         isS s /\ (maxSize <= len s)%Z /\ piece p s
         /\ (len b <= minSize)%Z /\ (len p <= maxSize)%Z /\ cur = b ++ p).

(** [a] with the passages [cs] before its own. *)
Definition prepend (cs : list jsstring) (a : acc) : acc :=
  mkAcc (cs ++ chunks a) (current a).

(** A text that ends with a code unit that is not whitespace. *)
Definition ends_solid (s : jsstring) : Prop :=
  exists x c, s = x ++ [c] /\ is_ws c = false.

(** The buffer between two tokens, when no heading is blank: empty, or
    with a code unit that is not whitespace. *)
Definition tidy (a : acc) : Prop :=
  current a = [] \/ Spec.nonblank (current a).

(** The heading tokens with text that is not blank. *)
Definition headings (tokens : list Token) : list Token :=
  filter (fun t => Parse.is_heading t && truthy (trim (text t))) tokens.

End Observations.

(* ================================================================== *)
(** * Further fixtures *)
(* ================================================================== *)

Module Scenarios.

(** A world without network: every request fails, the timers work, and
    the rest is as in [Fixtures.quiet]. *)
Definition offline : handler unit :=
  fun X (c : call X) (w : unit) =>
    match c in call T return unit * (Error + T) with
    | Fetch _ _ => (tt, inl (new_Error (lit "fetch failed")))
    | c' => Fixtures.quiet [] _ c' w
    end.

(** A server that answers 503 to the first [n] requests it gets and 200
    with [html] from then on; the state counts the requests still to
    refuse. *)
Definition busy (html : jsstring) : handler nat :=
  fun X (c : call X) (n : nat) =>
    match c in call T return nat * (Error + T) with
    | Fetch _ _ =>
        match n with
        | S n' => (n', inr (mkResponse 503 []))
        | O => (O, inr (mkResponse 200 html))
        end
    | c' => (n, snd (Fixtures.quiet [] _ c' tt))
    end.

(** A service that refuses every embedding. *)
Definition no_embeddings : handler unit :=
  fun X (c : call X) (w : unit) =>
    match c in call T return unit * (Error + T) with
    | EmbeddingsCreate _ _ => (tt, inl (mkError (Some 429%Z) (lit "quota")))
    | c' => Fixtures.quiet [] _ c' w
    end.

(** The prune script on a store of two documents: the page of
    "31996L0001" says that the act is no longer in force, every other
    page is in force; no statement is refused. *)
Definition two_documents : list Row :=
  [ mkRow (lit "32016R0679") (lit "32016R0679") 0 (lit "a") (lit "[0.5]");
    mkRow (lit "31996L0001") (lit "31996L0001") 0 (lit "b") (lit "[0.5]");
    mkRow (lit "32016R0679") (lit "32016R0679") 1 (lit "c") (lit "[0.5]") ].

Definition status_pages (url : jsstring) (e : unit)
  : unit * (Error + Response) :=
  (tt, inr (mkResponse 200
              (if includes (lit "31996L0001") url
               then lit "<p>No longer in force</p>"
               else lit "<p>In force</p>"))).

Definition prune_two (dryRun : bool)
  : Prune.State unit * (Error + Z) :=
  Prune.prune (lit "EN") (fun s => inr s) (fun l => l) unit status_pages
    (fun _ e => (e, None)) (Prune.mkOptions dryRun None)
    (Prune.mkState two_documents tt 0 []).

End Scenarios.

(* ================================================================== *)
(** * Facts about strings *)
(* ================================================================== *)

Module TextFacts.
Import JS Seed Effects.
Import Spec.

Lemma nw_app a b : nw (a ++ b) = nw a ++ nw b.
Proof. apply filter_app. Qed.

Lemma nw_cons_ws {c s} : is_ws c = true -> nw (c :: s) = nw s.
Proof. intros H. unfold nw. cbn [filter]. now rewrite H. Qed.

Lemma nw_cons_nws {c s} : is_ws c = false -> nw (c :: s) = c :: nw s.
Proof. intros H. unfold nw. cbn [filter]. now rewrite H. Qed.

Lemma nw_rev s : nw (rev s) = rev (nw s).
Proof. apply filter_rev. Qed.

Lemma nw_nil_iff s : nw s = [] <-> Forall (fun c => is_ws c = true) s.
Proof.
  induction s as [|c s IH].
  - split; [constructor | reflexivity].
  - destruct (is_ws c) eqn:E.
    + rewrite (nw_cons_ws E), IH. split; [now constructor|now inversion 1].
    + rewrite (nw_cons_nws E). split; [discriminate|].
      inversion 1; congruence.
Qed.

Lemma nw_trimStart s : nw (trimStart s) = nw s.
Proof.
  induction s as [|c s IH]; simpl; [reflexivity|].
  destruct (is_ws c) eqn:E; [|reflexivity].
  now rewrite IH, (nw_cons_ws E).
Qed.

Lemma nw_trimEnd s : nw (trimEnd s) = nw s.
Proof.
  unfold trimEnd. now rewrite nw_rev, nw_trimStart, nw_rev, rev_involutive.
Qed.

Lemma nw_trim s : nw (trim s) = nw s.
Proof. unfold trim. now rewrite nw_trimEnd, nw_trimStart. Qed.

Lemma length_trimStart s : (length (trimStart s) <= length s)%nat.
Proof.
  induction s as [|c s IH]; simpl; [lia|]. destruct (is_ws c); simpl; lia.
Qed.

Lemma length_trim s : (length (trim s) <= length s)%nat.
Proof.
  unfold trim, trimEnd. rewrite length_rev.
  pose proof (length_trimStart (rev (trimStart s))) as H.
  rewrite length_rev in H. pose proof (length_trimStart s). lia.
Qed.

(** A trimmed string is empty exactly when the string is blank. *)
Lemma trimStart_nil_iff s : trimStart s = [] <-> nw s = [].
Proof.
  induction s as [|c s IH]; simpl; [unfold nw; simpl; tauto|].
  destruct (is_ws c) eqn:E.
  - now rewrite (nw_cons_ws E).
  - rewrite (nw_cons_nws E). split; discriminate.
Qed.

Lemma trim_nil_iff s : trim s = [] <-> nw s = [].
Proof.
  unfold trim, trimEnd. split.
  - intros H. apply (f_equal (@rev char)) in H. rewrite rev_involutive in H.
    simpl in H. apply trimStart_nil_iff in H.
    rewrite nw_rev, nw_trimStart in H.
    apply (f_equal (@rev char)) in H. now rewrite rev_involutive in H.
  - intros H. assert (E : trimStart s = []) by now apply trimStart_nil_iff.
    now rewrite E.
Qed.

(** ** Replacement of runs *)
Section RunFacts.
Variable P : char -> bool.
Variable k : nat.
Variable rep : jsstring.

(** A code unit outside the class closes the run before it: the
    replacement works on both sides of it separately. *)
Lemma replace_runs_from_split run a c x :
  P c = false ->
  replace_runs_from P k rep run (a ++ c :: x)
  = replace_runs_from P k rep run a ++ c :: replace_runs P k rep x.
Proof.
  intros Hc. revert run. induction a as [|d a IH]; intros run; simpl.
  - now rewrite Hc.
  - destruct (P d); [apply IH|].
    rewrite IH. now rewrite <- app_assoc.
Qed.

Lemma replace_runs_split a c x :
  P c = false ->
  replace_runs P k rep (a ++ c :: x)
  = replace_runs P k rep a ++ c :: replace_runs P k rep x.
Proof. apply replace_runs_from_split. Qed.

Hypothesis P_ws : forall c, P c = true -> is_ws c = true.
Hypothesis rep_ws : nw rep = [].

Lemma nw_emit run : nw run = [] -> nw (emit k rep run) = [].
Proof. unfold emit. now destruct (k <=? length run)%nat. Qed.

Lemma nw_replace_runs_from run s :
  nw run = [] -> nw (replace_runs_from P k rep run s) = nw s.
Proof.
  revert run. induction s as [|c s IH]; intros run Hrun; simpl.
  - now apply nw_emit.
  - destruct (P c) eqn:E.
    + rewrite IH.
      * now rewrite (nw_cons_ws (P_ws _ E)).
      * rewrite nw_app, Hrun. simpl. now rewrite (nw_cons_ws (P_ws _ E)).
    + rewrite nw_app, (nw_emit _ Hrun). simpl.
      destruct (is_ws c) eqn:W.
      * rewrite !(nw_cons_ws W). now apply IH.
      * rewrite !(nw_cons_nws W). f_equal. now apply IH.
Qed.

Lemma nw_replace_runs s : nw (replace_runs P k rep s) = nw s.
Proof. now apply nw_replace_runs_from. Qed.

Hypothesis rep_short : (length rep <= k)%nat.

Lemma length_emit run : (length (emit k rep run) <= length run)%nat.
Proof.
  unfold emit. destruct (k <=? length run)%nat eqn:E; [|lia].
  apply Nat.leb_le in E. lia.
Qed.

Lemma length_replace_runs_from run s :
  (length (replace_runs_from P k rep run s) <= length run + length s)%nat.
Proof.
  revert run. induction s as [|c s IH]; intros run; simpl.
  - pose proof (length_emit run). lia.
  - destruct (P c).
    + specialize (IH (run ++ [c])). rewrite length_app in IH. simpl in IH. lia.
    + rewrite length_app. simpl. pose proof (length_emit run).
      specialize (IH []). simpl in IH. lia.
Qed.

Lemma length_replace_runs s :
  (length (replace_runs P k rep s) <= length s)%nat.
Proof. apply (length_replace_runs_from [] s). Qed.
End RunFacts.

End TextFacts.

(* ================================================================== *)
(** * Facts about cleaning and sentence splitting *)
(* ================================================================== *)

Module CleaningFacts.
Import JS Seed Effects.
Import Spec TextFacts.

(** ** Trimming around a code unit that stays *)

Lemma trimStart_blank_app w s : nw w = [] -> trimStart (w ++ s) = trimStart s.
Proof.
  induction w as [|c w IH]; intros H; simpl; [reflexivity|].
  destruct (is_ws c) eqn:E.
  - apply IH. now rewrite (nw_cons_ws E) in H.
  - now rewrite (nw_cons_nws E) in H.
Qed.

Lemma trimStart_keeps x {c} :
  is_ws c = false ->
  exists g, forall t, trimStart (x ++ c :: t) = g ++ c :: t.
Proof.
  intros Hc. induction x as [|d x [g IH]]; simpl.
  - exists []. intros t. now rewrite Hc.
  - destruct (is_ws d).
    + now exists g.
    + exists (d :: x). reflexivity.
Qed.

Lemma trimEnd_keeps x {c} t :
  is_ws c = false -> trimEnd (x ++ c :: t) = x ++ trimEnd (c :: t).
Proof.
  intros Hc. unfold trimEnd.
  destruct (trimStart_keeps (rev t) Hc) as [g Hg].
  replace (rev (x ++ c :: t)) with (rev t ++ c :: rev x)
    by (rewrite rev_app_distr; simpl; now rewrite <- app_assoc).
  simpl. rewrite !Hg. rewrite !rev_app_distr. simpl.
  now rewrite rev_involutive, <- app_assoc.
Qed.

Lemma trimEnd_head {c} t :
  is_ws c = false -> exists u, trimEnd (c :: t) = c :: u.
Proof.
  intros Hc. unfold trimEnd. simpl.
  destruct (trimStart_keeps (rev t) Hc) as [g Hg].
  rewrite Hg, rev_app_distr. simpl. now eexists.
Qed.

Lemma trimEnd_blank_tail {c t} :
  is_ws c = false -> nw t = [] -> trimEnd (c :: t) = [c].
Proof.
  intros Hc Ht. unfold trimEnd. simpl.
  rewrite trimStart_blank_app by (now rewrite nw_rev, Ht).
  simpl. now rewrite Hc.
Qed.

(** A string that is not blank, cut at its first and at its last code unit
    that is not whitespace. *)
Lemma first_nonblank {s} :
  nonblank s -> exists u d v, s = u ++ d :: v /\ nw u = [] /\ is_ws d = false.
Proof.
  unfold nonblank. induction s as [|c s IH]; intros H; [now destruct H|].
  destruct (is_ws c) eqn:E.
  - rewrite (nw_cons_ws E) in H. destruct (IH H) as (u & d & v & -> & Hu & Hd).
    exists (c :: u), d, v. repeat split; trivial. now rewrite (nw_cons_ws E).
  - exists [], c, s. repeat split; trivial.
Qed.

Lemma last_nonblank {s} :
  nonblank s -> exists a c z, s = a ++ c :: z /\ is_ws c = false /\ nw z = [].
Proof.
  intros H. destruct (@first_nonblank (rev s)) as (u & d & v & E & Hu & Hd).
  - unfold nonblank in *. rewrite nw_rev. intros C. apply H.
    apply (f_equal (@rev char)) in C. now rewrite rev_involutive in C.
  - exists (rev v), d, (rev u). repeat split; trivial.
    + apply (f_equal (@rev char)) in E. rewrite rev_involutive in E.
      rewrite E, rev_app_distr. simpl. now rewrite <- app_assoc.
    + now rewrite nw_rev, Hu.
Qed.

(** ** The replacements of [cleanText] *)

Lemma cleanText_replaced s : cleanText s = trim (replaced s).
Proof. reflexivity. Qed.

Lemma is_sp_tab_ws c : is_sp_tab c = true -> is_ws c = true.
Proof.
  unfold is_sp_tab. rewrite orb_true_iff, !N.eqb_eq. now intros [-> | ->].
Qed.

Lemma is_cr_ff_ws c : is_cr_ff c = true -> is_ws c = true.
Proof.
  unfold is_cr_ff. rewrite orb_true_iff, !N.eqb_eq. now intros [-> | ->].
Qed.

Lemma is_lf_ws c : is_lf c = true -> is_ws c = true.
Proof. unfold is_lf. rewrite N.eqb_eq. now intros ->. Qed.

Lemma not_ws_class (P : char -> bool) c :
  (forall c, P c = true -> is_ws c = true) -> is_ws c = false -> P c = false.
Proof.
  intros HP Hc. destruct (P c) eqn:E; [|reflexivity].
  apply HP in E. congruence.
Qed.

Lemma nbsp_to_space_ws c : is_ws (nbsp_to_space c) = is_ws c.
Proof.
  unfold nbsp_to_space. destruct (c =? NBSP)%N eqn:E; [|reflexivity].
  apply N.eqb_eq in E. now subst.
Qed.

Lemma nbsp_to_space_keeps c : is_ws c = false -> nbsp_to_space c = c.
Proof.
  unfold nbsp_to_space. destruct (c =? NBSP)%N eqn:E; [|reflexivity].
  apply N.eqb_eq in E. now subst.
Qed.

Lemma nw_map_nbsp s : nw (map nbsp_to_space s) = nw s.
Proof.
  induction s as [|c s IH]; [reflexivity|]. cbn [map].
  destruct (is_ws c) eqn:E.
  - rewrite (nw_cons_ws E), nw_cons_ws; [exact IH|].
    now rewrite nbsp_to_space_ws.
  - rewrite (nbsp_to_space_keeps _ E), !(nw_cons_nws E). now f_equal.
Qed.

Lemma nw_replaced s : nw (replaced s) = nw s.
Proof.
  unfold replaced.
  rewrite (nw_replace_runs is_lf 3 [LF; LF] is_lf_ws) by reflexivity.
  rewrite (nw_replace_runs is_cr_ff 1 [LF] is_cr_ff_ws) by reflexivity.
  rewrite (nw_replace_runs is_sp_tab 1 [SP] is_sp_tab_ws) by reflexivity.
  apply nw_map_nbsp.
Qed.

(** [cleanText] changes whitespace only. *)
Lemma nw_cleanText s : nw (cleanText s) = nw s.
Proof. now rewrite cleanText_replaced, nw_trim, nw_replaced. Qed.

(** [cleanText] never lengthens. *)
Lemma length_cleanText s : (length (cleanText s) <= length s)%nat.
Proof.
  rewrite cleanText_replaced. pose proof (length_trim (replaced s)).
  unfold replaced in *.
  pose proof (length_replace_runs is_lf 3 [LF; LF]
                (le_S _ _ (le_n 2))
                (replace_runs is_cr_ff 1 [LF]
                   (replace_runs is_sp_tab 1 [SP] (map nbsp_to_space s)))).
  pose proof (length_replace_runs is_cr_ff 1 [LF] (le_n 1)
                (replace_runs is_sp_tab 1 [SP] (map nbsp_to_space s))).
  pose proof (length_replace_runs is_sp_tab 1 [SP] (le_n 1)
                (map nbsp_to_space s)).
  rewrite length_map in *. lia.
Qed.

Lemma cleanText_nil_iff s : cleanText s = [] <-> nw s = [].
Proof.
  rewrite cleanText_replaced, trim_nil_iff. now rewrite nw_replaced.
Qed.

(** A code unit that is not whitespace is kept, and the text on its two
    sides is replaced separately. *)
Lemma replaced_split a {c} x :
  is_ws c = false -> replaced (a ++ c :: x) = replaced a ++ c :: replaced x.
Proof.
  intros Hc. unfold replaced.
  rewrite map_app. cbn [map]. rewrite (nbsp_to_space_keeps _ Hc).
  rewrite (replace_runs_split _ _ _ _ _ _ (not_ws_class _ _ is_sp_tab_ws Hc)).
  rewrite (replace_runs_split _ _ _ _ _ _ (not_ws_class _ _ is_cr_ff_ws Hc)).
  now rewrite (replace_runs_split _ _ _ _ _ _ (not_ws_class _ _ is_lf_ws Hc)).
Qed.

(** Blank text in front of a string does not change what [cleanText]
    gives. *)
Lemma cleanText_blank_app w x : nw w = [] -> cleanText (w ++ x) = cleanText x.
Proof.
  intros Hw. destruct (list_eq_dec N.eq_dec (nw x) []) as [Hx | Hx].
  - transitivity (@nil char); [|symmetry]; apply cleanText_nil_iff; trivial.
    now rewrite nw_app, Hw, Hx.
  - destruct (first_nonblank Hx) as (u & d & v & -> & Hu & Hd).
    rewrite !cleanText_replaced, app_assoc, !(replaced_split _ _ Hd).
    unfold trim. rewrite !trimStart_blank_app; trivial.
    + now rewrite nw_replaced.
    + now rewrite nw_replaced, nw_app, Hw, Hu.
Qed.

(** The cleaned text of a string that is not blank begins whatever
    [cleanText] gives for the string followed by more text. *)
Lemma cleanText_begins h r :
  nonblank h -> begins_with (cleanText h) (cleanText (h ++ r)).
Proof.
  intros Hh. destruct (last_nonblank Hh) as (a & c & z & -> & Hc & Hz).
  rewrite <- app_assoc. cbn [app].
  rewrite !cleanText_replaced, !(replaced_split _ _ Hc). unfold trim.
  destruct (trimStart_keeps (replaced a) Hc) as [g Hg]. rewrite !Hg.
  rewrite !(trimEnd_keeps _ _ Hc).
  rewrite (trimEnd_blank_tail Hc) by now rewrite nw_replaced.
  destruct (trimEnd_head (replaced (z ++ r)) Hc) as [u ->].
  exists u. now rewrite <- app_assoc.
Qed.

(** ** [sentenceSplit] *)

Lemma ws_run_head c s n :
  ws_run (c :: s) = S n -> is_ws c = true /\ ws_run s = n.
Proof. simpl. destruct (is_ws c); [now injection 1|discriminate]. Qed.

Lemma sep_match_run prev s n : sep_match prev s = Some n -> ws_run s = n.
Proof.
  unfold sep_match. destruct prev as [p|]; [|discriminate].
  destruct (is_sentence_end p); [|discriminate].
  destruct (ws_run s) as [|m]; [discriminate|].
  destruct (skipn (S m) s) as [|u ?]; [discriminate|].
  destruct (is_capital u); [now injection 1|discriminate].
Qed.

Lemma nw_snoc part c s : nw (part ++ [c]) ++ nw s = nw part ++ nw (c :: s).
Proof.
  change (c :: s) with ([c] ++ s). now rewrite !nw_app, <- app_assoc.
Qed.

(** Splitting drops whitespace only. *)
Lemma nw_split_from s : forall skip prev part,
  (skip <= ws_run s)%nat ->
  nw (concat (split_from skip prev part s)) = nw part ++ nw s.
Proof.
  induction s as [|c s IH]; intros skip prev part Hskip.
  - cbn [split_from concat]. now rewrite nw_app.
  - cbn [split_from]. destruct skip as [|n].
    + destruct (sep_match prev (c :: s)) as [[|n]|] eqn:M.
      * rewrite IH by lia. apply nw_snoc.
      * apply sep_match_run, ws_run_head in M. destruct M as [Hc Hn].
        cbn [concat]. rewrite nw_app, IH by lia.
        now rewrite (nw_cons_ws Hc).
      * rewrite IH by lia. apply nw_snoc.
    + destruct (ws_run (c :: s)) as [|m] eqn:R; [lia|].
      apply ws_run_head in R. destruct R as [Hc Hm].
      rewrite IH by lia. now rewrite (nw_cons_ws Hc).
Qed.

Lemma nw_sentenceSplit p : nw (concat (sentenceSplit p)) = nw p.
Proof.
  unfold sentenceSplit.
  set (t := trim (replace_runs is_ws 1 [SP] p)).
  assert (Ht : nw t = nw p).
  { unfold t. rewrite nw_trim. now apply nw_replace_runs. }
  destruct t as [|c t'] eqn:E; cbn [truthy].
  - now rewrite <- Ht.
  - destruct (length (split_sentences (c :: t')) <=? 1)%nat.
    + simpl. now rewrite app_nil_r.
    + unfold split_sentences. rewrite nw_split_from by lia. exact Ht.
Qed.

(** ** Examples *)

Example cleanText_example :
  cleanText (lit "  a " ++ [TAB; NBSP] ++ lit "b" ++ [CR; LF; LF; FF] ++ lit "c  ")
  = lit "a b" ++ [LF; LF] ++ lit "c".
Proof. reflexivity. Qed.

(** "Art. 1" is not a boundary (a digit follows), ". [U+00CE]" is one, and
    "! nu" is not (a small letter follows). *)
Example sentenceSplit_example :
  sentenceSplit (lit "Art. 1 se aplica.  " ++ [0xCE%N]
                   ++ lit "ntreprinderile mici! nu. Da")
  = [ lit "Art. 1 se aplica.";
      [0xCE%N] ++ lit "ntreprinderile mici! nu.";
      lit "Da" ].
Proof. reflexivity. Qed.

Example sentenceSplit_blank : sentenceSplit [SP; LF; TAB] = [].
Proof. reflexivity. Qed.

End CleaningFacts.

(* ================================================================== *)
(** * The chunker: what every run is made of *)
(* ================================================================== *)

Module ChunkingFacts.
Import JS Seed Effects.
Import Spec TextFacts CleaningFacts.

Create HintDb chunker.
#[local] Hint Constructors moves : chunker.

Lemma moves_trans a x b y c : moves a x b -> moves b y c -> moves a (x ++ y) c.
Proof.
  induction 1; intros Hc; simpl; auto with chunker.
  rewrite <- app_assoc. auto with chunker.
Qed.

Lemma moves_append1 a y : moves a y (mkAcc (chunks a) (current a ++ y)).
Proof.
  rewrite <- (app_nil_r y) at 1. auto with chunker.
Qed.

(** Assigning [s] to an empty buffer appends [s]. *)
Lemma moves_assign a s : current a = [] -> moves a s (mkAcc (chunks a) s).
Proof.
  intros E. pose proof (moves_append1 a s) as H. now rewrite E in H.
Qed.

Lemma moves_flush_assign a s : moves a s (mkAcc (chunks (flush a)) s).
Proof. apply moves_flush. now apply (moves_assign (flush a)). Qed.

Lemma content_flush a : content (flush a) = content a.
Proof.
  unfold content, flush. cbn [chunks current].
  destruct (cleanText (current a)) as [|c r] eqn:E; cbn [truthy].
  - apply cleanText_nil_iff in E. now rewrite !nw_app, E.
  - rewrite concat_app. cbn [concat]. rewrite <- E, !app_nil_r.
    now rewrite !nw_app, nw_cleanText.
Qed.

Lemma moves_content a x b : moves a x b -> content b = content a ++ nw x.
Proof.
  induction 1.
  - now rewrite app_nil_r.
  - now rewrite IHmoves, content_flush.
  - rewrite IHmoves. unfold content. cbn [chunks current].
    now rewrite !nw_app, !app_assoc.
Qed.

Lemma no_empty_flush a : no_empty (chunks a) -> no_empty (chunks (flush a)).
Proof.
  unfold flush. cbn [chunks]. intros H.
  destruct (cleanText (current a)) eqn:E; cbn [truthy]; trivial.
  apply Forall_app. split; trivial. now repeat constructor.
Qed.

Lemma moves_no_empty a x b :
  moves a x b -> no_empty (chunks a) -> no_empty (chunks b).
Proof. induction 1; auto using no_empty_flush. Qed.

(** ** Slices *)

Lemma slice_inside s i j :
  (0 <= i <= j)%Z -> (j <= len s)%Z ->
  slice s i j = firstn (Z.to_nat (j - i)) (skipn (Z.to_nat i) s).
Proof.
  intros Hi Hj. unfold slice.
  destruct (i <? 0)%Z eqn:E1; [lia|]. destruct (j <? 0)%Z eqn:E2; [lia|].
  now rewrite !Z.min_l by lia.
Qed.

Lemma skipn_slice s i j :
  (0 <= i <= j)%Z -> (j <= len s)%Z ->
  skipn (Z.to_nat i) s = slice s i j ++ skipn (Z.to_nat j) s.
Proof.
  intros Hi Hj. rewrite slice_inside by assumption.
  replace (Z.to_nat j) with (Z.to_nat (j - i) + Z.to_nat i)%nat by lia.
  rewrite <- skipn_skipn. symmetry. apply firstn_skipn.
Qed.

(** A slice taken by the hard split has at most [maxSize] code units. *)
Lemma slice_short s start maxSize :
  (0 <= start)%Z -> (0 <= maxSize)%Z ->
  (len (slice s start (Z.min (start + maxSize) (len s))) <= maxSize)%Z.
Proof.
  intros H0 Hm. destruct (Z_lt_le_dec start (len s)) as [L | L].
  - rewrite slice_inside by lia. unfold len at 1. rewrite length_firstn. lia.
  - unfold slice. destruct (start <? 0)%Z eqn:E1; [lia|].
    destruct (Z.min (start + maxSize) (len s) <? 0)%Z eqn:E2;
      [apply Z.ltb_lt in E2; unfold len in *; lia|].
    unfold len at 1. rewrite length_firstn. unfold len in *. lia.
Qed.

Section Run.
Variables minSize maxSize : Z.

(** ** The hard-split loop *)

(** With a [maxSize] that is not positive the loop never ends: [start]
    does not advance. *)
Lemma hardSplit_diverges s :
  (maxSize <= 0)%Z ->
  forall fuel start a, (start < len s)%Z ->
    hardSplit minSize maxSize fuel s start a = None.
Proof.
  intros Hmax. induction fuel as [|fuel IH]; intros start a Hs; cbn [hardSplit];
    destruct (Z.ltb_spec start (len s)); try lia; trivial.
  apply IH. lia.
Qed.

(** With a positive [maxSize] it ends within one iteration per code unit
    left. *)
Lemma hardSplit_returns s :
  (0 < maxSize)%Z ->
  forall fuel start a, (0 <= start)%Z -> (len s - start < Z.of_nat fuel)%Z ->
    exists b, hardSplit minSize maxSize fuel s start a = Some b.
Proof.
  intros Hmax. induction fuel as [|fuel IH]; intros start a H0 Hf; cbn [hardSplit];
    destruct (Z.ltb_spec start (len s)); try lia; eauto.
  apply IH; lia.
Qed.

(** A loop that ends has appended the rest of the sentence. *)
Lemma hardSplit_moves s :
  forall fuel start a b, (0 <= start)%Z ->
    hardSplit minSize maxSize fuel s start a = Some b ->
    exists x, moves a x b /\ nw x = nw (skipn (Z.to_nat start) s).
Proof.
  induction fuel as [|fuel IH]; intros start a b H0; cbn [hardSplit];
    destruct (Z.ltb_spec start (len s)) as [E | E]; try discriminate.
  - injection 1 as <-. exists []. split; [constructor|].
    rewrite skipn_all2; [reflexivity | unfold len in E; lia].
  - destruct (Z_le_gt_dec maxSize 0) as [Hmax | Hmax].
    { intros H. rewrite hardSplit_diverges in H; [discriminate | lia | lia]. }
    set (end_ := Z.min (start + maxSize) (len s)).
    set (sl := slice s start end_).
    intros H. apply IH in H; [|lia]. destruct H as (x & Hx & Hnw).
    set (a1 := if ((len (current a) + len sl + 1 >? maxSize)
                   && (len (current a) >=? minSize))%Z
               then flush a else a) in *.
    exists (((if truthy (current a1) then [SP] else []) ++ sl) ++ x).
    split.
    + assert (Ha1 : moves a1 (((if truthy (current a1) then [SP] else [])
                                 ++ sl) ++ x) b)
        by (apply moves_append; exact Hx).
      unfold a1 in *.
      destruct ((len (current a) + len sl + 1 >? maxSize)
                && (len (current a) >=? minSize))%Z; auto with chunker.
    + rewrite (skipn_slice s start end_) by (unfold end_; lia).
      fold sl. rewrite !nw_app, Hnw.
      now destruct (truthy (current a1)).
  - injection 1 as <-. exists []. split; [constructor|].
    rewrite skipn_all2; [reflexivity | unfold len in E; lia].
Qed.

(** ** One sentence *)

Lemma addSentence_moves fuel a s b :
  addSentence minSize maxSize fuel a s = Some b ->
  exists x, moves a x b /\ nw x = nw s.
Proof.
  unfold addSentence.
  destruct (len _ <=? maxSize)%Z.
  { injection 1 as <-. destruct (len (current a) >? 0)%Z eqn:E.
    - exists ([SP] ++ s). split; [apply moves_append1 | reflexivity].
    - exists s. split; [|reflexivity]. apply moves_assign.
      destruct (current a); [reflexivity | cbn in E; lia]. }
  destruct (len (current a) >=? minSize)%Z.
  { injection 1 as <-. exists s. split; [apply moves_flush_assign | reflexivity]. }
  destruct (len s >=? maxSize)%Z.
  { intros H. apply hardSplit_moves in H; [|lia]. exact H. }
  injection 1 as <-. exists s. split; [|reflexivity].
  destruct (current a) eqn:E; cbn [truthy].
  - now apply moves_assign.
  - apply moves_flush_assign.
Qed.

Lemma addSentence_returns fuel a s :
  (0 < maxSize)%Z -> (length s < fuel)%nat ->
  exists b, addSentence minSize maxSize fuel a s = Some b.
Proof.
  intros Hmax Hf. unfold addSentence.
  destruct (len _ <=? maxSize)%Z; [eauto|].
  destruct (len (current a) >=? minSize)%Z; [eauto|].
  destruct (len s >=? maxSize)%Z; [|eauto].
  apply hardSplit_returns; unfold len; lia.
Qed.

(** ** Loops *)

Lemma ofold_moves {B} (f : acc -> B -> option acc) (g : B -> jsstring) l :
  (forall a t b, In t l -> f a t = Some b ->
                 exists x, moves a x b /\ nw x = nw (g t)) ->
  forall a b, ofold f l a = Some b ->
    exists x, moves a x b /\ nw x = nw (concat (map g l)).
Proof.
  induction l as [|t l IH]; intros Hf a b; cbn [ofold map concat].
  - injection 1 as <-. exists []. split; [constructor | reflexivity].
  - destruct (f a t) as [a1|] eqn:E; cbn [obind]; [|discriminate].
    intros H. apply IH in H; [|intros; eapply Hf; eauto; now right].
    destruct H as (x2 & H2 & N2).
    destruct (Hf a t a1 (or_introl eq_refl) E) as (x1 & H1 & N1).
    exists (x1 ++ x2). split; [eapply moves_trans; eauto|].
    now rewrite !nw_app, N1, N2.
Qed.

Lemma ofold_returns {A B} (f : A -> B -> option A) l :
  (forall a t, In t l -> exists b, f a t = Some b) ->
  forall a, exists b, ofold f l a = Some b.
Proof.
  induction l as [|t l IH]; intros Hf a; cbn [ofold]; [eauto|].
  destruct (Hf a t (or_introl eq_refl)) as [a1 ->]. cbn [obind].
  apply IH. intros; apply Hf; now right.
Qed.

(** ** One token *)

Lemma addToken_moves fuel a t b :
  addToken minSize maxSize fuel a t = Some b ->
  exists x, moves a x b /\ nw x = nw (text t).
Proof.
  unfold addToken. destruct (type t).
  - injection 1 as <-.
    set (a1 := if (len (trim (current a)) >? 0)%Z then flush a else a).
    exists ((if truthy (current a1) then [LF] else []) ++ text t ++ [LF]).
    split.
    + assert (moves a1 ((if truthy (current a1) then [LF] else [])
                          ++ text t ++ [LF])
                (mkAcc (chunks a1)
                   (current a1 ++ (if truthy (current a1) then [LF] else [])
                      ++ text t ++ [LF]))) by apply moves_append1.
      unfold a1 in *.
      destruct (len (trim (current a)) >? 0)%Z; auto with chunker.
    + rewrite !nw_app. destruct (truthy (current a1)); cbn; now rewrite app_nil_r.
  - intros H. apply (ofold_moves _ (fun s => s)) in H.
    + destruct H as (x & Hx & N). exists x. split; trivial.
      now rewrite N, map_id, nw_sentenceSplit.
    + intros. eapply addSentence_moves; eauto.
Qed.

Lemma max_bound n l : In n l -> (n <= fold_right Nat.max O l)%nat.
Proof.
  induction l as [|m l IH]; cbn [In fold_right]; [tauto|].
  intros [-> | H]; [lia | apply IH in H; lia].
Qed.

Lemma sentence_fuel tokens t s :
  In t tokens -> type t = Text -> In s (sentenceSplit (text t)) ->
  (length s < enough_fuel tokens)%nat.
Proof.
  intros Ht Hty Hs. unfold enough_fuel. apply Nat.lt_succ_r, max_bound.
  apply in_map. unfold sentences. apply in_flat_map. exists t.
  split; trivial. now rewrite Hty.
Qed.

Lemma addToken_returns fuel a t :
  (0 < maxSize)%Z ->
  (type t = Text ->
   forall s, In s (sentenceSplit (text t)) -> (length s < fuel)%nat) ->
  exists b, addToken minSize maxSize fuel a t = Some b.
Proof.
  intros Hmax Hf. unfold addToken. destruct (type t); [eauto|].
  apply ofold_returns. intros; apply addSentence_returns; auto.
Qed.

(** ** The whole run *)

(** For a positive [maxSize] the chunker returns. *)
Lemma buildChunks_returns tokens fuel :
  (0 < maxSize)%Z -> (enough_fuel tokens <= fuel)%nat ->
  exists chunks, buildChunks minSize maxSize fuel tokens = Some chunks.
Proof.
  intros Hmax Hf. unfold buildChunks.
  destruct (ofold_returns (addToken minSize maxSize fuel) tokens) with (a := mkAcc [] [])
    as [a ->]; cbn [obind]; [|eauto].
  intros a t Ht. apply addToken_returns; trivial.
  intros Hty s Hs. pose proof (sentence_fuel tokens t s Ht Hty Hs). lia.
Qed.

Lemma returns_total tokens :
  (0 < maxSize)%Z -> exists chunks, returns minSize maxSize tokens chunks.
Proof.
  intros Hmax.
  destruct (buildChunks_returns tokens (enough_fuel tokens) Hmax (le_n _))
    as [chunks H].
  exists chunks, (enough_fuel tokens). exact H.
Qed.

(** The token loop and the final flush, as moves. *)
Lemma buildChunks_moves fuel tokens chunks_ :
  buildChunks minSize maxSize fuel tokens = Some chunks_ ->
  exists x a,
    moves (mkAcc [] []) x a
    /\ nw x = nw (concat (map text tokens))
    /\ chunks a = chunks_
    /\ nw (current a) = [].
Proof.
  unfold buildChunks.
  destruct (ofold _ tokens _) as [a|] eqn:E; cbn [obind]; [|discriminate].
  injection 1 as <-.
  apply (ofold_moves _ text) in E;
    [|intros; eapply addToken_moves; eauto].
  destruct E as (x & Hx & N).
  destruct (trim (current a)) eqn:T; cbn [truthy].
  - exists x, a. repeat split; trivial. now apply trim_nil_iff.
  - exists x, (flush a). repeat split; trivial.
    rewrite <- (app_nil_r x). eapply moves_trans; eauto with chunker.
Qed.
End Run.

(** With [maxSize = 0] a body token whose text is not blank is never
    chunked: the hard split does not advance. *)
Example zero_maxSize_never_returns fuel :
  buildChunks 1 0 fuel [body_ "a"] = None.
Proof.
  assert (H : addToken 1 0 fuel (mkAcc [] []) (body_ "a") = None).
  { unfold addToken. cbn [type body_].
    change (sentenceSplit (text (mkToken Text (lit "a")))) with [lit "a"].
    cbn [ofold]. unfold addSentence.
    cbn -[hardSplit]. now rewrite hardSplit_diverges. }
  unfold buildChunks. cbn [ofold]. now rewrite H.
Qed.


End ChunkingFacts.

(* ================================================================== *)
(** * The chunker: sizes, headings, content *)
(* ================================================================== *)

Module ChunkerFacts.
Import JS Seed Effects.
Import Spec TextFacts CleaningFacts ChunkingFacts.

Local Open Scope Z_scope.

Lemma len_app a b : len (a ++ b) = len a + len b.
Proof. unfold len. rewrite length_app. lia. Qed.

Lemma len_cleanText s : len (cleanText s) <= len s.
Proof. unfold len. pose proof (length_cleanText s). lia. Qed.

Lemma nonblank_app_r a b : nonblank b -> nonblank (a ++ b).
Proof.
  unfold nonblank. rewrite nw_app. intros H E. apply app_eq_nil in E. tauto.
Qed.

Lemma nonblank_app_l a b : nonblank a -> nonblank (a ++ b).
Proof.
  unfold nonblank. rewrite nw_app. intros H E. apply app_eq_nil in E. tauto.
Qed.

(** ** Sizes *)

Section Sizes.
Variables minSize maxSize : Z.

#[local] Abbreviation within := (Spec.within maxSize).
#[local] Abbreviation fits := (Spec.fits maxSize).

(** A buffer that is within [maxSize] as a whole. *)
Lemma fits_whole l s : within l -> len s <= maxSize -> fits (mkAcc l s).
Proof. intros W L. split; trivial. exists [], s. auto. Qed.

Lemma fits_empty l : within l -> fits (mkAcc l []).
Proof. intros W. split; trivial. exists [], []. auto. Qed.

Lemma within_flush a : fits a -> within (chunks (flush a)).
Proof.
  intros [W (w & core & E & B & L)]. unfold flush. cbn [chunks].
  destruct (truthy (cleanText (current a))) eqn:T; trivial.
  apply Forall_app. split; trivial. repeat constructor.
  rewrite E, (cleanText_blank_app _ _ B) in *.
  destruct L as [-> | L]; [discriminate|].
  pose proof (len_cleanText core). lia.
Qed.

(** A sentence shorter than [maxSize] never reaches the hard split, and
    leaves a buffer that fits. *)
Lemma addSentence_fits fuel a s :
  fits a -> len s < maxSize ->
  exists b, addSentence minSize maxSize fuel a s = Some b /\ fits b.
Proof.
  intros F Hs. pose proof F as [W _]. unfold addSentence. cbv zeta.
  match goal with
  | |- context [?x <=? maxSize] => destruct (Z.leb_spec x maxSize) as [T | T]
  end.
  { eexists. split; [reflexivity|]. now apply fits_whole. }
  destruct (len (current a) >=? minSize).
  { eexists. split; [reflexivity|].
    apply fits_whole; [now apply within_flush | lia]. }
  destruct (Z.geb_spec (len s) maxSize); [lia|].
  eexists. split; [reflexivity|]. apply fits_whole; [|lia].
  destruct (truthy (current a)); trivial. now apply within_flush.
Qed.

Lemma sentences_fit fuel l : forall a,
  fits a -> (forall s, In s l -> len s < maxSize) ->
  exists b, ofold (addSentence minSize maxSize fuel) l a = Some b /\ fits b.
Proof.
  induction l as [|s l IH]; intros a F H; cbn [ofold]; [eauto|].
  destruct (addSentence_fits fuel a s F (H s (or_introl eq_refl)))
    as (b & -> & Fb).
  cbn [obind]. apply IH; trivial. intros; apply H; now right.
Qed.

(** A heading shorter than [maxSize]: what was in the buffer is flushed, or
    it is blank and stays in front of the heading. *)
Lemma heading_fits fuel a t :
  fits a -> type t = Heading -> len (text t) < maxSize ->
  exists b, addToken minSize maxSize fuel a t = Some b /\ fits b.
Proof.
  intros F Ty Lh. pose proof F as [W _]. unfold addToken. rewrite Ty.
  eexists. split; [reflexivity|].
  destruct (Z.gtb_spec (len (trim (current a))) 0) as [G | G].
  - cbn [flush chunks current truthy app]. apply fits_whole.
    + now apply within_flush.
    + rewrite len_app. cbn. lia.
  - split; [exact W|]. cbn [current].
    exists (current a ++ if truthy (current a) then [LF] else []),
           (text t ++ [LF]).
    repeat split.
    + now rewrite <- !app_assoc.
    + assert (B : nw (current a) = []).
      { apply trim_nil_iff. destruct (trim (current a));
          [reflexivity | cbn in G; lia]. }
      rewrite nw_app, B. now destruct (truthy (current a)).
    + right. rewrite len_app. cbn. lia.
Qed.

Lemma tokens_fit fuel tokens : forall a,
  fits a ->
  (forall t, In t tokens -> type t = Heading -> len (text t) < maxSize) ->
  (forall s, In s (sentences tokens) -> len s < maxSize) ->
  exists b, ofold (addToken minSize maxSize fuel) tokens a = Some b /\ fits b.
Proof.
  induction tokens as [|t tokens IH]; intros a F Hh Hs; cbn [ofold]; [eauto|].
  assert (St : exists b, addToken minSize maxSize fuel a t = Some b /\ fits b).
  { destruct (type t) eqn:Ty.
    - apply heading_fits; trivial. apply Hh; trivial. now left.
    - unfold addToken. rewrite Ty. apply sentences_fit; trivial.
      intros s Hin. apply Hs. unfold sentences. cbn [flat_map]. rewrite Ty.
      apply in_or_app. now left. }
  destruct St as (b & -> & Fb). cbn [obind]. apply IH; trivial.
  - intros; apply Hh; trivial. now right.
  - intros s Hin. apply Hs. unfold sentences in *. cbn [flat_map].
    apply in_or_app. now right.
Qed.

Lemma buildChunks_fits fuel tokens :
  (forall t, In t tokens -> type t = Heading -> len (text t) < maxSize) ->
  (forall s, In s (sentences tokens) -> len s < maxSize) ->
  exists chunks_,
    buildChunks minSize maxSize fuel tokens = Some chunks_ /\ within chunks_.
Proof.
  intros Hh Hs. unfold buildChunks.
  destruct (tokens_fit fuel tokens (mkAcc [] [])) as (a & -> & F); trivial.
  { apply fits_empty. constructor. }
  cbn [obind]. eexists. split; [reflexivity|].
  destruct (truthy (trim (current a))); [now apply within_flush | apply F].
Qed.
End Sizes.

(** ** Headings *)

Lemma carried_flush n h a : nonblank h -> carried n h a -> carried n h (flush a).
Proof.
  intros Hh [(c & E & B) | (L & w & r & Hw & E)]; left; unfold flush; cbn [chunks].
  - exists c. split; trivial. destruct (truthy _); trivial.
    rewrite nth_error_app1; trivial. apply nth_error_Some. congruence.
  - rewrite E, (cleanText_blank_app _ _ Hw).
    destruct (cleanText (h ++ r)) as [|d t] eqn:C.
    + apply cleanText_nil_iff in C. exfalso. revert C. now apply nonblank_app_l.
    + cbn [truthy]. exists (d :: t). split.
      * rewrite nth_error_app2 by lia. now rewrite L, Nat.sub_diag.
      * rewrite <- C. now apply cleanText_begins.
Qed.

Lemma carried_append n h a y :
  carried n h a -> carried n h (mkAcc (chunks a) (current a ++ y)).
Proof.
  intros [H | (L & w & r & Hw & E)]; [now left | right].
  cbn [chunks current]. split; trivial. exists w, (r ++ y).
  split; trivial. now rewrite E, <- !app_assoc.
Qed.

Lemma moves_carried n h a x b :
  nonblank h -> moves a x b -> carried n h a -> carried n h b.
Proof. intros Hh. induction 1; auto using carried_flush, carried_append. Qed.

(** Once the buffer is out, what was carried is a passage. *)
Lemma carried_out n h a :
  nonblank h -> carried n h a -> nw (current a) = [] ->
  exists c, nth_error (chunks a) n = Some c /\ begins_with (cleanText h) c.
Proof.
  intros Hh [H | (_ & w & r & _ & E)] B; trivial.
  exfalso. rewrite E in B. revert B. now apply nonblank_app_r, nonblank_app_l.
Qed.

Section Headings.
Variables minSize maxSize : Z.

(** A heading met with a buffer that is not blank: the buffer is flushed
    as a passage and the heading starts a fresh buffer. *)
Lemma heading_flushes fuel a h :
  nonblank (current a) ->
  cleanText (current a) <> []
  /\ addToken minSize maxSize fuel a (mkToken Heading h)
     = Some (mkAcc (chunks a ++ [cleanText (current a)]) (h ++ [LF])).
Proof.
  intros N.
  assert (C : cleanText (current a) <> []) by now rewrite cleanText_nil_iff.
  split; trivial. unfold addToken. cbn [type text].
  destruct (Z.gtb_spec (len (trim (current a))) 0) as [G | G].
  - unfold flush. destruct (cleanText (current a)); [tauto | reflexivity].
  - exfalso. apply N, trim_nil_iff.
    destruct (trim (current a)); [reflexivity | cbn in G; lia].
Qed.

(** A heading met with a blank buffer: nothing is flushed and the heading
    is appended to the buffer. *)
Lemma heading_keeps fuel a h :
  nw (current a) = [] ->
  addToken minSize maxSize fuel a (mkToken Heading h)
  = Some (mkAcc (chunks a)
            (current a ++ (if truthy (current a) then [LF] else [])
               ++ h ++ [LF])).
Proof.
  intros B. unfold addToken. cbn [type text].
  apply trim_nil_iff in B. now rewrite B.
Qed.

(** Heading, body, heading, body. *)
Lemma two_headings h1 b1 h2 b2 chunks_ :
  nonblank h1 -> nonblank h2 ->
  returns minSize maxSize
    [mkToken Heading h1; mkToken Text b1; mkToken Heading h2; mkToken Text b2]
    chunks_ ->
  exists c1 n c2,
    nth_error chunks_ 0 = Some c1 /\ begins_with (cleanText h1) c1
    /\ (1 <= n)%nat
    /\ nth_error chunks_ n = Some c2 /\ begins_with (cleanText h2) c2.
Proof.
  intros N1 N2 [fuel R]. unfold buildChunks in R. cbn [ofold] in R.
  rewrite heading_keeps in R by reflexivity. cbn [obind] in R.
  cbn [chunks current truthy app] in R.
  set (a1 := mkAcc [] (h1 ++ [LF])) in R.
  assert (C1 : carried 0 h1 a1) by (right; split; trivial; now exists [], [LF]).
  destruct (addToken minSize maxSize fuel a1 (mkToken Text b1)) as [a2|] eqn:E2;
    [|discriminate].
  cbn [obind] in R.
  apply addToken_moves in E2. destruct E2 as (x2 & M2 & _).
  apply (moves_carried 0 h1 _ _ _ N1 M2) in C1.
  (* the second heading *)
  assert (H3 : exists a3,
             addToken minSize maxSize fuel a2 (mkToken Heading h2) = Some a3
             /\ (1 <= length (chunks a3))%nat
             /\ carried (length (chunks a3)) h2 a3).
  { destruct (list_eq_dec N.eq_dec (nw (current a2)) []) as [B | B].
    - rewrite (heading_keeps fuel a2 h2 B). eexists. split; [reflexivity|].
      cbn [chunks current]. split.
      + destruct (carried_out 0 h1 a2 N1 C1 B) as (c & E & _).
        assert (0 < length (chunks a2))%nat; [|lia].
        apply nth_error_Some. congruence.
      + right. split; trivial. cbn [current].
        exists (current a2 ++ if truthy (current a2) then [LF] else []), [LF].
        split; [|now rewrite <- !app_assoc].
        rewrite nw_app, B. now destruct (truthy (current a2)).
    - destruct (heading_flushes fuel a2 h2 B) as [_ ->].
      eexists. split; [reflexivity|]. cbn [chunks current]. split.
      + rewrite length_app. cbn. lia.
      + right. split; trivial. now exists [], [LF]. }
  destruct H3 as (a3 & E3 & L3 & C3). rewrite E3 in R. cbn [obind] in R.
  apply addToken_moves in E3. destruct E3 as (x3 & M3 & _).
  apply (moves_carried 0 h1 _ _ _ N1 M3) in C1.
  (* the second body and the final flush *)
  destruct (addToken minSize maxSize fuel a3 (mkToken Text b2)) as [a4|] eqn:E4;
    [|discriminate].
  cbn [obind] in R.
  apply addToken_moves in E4. destruct E4 as (x4 & M4 & _).
  apply (moves_carried 0 h1 _ _ _ N1 M4) in C1.
  apply (moves_carried _ h2 _ _ _ N2 M4) in C3.
  assert (Out : exists a5, chunks a5 = chunks_ /\ nw (current a5) = []
                           /\ carried 0 h1 a5
                           /\ carried (length (chunks a3)) h2 a5).
  { destruct (trim (current a4)) eqn:T; cbn [truthy] in R;
      injection R as <-.
    - exists a4. repeat split; trivial. now apply trim_nil_iff.
    - exists (flush a4). repeat split; auto using carried_flush. }
  destruct Out as (a5 & <- & B5 & K1 & K2).
  destruct (carried_out _ _ _ N1 K1 B5) as (c1 & E1 & P1).
  destruct (carried_out _ _ _ N2 K2 B5) as (c2 & E2 & P2).
  now exists c1, (length (chunks a3)), c2.
Qed.
End Headings.

End ChunkerFacts.

(* ================================================================== *)
(** * The chunker: the properties *)
(* ================================================================== *)

Module ChunkerClaims.
Import JS Seed Effects.
Import Spec TextFacts CleaningFacts ChunkingFacts ChunkerFacts.

Local Open Scope Z_scope.

(** C1, refuted as stated.  A heading is put into the buffer without
    any check of its size: the single heading "Articolul 1" with
    [maxSize = 5] comes back as one passage of 11 code units, and no sentence
    is involved.  And two body tokens "ab" and "cdef" with [minSize = 3],
    [maxSize = 4] come back as the one passage "ab cdef" of 7 code units,
    although no sentence is longer than [maxSize]. *)
Lemma passage_longer_than_maxSize :
  (returns 2 5 [heading_ "Articolul 1"] [lit "Articolul 1"]
   /\ sentences [heading_ "Articolul 1"] = []
   /\ 5 < len (lit "Articolul 1"))
  /\ (returns 3 4 [body_ "ab"; body_ "cdef"] [lit "ab cdef"]
      /\ sentences [body_ "ab"; body_ "cdef"] = [lit "ab"; lit "cdef"]
      /\ 4 < len (lit "ab cdef")).
Proof.
  repeat split; try (exists 2%nat); reflexivity.
Qed.

(** The hard split appends its slices to a short buffer: with
    [minSize = 4] and [maxSize = 5] the text "Ab. Cdefgh" gives the passages
    "Ab. Cdefg" (9 code units) and "h". *)
Example hard_split_overshoots :
  returns 4 5 [body_ "Ab. Cdefgh"] [lit "Ab. Cdefg"; lit "h"].
Proof. exists 2%nat. reflexivity. Qed.

(** A long sentence met with a buffer of [minSize] or more is not split at
    all: with [minSize = 1] and [maxSize = 4] the texts "ab" and "cdefghij"
    give the passages "ab" and "cdefghij". *)
Example long_sentence_not_split :
  returns 1 4 [body_ "ab"; body_ "cdefghij"] [lit "ab"; lit "cdefghij"].
Proof. exists 0%nat. reflexivity. Qed.

(** The guard of the heading branch is [current.trim().length > 0]: a
    buffer that holds only whitespace is not flushed, and the heading is
    appended to it.  Such a buffer is left by a heading whose text is only
    whitespace, which is no token that [extractMainTokens] makes: there the
    sequence heading " ", body " ", heading "Articolul 2", body "Text."
    comes back as a single passage. *)
Example blank_buffer_is_not_flushed :
  addToken 800 1000 0 (mkAcc [] []) (heading_ " ") = Some (mkAcc [] [SP; LF])
  /\ addToken 800 1000 0 (mkAcc [] [SP; LF]) (heading_ "Articolul 2")
     = Some (mkAcc [] ([SP; LF] ++ [LF] ++ lit "Articolul 2" ++ [LF]))
  /\ exists chunks,
       returns 800 1000
         [heading_ " "; body_ " "; heading_ "Articolul 2"; body_ "Text."]
         chunks
       /\ length chunks = 1%nat.
Proof.
  repeat split.
  exists [lit "Articolul 2" ++ [LF; SP] ++ lit "Text."].
  split; [exists 0%nat|]; reflexivity.
Qed.

(** C3.  Whatever [buildChunks] returns, the passages put end to end hold
    exactly the non-whitespace code units of the token texts, in order, and
    no passage is the empty string; and it does return when [maxSize] is
    positive. *)
Theorem chunks_cover_content minSize maxSize tokens :
  (0 < maxSize -> exists chunks, returns minSize maxSize tokens chunks)
  /\ forall chunks,
      returns minSize maxSize tokens chunks ->
      nw (concat chunks) = nw (concat (map text tokens))
      /\ Forall (fun c => c <> []) chunks.
Proof.
  split; [apply returns_total|].
  intros chunks [fuel R].
  apply buildChunks_moves in R. destruct R as (x & a & M & N & <- & B).
  split.
  - pose proof (moves_content _ _ _ M) as C. unfold content in C.
    cbn [Seed.chunks current concat app] in C.
    rewrite nw_app, B, app_nil_r in C. now rewrite C, <- N.
  - apply (moves_no_empty _ _ _ M). constructor.
Qed.

Lemma chunks_cover_content_witness :
  exists chunks,
    returns 800 1000 [heading_ "Articolul 1"; body_ "Unu.  Doi."] chunks
    /\ nw (concat chunks) = lit "Articolul1Unu.Doi."
    /\ Forall (fun c => c <> []) chunks.
Proof.
  destruct (chunks_cover_content 800 1000
              [heading_ "Articolul 1"; body_ "Unu.  Doi."]) as [T P].
  destruct (T eq_refl) as [chunks R]. exists chunks. split; trivial.
  apply (P chunks R).
Defined.

End ChunkerClaims.

(* ================================================================== *)
(** * Runs of programs *)
(* ================================================================== *)

Module RunFacts.
Import JS Seed Effects.
Import Spec.

Lemma run_bind {W A B} (h : handler W) (m : io A) (f : A -> io B) w :
  run h (bind m f) w
  = let '(w1, tr1, r) := run h m w in
    match r with
    | inl e => (w1, tr1, inl e)
    | inr a => let '(w2, tr2, r2) := run h (f a) w1 in (w2, tr1 ++ tr2, r2)
    end.
Proof.
  revert w. induction m as [a | e | X c k IH]; intros w; cbn [bind run].
  - now destruct (run h (f a) w) as [[w2 tr2] r2].
  - reflexivity.
  - destruct (h X c w) as [w1 r]. rewrite IH.
    destruct (run h (k r) w1) as [[w2 tr2] [e | a]]; [reflexivity|].
    now destruct (run h (f a) w2) as [[w3 tr3] r3].
Qed.

Lemma run_perform {W X} (h : handler W) (c : call X) w :
  run h (perform c) w = (fst (h X c w), [Called c], snd (h X c w)).
Proof.
  unfold perform. cbn [run]. now destruct (h X c w) as [w1 [e | x]].
Qed.

Lemma run_try_catch {W A} (h : handler W) (m : io A) (g : Error -> io A) w :
  run h (try_catch m g) w
  = let '(w1, tr1, r) := run h m w in
    match r with
    | inr a => (w1, tr1, inr a)
    | inl e => let '(w2, tr2, r2) := run h (g e) w1 in (w2, tr1 ++ tr2, r2)
    end.
Proof.
  revert w. induction m as [a | e | X c k IH]; intros w; cbn [try_catch run].
  - reflexivity.
  - now destruct (run h (g e) w) as [[w2 tr2] r2].
  - destruct (h X c w) as [w1 r]. rewrite IH.
    destruct (run h (k r) w1) as [[w2 tr2] [e | a]]; [|reflexivity].
    now destruct (run h (g e) w2) as [[w3 tr3] r3].
Qed.

Lemma limits_app a b : limits (a ++ b) = limits a ++ limits b.
Proof.
  induction a as [|e a IH]; [reflexivity|]. cbn [app limits].
  destruct (limit_of e); now rewrite IH.
Qed.

End RunFacts.

(* ================================================================== *)
(** * [lib/rag.ts]: the properties *)
(* ================================================================== *)

Module RagClaims.
Import JS Seed Effects.
Import Spec RunFacts Rag.

(** ** Scores *)

(** C8.  [cosineScoreFromDistance(d)] is [1 - d] in the arithmetic of
    JavaScript numbers, for every distance and so for every [d >= 0]: the
    IEEE-754 binary64 difference of [1] and [d].  It is [1] at [0] and
    [0.8] at [0.2], as the tests of the repository assert. *)
Theorem cosineScoreFromDistance_spec :
  (forall d, cosineScoreFromDistance d = (1 - d)%float)
  /\ (forall d,
        Prim2SF (cosineScoreFromDistance d)
        = SF64sub (Prim2SF 1%float) (Prim2SF d))
  /\ cosineScoreFromDistance 0%float = 1%float
  /\ cosineScoreFromDistance 0.2%float = 0.8%float.
Proof.
  repeat split. intros d. unfold cosineScoreFromDistance. apply sub_spec.
Qed.

(** ** Citation tags *)

Lemma lit_inj a b : lit a = lit b -> a = b.
Proof.
  unfold lit. intros H.
  rewrite <- (string_of_list_ascii_of_string a),
          <- (string_of_list_ascii_of_string b).
  f_equal. revert H.
  generalize (list_ascii_of_string a) (list_ascii_of_string b).
  induction l as [|x l IH]; intros [|y l']; cbn [map]; try discriminate; trivial.
  intros [= H1 H2]. f_equal; [|now apply IH].
  rewrite <- (ascii_N_embedding x), <- (ascii_N_embedding y). now rewrite H1.
Qed.

Lemma to_int_proper z : Z.to_int z <> Decimal.Pos Decimal.Nil
                        /\ Z.to_int z <> Decimal.Neg Decimal.Nil.
Proof.
  destruct z as [|p|p]; cbn; split; try discriminate;
    intros [= H]; now apply DecimalPos.Unsigned.to_uint_nonnil in H.
Qed.

Lemma of_int_inj i j : of_int i = of_int j -> i = j.
Proof.
  unfold of_int. intros H. apply lit_inj in H.
  apply DecimalZ.to_int_inj.
  destruct (to_int_proper i) as [Pi Ni], (to_int_proper j) as [Pj Nj].
  pose proof (NilZero.isi _ Pi Ni) as Ei. rewrite H in Ei.
  rewrite (NilZero.isi _ Pj Nj) in Ei. now injection Ei.
Qed.

(** Printed integers hold digits and a minus sign: no colon. *)
Lemma digits_no_colon d : ~ In COLON (lit (NilEmpty.string_of_uint d)).
Proof.
  induction d; cbn; intros H; try tauto;
    destruct H as [H | H]; try discriminate; tauto.
Qed.

Lemma uint_no_colon d : ~ In COLON (lit (NilZero.string_of_uint d)).
Proof.
  destruct d; try apply digits_no_colon.
  cbn. intros H. destruct H as [H | H]; [discriminate | tauto].
Qed.

Lemma of_int_no_colon i : ~ In COLON (of_int i).
Proof.
  unfold of_int. destruct (Z.to_int i) as [d | d]; cbn [NilZero.string_of_int].
  - apply uint_no_colon.
  - change (lit (String "-" (NilZero.string_of_uint d)))
      with (45%N :: lit (NilZero.string_of_uint d)).
    intros [H | H]; [discriminate|]. revert H. apply uint_no_colon.
Qed.

(** Two texts cut at their last colon. *)
Lemma cut_at_last (c : char) a x b y :
  ~ In c x -> ~ In c y -> a ++ c :: x = b ++ c :: y -> a = b /\ x = y.
Proof.
  intros Hx Hy. revert b. induction a as [|d a IH]; intros [|e b] E; cbn in E.
  - injection E as <-. now split.
  - injection E as <- ->. exfalso. apply Hx, in_or_app. right. now left.
  - injection E as -> <-. exfalso. apply Hy, in_or_app. right. now left.
  - injection E as <- E. destruct (IH _ E) as [-> ->]. now split.
Qed.

(** C9.  The tag of a passage is "#", the document id, ":" and the index in
    decimal; two tags are equal only for the same id and the same index;
    and the tag of passage 3 of "32016R0679" is "#32016R0679:3". *)
Theorem formatCitation_injective :
  (forall id i, formatCitation id i = lit "#" ++ id ++ lit ":" ++ of_int i)
  /\ (forall id1 i1 id2 i2,
         formatCitation id1 i1 = formatCitation id2 i2 <->
         id1 = id2 /\ i1 = i2)
  /\ formatCitation (lit "32016R0679") 3 = lit "#32016R0679:3".
Proof.
  repeat split.
  - unfold formatCitation in H. cbn [lit list_ascii_of_string map app] in H.
    injection H as H. apply cut_at_last in H; try apply of_int_no_colon. tauto.
  - unfold formatCitation in H. cbn [lit list_ascii_of_string map app] in H.
    injection H as H. apply cut_at_last in H; try apply of_int_no_colon.
    destruct H as [_ H]. now apply of_int_inj.
  - now intros [-> ->].
Qed.

Lemma formatCitation_injective_witness :
  formatCitation (lit "32016R0679") 3 = formatCitation (lit "32016R0679") 3
  <-> lit "32016R0679" = lit "32016R0679" /\ 3%Z = 3%Z.
Proof.
  destruct formatCitation_injective as (_ & I & _). apply I.
Defined.

(** ** The context *)

Lemma join_cons sep (y : jsstring) l :
  l <> [] -> join sep (y :: l) = y ++ sep ++ join sep l.
Proof. now destruct l. Qed.

Lemma join_app sep (l1 : list jsstring) x l2 :
  join sep (l1 ++ x :: l2)
  = join sep l1 ++ (match l1 with [] => [] | _ => sep end)
      ++ x ++ (match l2 with [] => [] | _ => sep end) ++ join sep l2.
Proof.
  induction l1 as [|y l1 IH]; cbn [app].
  - destruct l2 as [|z l2]; [cbn; now rewrite !app_nil_r|].
    now rewrite join_cons.
  - rewrite join_cons by now destruct l1. rewrite IH.
    destruct l1 as [|z l1]; [reflexivity|].
    rewrite (join_cons sep y (z :: l1)) by discriminate.
    now rewrite <- !app_assoc.
Qed.

(** C10.  In the context every retrieved passage has its block, in the
    order of retrieval: the tag in brackets, a line feed, and the text of
    the passage; blocks are separated by an empty line.  The context of the
    two passages of the repository's test is the text shown. *)
Theorem buildContext_blocks :
  (forall before c after,
      buildContext (before ++ c :: after)
      = buildContext before
          ++ (match before with [] => [] | _ => [LF; LF] end)
          ++ (lit "[" ++ formatCitation (celex c) (chunk_id c) ++ lit "]"
                ++ [LF] ++ content c)
          ++ (match after with [] => [] | _ => [LF; LF] end)
          ++ buildContext after)
  /\ buildContext
       [ mkChunk (lit "32016R0679") (lit "32016R0679") 1 (lit "Lorem ipsum")
           0.9%float;
         mkChunk (lit "32016R0679") (lit "32016R0679") 2 (lit "Dolor sit amet")
           0.8%float ]
     = lit "[#32016R0679:1]" ++ [LF] ++ lit "Lorem ipsum" ++ [LF; LF]
         ++ lit "[#32016R0679:2]" ++ [LF] ++ lit "Dolor sit amet".
Proof.
  split; [|reflexivity].
  intros before c after. unfold buildContext. rewrite map_app. cbn [map].
  rewrite join_app. unfold context_block.
  now destruct before, after.
Qed.

End RagClaims.

(* ================================================================== *)
(** * The answerer: the properties *)
(* ================================================================== *)

Module AnswererClaims.
Import JS Seed Effects.
Import Spec RunFacts Rag ChatRoute Fixtures.

(** ** Comparison of scores *)

Lemma SFcompare_swap a b c :
  SFcompare a b = Some c -> SFcompare b a = Some (CompOpp c).
Proof.
  destruct a as [sa | sa | | sa ma ea], b as [sb | sb | | sb mb eb]; cbn;
    try discriminate; intros [= <-];
    try (destruct sa; reflexivity); try (destruct sb; reflexivity);
    try (destruct sa, sb; reflexivity).
  destruct sa, sb; cbn; try reflexivity; f_equal;
    rewrite (Z.compare_antisym ea eb); destruct (ea ?= eb)%Z; cbn; trivial;
    rewrite <- (Pos.compare_cont_antisym _ _ Eq); reflexivity.
Qed.

(** A score that is at least [y] is not below [y]. *)
Lemma at_least_not_below x y :
  PrimFloat.leb y x = true -> PrimFloat.ltb x y = false.
Proof.
  rewrite leb_spec, ltb_spec. unfold SFleb, SFltb.
  destruct (SFcompare (Prim2SF y) (Prim2SF x)) as [c|] eqn:E; [|discriminate].
  rewrite (SFcompare_swap _ _ _ E). now destruct c.
Qed.

Section Answerer.
Context {W : Type} (h : handler W).
Variables EMBED_MODEL CHAT_MODEL : jsstring.
Variable number_to_string : float -> jsstring.

#[local] Abbreviation retrieve_ := (retrieve EMBED_MODEL number_to_string).
#[local] Abbreviation answer_ :=
  (answer EMBED_MODEL CHAT_MODEL number_to_string).
#[local] Abbreviation generateAnswer_ :=
  (generateAnswer EMBED_MODEL CHAT_MODEL number_to_string).
#[local] Abbreviation chat_ q chunks :=
  (ChatCompletionsCreate CHAT_MODEL TEMPERATURE SYSTEM
     (user_message q (buildContext chunks))).

(** ** The run of [retrieve] *)

Lemma run_retrieve q k w :
  let k' := match k with Some k => k | None => 5%Z end in
  let embed := EmbeddingsCreate EMBED_MODEL q in
  run h (retrieve_ q k) w
  = match h _ embed w with
    | (w1, inl e) => (w1, [Called embed], inl e)
    | (w1, inr embedding) =>
        let query :=
          PoolQuery (SELECT_nearest (toPgVector number_to_string embedding) k') in
        match h _ query w1 with
        | (w2, inl e) => (w2, [Called embed; Called query], inl e)
        | (w2, inr rows) =>
            (w2, [Called embed; Called query],
             inr (map (fun r => mkChunk (hit_celex r) (hit_doc_id r)
                                  (hit_chunk_id r) (hit_content r)
                                  (hit_score r)) rows))
        end
    end.
Proof.
  intros k' embed. unfold retrieve, embedText, perform. cbn [bind run].
  fold embed. destruct (h _ embed w) as [w1 [e | embedding]]; cbn [bind run];
    [reflexivity|].
  fold k'.
  destruct (h _ (PoolQuery (SELECT_nearest
                              (toPgVector number_to_string embedding) k')) w1)
    as [w2 [e | rows]]; reflexivity.
Qed.

Lemma retrieve_limits q k w :
  let k' := match k with Some k => k | None => 5%Z end in
  let x := run h (retrieve_ q k) w in
  at_most_one k' (trace x) /\ (forall v, result x = inr v -> limits (trace x) = [k']).
Proof.
  intros k' x. unfold x. rewrite run_retrieve. fold k'.
  destruct (h _ (EmbeddingsCreate EMBED_MODEL q) w) as [w1 [e | embedding]].
  - split; [now right | discriminate].
  - cbv zeta.
    match goal with
    | |- context [h ?X ?c w1] => destruct (h X c w1) as [w2 [e | rows]]
    end; split; try (now left); try discriminate; reflexivity.
Qed.

(** What follows [retrieve] makes no similarity query of its own. *)
Lemma limits_after_retrieve {A} (rest : list RetrievedChunk -> io A) q k w :
  (forall chunks w', limits (trace (run h (rest chunks) w')) = []) ->
  let k' := match k with Some k => k | None => 5%Z end in
  let x := run h (bind (retrieve_ q k) rest) w in
  at_most_one k' (trace x) /\ (forall v, result x = inr v -> limits (trace x) = [k']).
Proof.
  intros Hrest k' x. unfold x. rewrite run_bind.
  destruct (retrieve_limits q k w) as [M V]. fold k' in M, V.
  destruct (run h (retrieve_ q k) w) as [[w1 tr1] [e | chunks]].
  - split; [exact M | discriminate].
  - specialize (Hrest chunks w1). specialize (V chunks eq_refl).
    destruct (run h (rest chunks) w1) as [[w2 tr2] r2].
    unfold at_most_one, trace, result in *. cbn [fst snd] in *.
    rewrite limits_app, V, Hrest. split; [now left | reflexivity].
Qed.

Lemma chat_no_limit {A} q chunks (f : option jsstring -> A) w :
  limits (trace (run h (bind (perform (chat_ q chunks)) (fun c => Ret (f c))) w))
  = [].
Proof.
  unfold perform. cbn [bind run].
  now destruct (h _ (chat_ q chunks) w) as [w1 [e | c]].
Qed.

(** ** The decision *)

Lemma insufficient_iff chunks :
  insufficient chunks = true <->
  chunks = []
  \/ exists top rest,
      chunks = top :: rest /\ PrimFloat.ltb (score top) 0.25%float = true.
Proof.
  destruct chunks as [|top rest]; cbn [insufficient].
  - split; [now left | reflexivity].
  - split.
    + intros H. right. now exists top, rest.
    + intros [H | (t & r & [= <- <-] & H)]; [discriminate | exact H].
Qed.

(** C4.  Given what [retrieve] returned, [answer] (and [generateAnswer]
    alike) abstains exactly when the list is empty or the score of its
    first chunk is below 0.25 (a score of 0.25 or more is not below): it
    then returns the fixed text with no citation and makes no further
    call.  Otherwise it makes one call to the chat model with the context
    built from the chunks, and when that call returns, it returns the
    trimmed reply with one citation entry per retrieved chunk, in
    order. *)
Theorem abstains_below_threshold q w w1 tr chunks :
  (insufficient chunks = true <->
   chunks = []
   \/ exists top rest,
       chunks = top :: rest /\ PrimFloat.ltb (score top) 0.25%float = true)
  /\ (forall top rest,
         chunks = top :: rest ->
       PrimFloat.leb 0.25%float (score top) = true ->
         insufficient chunks = false)
  /\ (run h (retrieve_ q (Some 5%Z)) w = (w1, tr, inr chunks) ->
      if insufficient chunks then
        run h (answer_ q) w = (w1, tr, inr (mkAnswer INSUFFICIENT [] []))
      else
        forall w2 reply,
          h _ (chat_ q chunks) w1 = (w2, inr reply) ->
          run h (answer_ q) w
          = (w2, tr ++ [Called (chat_ q chunks)],
             inr (mkAnswer (completion_text reply)
                    (map (fun c => formatCitation (celex c) (chunk_id c)) chunks)
                    (map (fun c => mkEntry
                                     (formatCitation (celex c) (chunk_id c))
                                     (score c)) chunks))))
  /\ (forall k,
         run h (retrieve_ q (Some (match k with Some k => k | None => 10%Z end))) w
         = (w1, tr, inr chunks) ->
         if insufficient chunks then
           run h (generateAnswer_ q k) w
           = (w1, tr, inr (mkGenerated INSUFFICIENT []))
         else
           forall w2 reply,
             h _ (chat_ q chunks) w1 = (w2, inr reply) ->
             run h (generateAnswer_ q k) w
             = (w2, tr ++ [Called (chat_ q chunks)],
                inr (mkGenerated (completion_text reply)
                       (map (fun c => mkSource (celex c) (chunk_id c) (score c))
                          chunks)))).
Proof.
  split; [apply insufficient_iff|]. split.
  { intros top rest -> E. cbn [insufficient]. now apply at_least_not_below. }
  split.
  - intros R. unfold answer. rewrite run_bind, R.
    destruct (insufficient chunks); [cbn [run]; now rewrite app_nil_r|].
    intros w2 reply Hc. unfold perform. cbn [bind run]. rewrite Hc.
    cbn [bind run]. now rewrite map_map.
  - intros k R. unfold generateAnswer. rewrite run_bind, R.
    destruct (insufficient chunks); [cbn [run]; now rewrite app_nil_r|].
    intros w2 reply Hc. unfold perform. cbn [bind run]. now rewrite Hc.
Qed.

(** ** The number of passages asked for *)

Lemma generateAnswer_limits q k w :
  let k' := match k with Some k => k | None => 10%Z end in
  let x := run h (generateAnswer_ q k) w in
  at_most_one k' (trace x)
  /\ forall v, result x = inr v -> limits (trace x) = [k'].
Proof.
  unfold generateAnswer.
  apply (limits_after_retrieve _ q
           (Some (match k with Some k => k | None => 10%Z end)) w).
  intros chunks w'. destruct (insufficient chunks); [reflexivity|].
  apply (chat_no_limit q chunks
           (fun c => mkGenerated (completion_text c)
                       (map (fun c => mkSource (celex c) (chunk_id c) (score c))
                          chunks))).
Qed.

(** C6, as amended.  In a run of [answer] the similarity query, when one
    is made, has the limit 5, and a run that returns has made exactly
    one: [answer] takes no [k].  [generateAnswer] asks for the [k] it is
    given and for 10 when it is given none, and so does the chat route,
    which passes [k ?? 10]. *)
Theorem requested_k q w :
  (let x := run h (answer_ q) w in
   at_most_one 5 (trace x)
   /\ forall v, result x = inr v -> limits (trace x) = [5%Z])
  /\ (forall k,
         let k' := match k with Some k => k | None => 10%Z end in
         let x := run h (generateAnswer_ q k) w in
         at_most_one k' (trace x)
         /\ forall v, result x = inr v -> limits (trace x) = [k'])
  /\ (forall zod_message json,
         let k' := match body_k json with Some k => k | None => 10%Z end in
         let x := run h (POST EMBED_MODEL CHAT_MODEL number_to_string
                           zod_message json) w in
         at_most_one k' (trace x)
         /\ forall a s,
             result x = inr (mkHttp 200 (AnswerJson a s)) ->
             limits (trace x) = [k']).
Proof.
  split; [|split; [intros k; apply generateAnswer_limits|]].
  - unfold answer. apply (limits_after_retrieve _ q (Some 5%Z) w).
    intros chunks w'. destruct (insufficient chunks); [reflexivity|].
    apply (chat_no_limit q chunks
             (fun c => mkAnswer (completion_text c)
                (map citation
                   (map (fun c => mkEntry (formatCitation (celex c) (chunk_id c))
                                    (score c)) chunks))
                (map (fun c => mkEntry (formatCitation (celex c) (chunk_id c))
                                 (score c)) chunks))).
  - intros zod_message json k' x. unfold x, POST. rewrite run_try_catch.
    destruct (body_message json) as [message|];
      [|cbn; split; [now right | discriminate]].
    destruct (valid json); [|cbn; split; [now right | discriminate]].
    rewrite run_bind.
    destruct (generateAnswer_limits message (Some k') w) as [M V].
    cbv zeta in M, V. fold k'.
    destruct (run h (generateAnswer_ message (Some k')) w)
      as [[w1 tr1] [e | g]]; unfold trace, result in *; cbn [fst snd run] in *;
      rewrite app_nil_r.
    + split; [exact M | discriminate].
    + split; [exact M | intros _ _ _; now apply (V g)].
Qed.
End Answerer.

Lemma abstains_below_threshold_witness :
  let rows :=
    [ mkHit (lit "32016R0679") (lit "32016R0679") 1 (lit "Lorem ipsum")
        0.25%float;
      mkHit (lit "32016R0679") (lit "32016R0679") 2 (lit "Dolor sit amet")
        0.125%float ] in
  let model := lit "text-embedding-3-small" in
  let question := lit "Ce este GDPR?" in
  result (run (scripted [] [] None)
            (answer model (lit "gpt-4o") print_number question) tt)
  = inr (mkAnswer INSUFFICIENT [] [])
  /\ result (run (scripted [] rows (Some (lit " Da [#32016R0679:1]. ")))
               (answer model (lit "gpt-4o") print_number question) tt)
     = inr (mkAnswer (lit "Da [#32016R0679:1].")
              [lit "#32016R0679:1"; lit "#32016R0679:2"]
              [mkEntry (lit "#32016R0679:1") 0.25%float;
               mkEntry (lit "#32016R0679:2") 0.125%float]).
Proof.
  intros rows model question. split.
  - destruct (abstains_below_threshold (scripted [] [] None) model (lit "gpt-4o")
                print_number question tt tt
                [Called (EmbeddingsCreate model question);
                 Called (PoolQuery (SELECT_nearest (lit "[0.5]") 5))]
                []) as (_ & _ & A & _).
    now rewrite (A eq_refl).
  - destruct (abstains_below_threshold
                (scripted [] rows (Some (lit " Da [#32016R0679:1]. ")))
                model (lit "gpt-4o") print_number question tt tt
                [Called (EmbeddingsCreate model question);
                 Called (PoolQuery (SELECT_nearest (lit "[0.5]") 5))]
                (map (fun r => mkChunk (hit_celex r) (hit_doc_id r)
                                 (hit_chunk_id r) (hit_content r) (hit_score r))
                   rows)) as (_ & _ & A & _).
    now rewrite (A eq_refl tt (Some (lit " Da [#32016R0679:1]. ")) eq_refl).
Defined.

(** C6, refuted as stated.  Called without [k], [generateAnswer] asks the
    store for 10 passages, and so does the chat route for a body that has
    no [k]. *)
Lemma generateAnswer_asks_for_10 :
  limits (trace (run (quiet [])
                   (generateAnswer (lit "text-embedding-3-small") (lit "gpt-4o")
                      print_number (lit "Ce este GDPR?") None) tt))
  = [10%Z]
  /\ limits (trace (run (quiet [])
                      (POST (lit "text-embedding-3-small") (lit "gpt-4o")
                         print_number (fun _ => [])
                         (mkBody (Some (lit "Ce este GDPR?")) None)) tt))
     = [10%Z].
Proof. split; reflexivity. Qed.

Lemma requested_k_witness :
  limits (trace (run (quiet [])
                   (answer (lit "text-embedding-3-small") (lit "gpt-4o")
                      print_number (lit "Ce este GDPR?")) tt))
  = [5%Z].
Proof.
  destruct (requested_k (quiet []) (lit "text-embedding-3-small")
              (lit "gpt-4o") print_number (lit "Ce este GDPR?") tt)
    as [[_ V] _].
  apply (V (mkAnswer INSUFFICIENT [] [])). reflexivity.
Defined.

End AnswererClaims.

(* ================================================================== *)
(** * Ingestion of one record: the properties *)
(* ================================================================== *)

Module IngestClaims.
Import JS Seed Effects.
Import Spec RunFacts Ingest Fixtures.

(** ** The status scan, on examples *)

Example marker_without_case :
  isNoLongerInForce
    (lit "<p>NU MAI ESTE " ++ [0xCE%N] ++ lit "N   VIGOARE</p>"
       ++ lit " Date of end of validity: 31/12/2020")
  = mkStatus true (Some (lit "31/12/2020")).
Proof. reflexivity. Qed.

Example marker_abrogata :
  isNoLongerInForce (lit "Act abrogat" ++ [0x103%N]) = mkStatus true None.
Proof. reflexivity. Qed.

Example no_marker :
  isNoLongerInForce (lit "<p>Regulamentul (UE) 2016/679</p>")
  = mkStatus false None.
Proof. reflexivity. Qed.

(** ** Programs that leave the database alone *)

Lemma db_free_bind {A B} (m : io A) (f : A -> io B) :
  db_free m -> (forall a, db_free (f a)) -> db_free (bind m f).
Proof.
  induction m as [a | e | X c k IH]; cbn [bind db_free]; intros Hm Hf; auto.
  destruct Hm as [Hc Hk]. split; auto.
Qed.

Lemma db_free_perform {X} (c : call X) : is_db c = false -> db_free (perform c).
Proof. intros H. split; trivial. now intros [e | x]. Qed.

Lemma db_free_fetchWithRetry_from n : forall i lastErr url baseDelayMs timeoutMs,
  db_free (fetchWithRetry_from n i lastErr url baseDelayMs timeoutMs).
Proof.
  induction n as [|n IH]; intros i lastErr url baseDelayMs timeoutMs;
    cbn [fetchWithRetry_from]; [exact I|].
  assert (Again : forall lastErr',
             db_free (bind (perform Jitter) (fun j =>
                      bind (perform (Sleep (baseDelayMs * 2 ^ i + j))) (fun _ =>
                      fetchWithRetry_from n (i + 1) lastErr' url baseDelayMs
                        timeoutMs)))).
  { intros lastErr'. apply db_free_bind; [now apply db_free_perform|].
    intros j. apply db_free_bind; [now apply db_free_perform|]. intros _. apply IH. }
  split; [reflexivity|]. intros [err | res]; [apply Again|].
  destruct ((status res >=? 200) && (status res <? 300))%Z; [exact I|].
  destruct ((status res =? 429)
            || (status res >=? 500) && (status res <=? 599))%Z;
    [apply Again | exact I].
Qed.

Lemma db_free_fetch_html SEED_MOCK file item :
  db_free (fetch_html SEED_MOCK file item).
Proof.
  unfold fetch_html. destruct SEED_MOCK; [now apply db_free_perform|].
  apply db_free_bind; [apply db_free_fetchWithRetry_from|]. intros res.
  apply db_free_bind.
  - destruct (negb (ok res) && includes (lit "/RO/") (urlTxt item));
      [apply db_free_fetchWithRetry_from | exact I].
  - intros res'. now destruct (negb (ok res')).
Qed.

Section World.
Context {E : Type}.
Variable nearest : list Row -> jsstring -> Z -> list Hit.
Variable outside : handler E.
Variable fault : statement -> E -> E * option Error.

#[local] Abbreviation h := (handle nearest outside fault).

Lemma handle_outside {X} (c : call X) db e :
  is_db c = false ->
  h X c (db, e) = ((db, fst (outside X c e)), snd (outside X c e)).
Proof.
  intros H. destruct c; try discriminate; cbn; now destruct (outside _ _ e).
Qed.

(** A program without database calls leaves the database as it is, and
    its trace has no database call. *)
Lemma run_db_free {A} (m : io A) : db_free m -> forall db e,
  fst (fst (fst (run h m (db, e)))) = db
  /\ Forall (fun ev => db_event ev = false) (trace (run h m (db, e))).
Proof.
  induction m as [a | err | X c k IH]; cbn [db_free run]; intros Hm db e.
  - split; [reflexivity | constructor].
  - split; [reflexivity | constructor].
  - destruct Hm as [Hc Hk]. rewrite (handle_outside c db e Hc).
    destruct (outside X c e) as [e1 r]. cbn [fst snd].
    destruct (IH r (Hk r) db e1) as [D T].
    destruct (run h (k r) (db, e1)) as [[w2 tr] res].
    unfold trace in *. cbn [fst snd] in *. split; trivial. now constructor.
Qed.

Variable SEED_MOCK : bool.
Variable SEED_MOCK_HTML_FILE : jsstring.
Variable EMBED_MODEL : jsstring.
Variable mock_embedding : jsstring -> list float.
Variable number_to_string : float -> jsstring.
Variable extractMainTokens : jsstring -> list Token.

(** C7.  When the markup that was fetched matches a status marker,
    [processItem] returns a report with a chunk count of zero (it does not
    throw); after the fetch it only reads the clock, so the run has no
    call to the database and leaves the database as it was. *)
Theorem no_longer_in_force_is_skipped item noEmbed db e
    t0 e0 w1 tr html tFetch e2 :
  outside _ DateNow e = (e0, inr t0) ->
  run h (fetch_html SEED_MOCK SEED_MOCK_HTML_FILE item) (db, e0)
  = (w1, tr, inr html) ->
  outside _ DateNow (snd w1) = (e2, inr tFetch) ->
  matched (isNoLongerInForce html) = true ->
  run h (processItem SEED_MOCK SEED_MOCK_HTML_FILE EMBED_MODEL mock_embedding
           number_to_string extractMainTokens item noEmbed) (db, e)
  = ((db, e2), Called DateNow :: tr ++ [Called DateNow],
     inr (mkReport (celex item) 0 0
            (mkDurations (tFetch - t0) 0 0 (tFetch - t0))))
  /\ Forall (fun ev => db_event ev = false)
       (Called DateNow :: tr ++ [Called DateNow]).
Proof.
  intros H0 Hf H1 Hm.
  destruct (run_db_free _ (db_free_fetch_html SEED_MOCK SEED_MOCK_HTML_FILE item)
              db e0) as [D T].
  rewrite Hf in D, T. unfold trace in T. cbn [fst snd] in D, T.
  destruct w1 as [db1 e1]. cbn [fst snd] in D, H1. subst db1.
  split.
  - unfold processItem. rewrite run_bind, run_perform.
    rewrite (handle_outside DateNow db e eq_refl), H0. cbn [fst snd].
    rewrite run_bind, Hf, run_bind, run_perform.
    rewrite (handle_outside DateNow db e1 eq_refl), H1. cbn [fst snd].
    rewrite Hm. cbn [run app]. now rewrite ?app_nil_r.
  - constructor; [reflexivity|]. apply Forall_app. split; trivial.
    now repeat constructor.
Qed.
End World.

Lemma no_longer_in_force_is_skipped_witness :
  let html := lit "<p>Status: No longer  in force</p>" in
  run (db_world html)
    (processItem true (lit "tests/fixtures/sample_eurlex.html")
       (lit "text-embedding-3-small") (fun _ => [0.5%float]) print_number
       (fun _ => []) (item "32019R1234") false)
    (mkDb stored None, tt)
  = ((mkDb stored None, tt),
     [Called DateNow;
      Called (ReadFileSync (lit "tests/fixtures/sample_eurlex.html"));
      Called DateNow],
     inr (mkReport (lit "32019R1234") 0 0 (mkDurations 0 0 0 0))).
Proof.
  intros html.
  apply (no_longer_in_force_is_skipped nothing (quiet html) no_fault true
           (lit "tests/fixtures/sample_eurlex.html")
           (lit "text-embedding-3-small") (fun _ => [0.5%float]) print_number
           (fun _ => []) (item "32019R1234") false (mkDb stored None) tt
           0%Z tt (mkDb stored None, tt)
           [Called (ReadFileSync (lit "tests/fixtures/sample_eurlex.html"))]
           html 0%Z tt); reflexivity.
Defined.

(** The chunker call of [processItem] returns: the branch of [processItem]
    for a chunker that does not return is never taken. *)
Lemma processItem_chunker_returns tokens :
  exists chunks, buildChunks 800 1000 (enough_fuel tokens) tokens = Some chunks.
Proof. now apply ChunkingFacts.buildChunks_returns. Qed.

(** ** The upsert *)

(** C5, on the code.  The document "32019R1234" is stored with the three
    passages 0, 1, 2 and is ingested again with two passages: the upsert
    succeeds, rows 0 and 1 are overwritten, and row 2 of the earlier
    ingestion stays.  The comment of [upsertDocument] announces a replace
    strategy that deletes the existing rows of the document first; no
    [DELETE] is issued. *)
Theorem upsert_leaves_stale_rows :
  let x :=
    run (db_world [])
      (upsertDocument false (lit "text-embedding-3-small") (fun _ => [0.5%float])
         print_number (lit "32019R1234") [lit "new 0"; lit "new 1"])
      (mkDb stored None, tt) in
  result x = inr tt
  /\ fst (fst (fst x))
     = mkDb
         [ mkRow (lit "32019R1234") (lit "32019R1234") 0 (lit "new 0") (lit "[0.5]");
           mkRow (lit "32019R1234") (lit "32019R1234") 1 (lit "new 1") (lit "[0.5]");
           mkRow (lit "32019R1234") (lit "32019R1234") 2 (lit "old 2") (lit "[0.5]") ]
         None
  /\ indices (lit "32019R1234") (table (fst (fst (fst x)))) = [0; 1; 2]%Z
  /\ map (fun e => match e with
                   | Called c =>
                       match c with
                       | ClientQuery (INSERT_documents _ _ i _ _) => Some i
                       | _ => None
                       end
                   end)
       (filter db_event (trace x))
     = [None; None; Some 0; Some 1; None; None]%Z.
Proof. repeat split. Qed.

End IngestClaims.

(* ================================================================== *)
(** * The upsert, in general *)
(* ================================================================== *)

Module UpsertFacts.
Import JS Seed Effects.
Import Spec RunFacts Ingest IngestClaims.

Local Open Scope Z_scope.

Lemma eqb_eq a b : JS.eqb a b = true <-> a = b.
Proof.
  revert b. induction a as [|x a IH]; intros [|y b]; cbn; try (split; discriminate).
  - tauto.
  - rewrite andb_true_iff, N.eqb_eq, IH. split; [now intros [-> ->] | now intros [= -> ->]].
Qed.

Lemma eqb_refl a : JS.eqb a a = true.
Proof. now apply eqb_eq. Qed.

(** ** Inserts into a table *)

Lemma insert_fresh r t :
  (forall r', In r' t -> same_key (row_celex r) (row_chunk_id r) r' = false) ->
  insert_on_conflict r t = t ++ [r].
Proof.
  induction t as [|r' t IH]; intros H; cbn [insert_on_conflict app]; trivial.
  rewrite (H r' (or_introl eq_refl)). f_equal. apply IH.
  intros; apply H; now right.
Qed.

(** A row with another key is neither lost nor changed by an insert. *)
Lemma insert_keeps r t r' :
  same_key (row_celex r) (row_chunk_id r) r' = false ->
  In r' t -> In r' (insert_on_conflict r t).
Proof.
  intros K. induction t as [|x t IH]; cbn [insert_on_conflict In]; [tauto|].
  intros [-> | H].
  - rewrite K. now left.
  - destruct (same_key _ _ x); [now right | right; auto].
Qed.

Lemma inserted_keeps celex rows : forall i t r',
  In r' t ->
  (row_celex r' = celex -> row_chunk_id r' < i
                           \/ i + Z.of_nat (length rows) <= row_chunk_id r') ->
  In r' (inserted celex i rows t).
Proof.
  induction rows as [|[chunk embedding] rows IH]; intros i t r' Hin Hk;
    cbn [inserted]; trivial.
  apply IH.
  - apply insert_keeps; trivial. unfold same_key. cbn [row_celex row_chunk_id].
    destruct (JS.eqb (row_celex r') celex) eqn:E; [|reflexivity].
    apply eqb_eq in E. specialize (Hk E). cbn [length] in Hk.
    cbn [andb]. apply Z.eqb_neq. lia.
  - intros E. specialize (Hk E). cbn [length] in Hk. lia.
Qed.

Lemma rows_of_app celex a b : rows_of celex (a ++ b) = rows_of celex a ++ rows_of celex b.
Proof. apply filter_app. Qed.

(** Inserts for a document that has no row with an index from [i] on are
    appended in order. *)
Lemma inserted_fresh celex rows : forall i t,
  (forall r, In r t -> row_celex r = celex -> row_chunk_id r < i) ->
  inserted celex i rows t = t ++ rows_from celex i rows.
Proof.
  induction rows as [|[chunk embedding] rows IH]; intros i t H;
    cbn [inserted rows_from]; [now rewrite app_nil_r|].
  rewrite insert_fresh.
  - rewrite IH; [now rewrite <- app_assoc|].
    intros r Hin E. apply in_app_or in Hin. destruct Hin as [Hin | [<- | []]].
    + specialize (H r Hin E). lia.
    + cbn. lia.
  - intros r' Hin. unfold same_key. cbn [row_celex row_chunk_id].
    destruct (JS.eqb (row_celex r') celex) eqn:E; [|reflexivity].
    apply eqb_eq in E. specialize (H r' Hin E). cbn [andb]. apply Z.eqb_neq. lia.
Qed.

Lemma rows_of_rows_from celex rows : forall i,
  rows_of celex (rows_from celex i rows) = rows_from celex i rows.
Proof.
  induction rows as [|[chunk embedding] rows IH]; intros i; [reflexivity|].
  cbn [rows_from]. unfold rows_of in *. cbn [filter row_celex].
  now rewrite eqb_refl, IH.
Qed.

Lemma indices_rows_from celex rows : forall i,
  map row_chunk_id (rows_from celex i rows)
  = map (fun n => i + Z.of_nat n) (seq 0 (length rows)).
Proof.
  induction rows as [|[chunk embedding] rows IH]; intros i; [reflexivity|].
  cbn [rows_from map length seq row_chunk_id]. f_equal; [lia|].
  rewrite IH, <- seq_shift, map_map. apply map_ext. intros; lia.
Qed.

(** ** The run *)

Lemma db_free_try_catch {A} (m : io A) (g : Error -> io A) :
  db_free m -> (forall e, db_free (g e)) -> db_free (try_catch m g).
Proof.
  induction m as [a | e | X c k IH]; cbn [try_catch db_free]; intros Hm Hg; auto.
  destruct Hm as [Hc Hk]. split; auto.
Qed.

Lemma run_try_finally {W A} (h : handler W) (m : io A) (f : io unit) w :
  run h (try_finally m f) w
  = let '(w1, tr1, r) := run h m w in
    let '(w2, tr2, r2) := run h f w1 in
    (w2, tr1 ++ tr2,
     match r2 with
     | inl e => inl e
     | inr _ => r
     end).
Proof.
  unfold try_finally. rewrite run_bind, run_try_catch, run_bind.
  destruct (run h m w) as [[w1 tr1] [e | a]]; cbn [run]; rewrite ?app_nil_r;
    rewrite run_bind;
    destruct (run h f w1) as [[w2 tr2] [e2 | []]]; cbn [run];
    now rewrite ?app_nil_r.
Qed.

Section World.
Context {E : Type}.
Variable nearest : list Row -> jsstring -> Z -> list Hit.
Variable outside : handler E.
Variable fault : statement -> E -> E * option Error.
Variable SEED_MOCK : bool.
Variable EMBED_MODEL : jsstring.
Variable mock_embedding : jsstring -> list float.
Variable number_to_string : float -> jsstring.

#[local] Abbreviation h := (handle nearest outside fault).
#[local] Abbreviation embed_ :=
  (embed SEED_MOCK EMBED_MODEL mock_embedding).
#[local] Abbreviation embed_all_ :=
  (embed_all SEED_MOCK EMBED_MODEL mock_embedding number_to_string).
#[local] Abbreviation upsertDocument_ :=
  (upsertDocument SEED_MOCK EMBED_MODEL mock_embedding number_to_string).

(** Taking a client from the pool and giving it back do not touch the
    table. *)
Lemma handle_connect d e :
  h _ PoolConnect (d, e)
  = ((d, fst (outside _ PoolConnect e)), snd (outside _ PoolConnect e)).
Proof. cbn. now destruct (outside _ PoolConnect e). Qed.

Lemma handle_release d e :
  h _ ClientRelease (d, e)
  = ((d, fst (outside _ ClientRelease e)), snd (outside _ ClientRelease e)).
Proof. cbn. now destruct (outside _ ClientRelease e). Qed.

(** A statement on the client: a fault, or its effect on the database. *)
Lemma run_statement q d e :
  run h (perform (ClientQuery q)) (d, e)
  = match fault q e with
    | (e1, Some err) => ((d, e1), [Called (ClientQuery q)], inl err)
    | (e1, None) =>
        ((fst (client_exec nearest q d), e1), [Called (ClientQuery q)],
         inr (snd (client_exec nearest q d)))
    end.
Proof.
  rewrite run_perform. cbn [handle]. unfold on_db. cbn [fst snd].
  destruct (fault q e) as [e1 [err | ]]; [reflexivity|].
  now destruct (client_exec nearest q d).
Qed.

Lemma db_free_embed text : db_free (embed_ text).
Proof.
  unfold embed. destruct SEED_MOCK; [exact I|].
  apply db_free_try_catch; [now apply db_free_perform|].
  intros e. now destruct (_ && _).
Qed.

Lemma db_free_embed_all chunks : db_free (embed_all_ chunks).
Proof.
  induction chunks as [|c chunks IH]; cbn [embed_all]; [exact I|].
  apply db_free_bind; [apply db_free_embed|]. intros emb.
  apply db_free_bind; [exact IH|]. now intros embs.
Qed.

(** One vector literal per chunk. *)
Lemma embed_all_length chunks : forall w w' tr embeddings,
  run h (embed_all_ chunks) w = (w', tr, inr embeddings) ->
  length embeddings = length chunks.
Proof.
  induction chunks as [|c chunks IH]; intros w w' tr embeddings; cbn [embed_all run].
  - now intros [= <- <- <-].
  - rewrite run_bind. destruct (run h (embed_ c) w) as [[w1 tr1] [e | emb]];
      [discriminate|].
    rewrite run_bind.
    destruct (run h (embed_all_ chunks) w1) as [[w2 tr2] [e | embs]] eqn:R;
      [discriminate|].
    cbn [run]. intros [= <- <- <-]. cbn [length]. f_equal. eapply IH; eauto.
Qed.

(** The inserts of a transaction work on its copy of the table; when one is
    refused the committed table and the copy are as they were before it. *)
Lemma run_insert_all celex rows : forall i t0 t e w' tr r,
  run h (insert_all celex i rows) (mkDb t0 (Some t), e) = (w', tr, r) ->
  table (fst w') = t0
  /\ (exists t', txn (fst w') = Some t')
  /\ (forall u, r = inr u -> fst w' = mkDb t0 (Some (inserted celex i rows t))).
Proof.
  induction rows as [|[chunk embedding] rows IH]; intros i t0 t e w' tr r;
    cbn [insert_all inserted].
  - cbn [run]. intros [= <- <- <-]. cbn. eauto.
  - rewrite run_bind, run_statement.
    destruct (fault _ e) as [e1 [err | ]].
    + intros [= <- <- <-]. cbn. repeat split; eauto. discriminate.
    + cbn [client_exec txn fst snd table].
      destruct (run h (insert_all celex (i + 1) rows) _) as [[w2 tr2] r2] eqn:R.
      intros [= <- <- <-]. eapply IH; eauto.
Qed.

(** The transaction of [upsertDocument], from a database with no open
    transaction: it commits all the inserts, or it throws and the committed
    table is as it was. *)
Lemma run_transaction celex rows t e w' tr r :
  run h (bind (perform (ClientQuery BEGIN)) (fun _ =>
         bind (insert_all celex 0 rows) (fun _ =>
         bind (perform (ClientQuery COMMIT)) (fun _ => Ret tt))))
    (mkDb t None, e) = (w', tr, r) ->
  match r with
  | inr _ => fst w' = mkDb (inserted celex 0 rows t) None
  | inl _ => table (fst w') = t
  end.
Proof.
  rewrite run_bind, run_statement.
  destruct (fault BEGIN e) as [e1 [err | ]]; [now intros [= <- <- <-]|].
  cbn [client_exec txn table fst snd]. rewrite run_bind.
  destruct (run h (insert_all celex 0 rows) _) as [[[d2 e2] tr2] r2] eqn:R.
  apply run_insert_all in R. destruct R as (T & [t' X] & S). cbn [fst] in T, X, S.
  destruct r2 as [err | []].
  - now intros [= <- <- <-].
  - specialize (S tt eq_refl). subst d2.
    rewrite run_bind, run_statement.
    destruct (fault COMMIT e2) as [e3 [err | ]]; now intros [= <- <- <-].
Qed.

(** A successful upsert, from a database with no open transaction: the
    committed table is the old one with the inserts made, one per chunk. *)
Lemma run_upsertDocument celex chunks t e w' tr :
  run h (upsertDocument_ celex chunks) (mkDb t None, e) = (w', tr, inr tt) ->
  exists embeddings,
    length embeddings = length chunks
    /\ fst w' = mkDb (inserted celex 0 (combine chunks embeddings) t) None.
Proof.
  unfold upsertDocument. rewrite run_bind.
  destruct (run_db_free nearest outside fault _ (db_free_embed_all chunks)
              (mkDb t None) e) as [D _].
  destruct (run h (embed_all_ chunks) (mkDb t None, e))
    as [[[d1 e1] tr1] [err | embeddings]] eqn:RE; [discriminate|].
  cbn [fst] in D. subst d1. apply embed_all_length in RE.
  rewrite run_bind, run_perform.
  rewrite handle_connect.
  destruct (outside _ PoolConnect e1) as [e2 [err | []]]; cbn [fst snd];
    [discriminate|].
  rewrite run_try_finally, run_try_catch.
  destruct (run h (bind (perform (ClientQuery BEGIN)) _) (mkDb t None, e2))
    as [[[d3 e3] tr3] r3] eqn:RT.
  apply run_transaction in RT. cbn [fst] in RT.
  destruct r3 as [err | []].
  - (* the transaction threw: the upsert throws *)
    rewrite run_bind, run_statement.
    destruct (fault ROLLBACK e3) as [e4 [err' | ]]; cbn [run];
      rewrite run_perform;
      match goal with
      | |- context [h ?X ?c ?w] => destruct (h X c w) as [w5 [e5 | []]]
      end; discriminate.
  - subst d3. rewrite run_perform.
    rewrite handle_release.
    destruct (outside _ ClientRelease e3) as [e4 [err | []]]; cbn [fst snd];
      [discriminate|].
    intros [= <- <-]. now exists embeddings.
Qed.

(** Rows of the document with an index beyond the new passages survive a
    successful upsert. *)
Theorem upsert_keeps_rows_beyond celex chunks t e w' tr r :
  run h (upsertDocument_ celex chunks) (mkDb t None, e) = (w', tr, inr tt) ->
  In r t -> row_celex r = celex -> Z.of_nat (length chunks) <= row_chunk_id r ->
  In r (table (fst w')).
Proof.
  intros R Hin Hc Hi. apply run_upsertDocument in R.
  destruct R as (embeddings & L & ->). cbn [table].
  apply inserted_keeps; trivial. intros _. right.
  rewrite length_combine, L, Nat.min_id. lia.
Qed.

(** A successful upsert of a document that has no row yet stores exactly
    one row per passage, with the indices 0 to n-1 in order, each holding
    its passage. *)
Theorem upsert_fresh_document celex chunks t e w' tr :
  run h (upsertDocument_ celex chunks) (mkDb t None, e) = (w', tr, inr tt) ->
  rows_of celex t = [] ->
  indices celex (table (fst w'))
  = map Z.of_nat (seq 0 (length chunks))
  /\ map row_content (rows_of celex (table (fst w'))) = chunks.
Proof.
  intros R Hfresh. apply run_upsertDocument in R.
  destruct R as (embeddings & L & ->). cbn [table].
  rewrite inserted_fresh.
  - unfold indices. rewrite rows_of_app, Hfresh, rows_of_rows_from. cbn [app].
    split.
    + rewrite indices_rows_from, length_combine, L, Nat.min_id.
      apply map_ext. intros; lia.
    + clear Hfresh. generalize 0. revert embeddings L.
      induction chunks as [|c chunks IH]; intros [|emb embs] L i;
        try discriminate; trivial.
      cbn [combine rows_from map row_content]. f_equal. apply IH.
      now injection L.
  - intros r Hin Hc. exfalso.
    assert (In r (rows_of celex t)); [|now rewrite Hfresh in *].
    apply filter_In. split; trivial. rewrite Hc. apply eqb_refl.
Qed.

End World.

Lemma upsert_fresh_document_witness :
  let x :=
    run (Fixtures.db_world [])
      (upsertDocument false (lit "text-embedding-3-small") (fun _ => [0.5%float])
         Fixtures.print_number (lit "32019R1234") [lit "Unu."; lit "Doi."])
      (mkDb [] None, tt) in
  indices (lit "32019R1234") (table (fst (fst (fst x)))) = [0; 1]
  /\ map row_content (rows_of (lit "32019R1234") (table (fst (fst (fst x)))))
     = [lit "Unu."; lit "Doi."].
Proof.
  intros x.
  apply (upsert_fresh_document Fixtures.nothing (Fixtures.quiet [])
           Fixtures.no_fault false (lit "text-embedding-3-small")
           (fun _ => [0.5%float]) Fixtures.print_number (lit "32019R1234")
           [lit "Unu."; lit "Doi."] [] tt (fst (fst x)) (trace x));
    reflexivity.
Defined.

End UpsertFacts.

(* ================================================================== *)
(** * Programs: what they never call and what they return *)
(* ================================================================== *)

Module ProgramFacts.
Import JS Seed Effects.
Import Spec RunFacts Observations.

Lemma never_bind {A B} P (m : io A) (f : A -> io B) :
  never P m -> (forall a, never P (f a)) -> never P (bind m f).
Proof.
  induction m as [a | e | X c k IH]; cbn [bind never]; intros Hm Hf; auto.
  destruct Hm as [Hc Hk]. split; auto.
Qed.

Lemma never_perform {X} P (c : call X) :
  P (Called c) = false -> never P (perform c).
Proof. intros H. split; trivial. now intros [e | x]. Qed.

Lemma never_try_catch {A} P (m : io A) (g : Error -> io A) :
  never P m -> (forall e, never P (g e)) -> never P (try_catch m g).
Proof.
  induction m as [a | e | X c k IH]; cbn [try_catch never]; intros Hm Hg; auto.
  destruct Hm as [Hc Hk]. split; auto.
Qed.

Lemma never_try_finally {A} P (m : io A) (f : io unit) :
  never P m -> never P f -> never P (try_finally m f).
Proof.
  intros Hm Hf. unfold try_finally. apply never_bind.
  - apply never_try_catch; [|now intros e].
    apply never_bind; trivial. now intros a.
  - intros r. apply never_bind; trivial. intros _. now destruct r.
Qed.

(** Whatever answers the calls, a run of such a program has no call of
    [P]. *)
Lemma run_never {W A} (h : handler W) P (m : io A) :
  never P m -> forall w, Forall (fun ev => P ev = false) (trace (run h m w)).
Proof.
  induction m as [a | e | X c k IH]; cbn [never run]; intros Hm w;
    try (now constructor).
  destruct Hm as [Hc Hk]. destruct (h X c w) as [w1 r].
  specialize (IH r (Hk r) w1). destruct (run h (k r) w1) as [[w2 tr] res].
  unfold trace in *. cbn [fst snd] in *. now constructor.
Qed.

Lemma ensures_bind {A B} (Q : B -> Prop) (m : io A) (f : A -> io B) :
  (forall a, ensures Q (f a)) -> ensures Q (bind m f).
Proof.
  intros Hf. induction m as [a | e | X c k IH]; cbn [bind ensures]; auto.
Qed.

Lemma ensures_try_catch {A} (Q : A -> Prop) (m : io A) (g : Error -> io A) :
  ensures Q m -> (forall e, ensures Q (g e)) -> ensures Q (try_catch m g).
Proof.
  induction m as [a | e | X c k IH]; cbn [try_catch ensures]; auto.
Qed.

(** Whatever answers the calls, a run of such a program that returns,
    returns a value of [Q]. *)
Lemma run_ensures {W A} (h : handler W) (Q : A -> Prop) (m : io A) :
  ensures Q m -> forall w a, result (run h m w) = inr a -> Q a.
Proof.
  induction m as [a | e | X c k IH]; cbn [ensures run]; intros Hm w a'.
  - unfold result. cbn. now intros [= <-].
  - discriminate.
  - destruct (h X c w) as [w1 r]. specialize (IH r (Hm r) w1 a').
    destruct (run h (k r) w1) as [[w2 tr] res]. exact IH.
Qed.

Lemma fetched_app a b : fetched (a ++ b) = fetched a ++ fetched b.
Proof.
  induction a as [|[X c] a IH]; [reflexivity|]. cbn [app fetched].
  destruct c; cbn [app]; now rewrite IH.
Qed.

Lemma sleeps_app a b : sleeps (a ++ b) = sleeps a ++ sleeps b.
Proof.
  induction a as [|[X c] a IH]; [reflexivity|]. cbn [app sleeps].
  destruct c; cbn [app]; now rewrite IH.
Qed.

End ProgramFacts.

(* ================================================================== *)
(** * [fetchWithRetry] *)
(* ================================================================== *)

Module FetchFacts.
Import JS Seed Effects.
Import Spec RunFacts Ingest Observations ProgramFacts Scenarios.

Local Open Scope Z_scope.

Lemma ensures_fetchWithRetry_from n : forall i lastErr url baseDelayMs timeoutMs,
  ensures (fun res => retryable res = false)
    (fetchWithRetry_from n i lastErr url baseDelayMs timeoutMs).
Proof.
  induction n as [|n IH]; intros i lastErr url baseDelayMs timeoutMs;
    cbn [fetchWithRetry_from ensures]; [exact I|].
  intros [err | res].
  - apply ensures_bind. intros j. apply ensures_bind. intros _. apply IH.
  - destruct ((status res >=? 200) && (status res <? 300)) eqn:E2.
    + cbn [ensures]. unfold retryable. lia.
    + destruct ((status res =? 429)
                || (status res >=? 500) && (status res <=? 599)) eqn:E5.
      * apply ensures_bind. intros j. apply ensures_bind. intros _. apply IH.
      * cbn [ensures]. unfold retryable. lia.
Qed.

(** A response that [fetchWithRetry] returns is not one it tries again
    on: its status is neither 429 nor one of 500 to 599. *)
Theorem fetchWithRetry_returns_final {W} (h : handler W)
    url attempts baseDelayMs timeoutMs w res :
  result (run h (fetchWithRetry url attempts baseDelayMs timeoutMs) w) = inr res ->
  status res <> 429 /\ ~ (500 <= status res <= 599).
Proof.
  intros R.
  apply (run_ensures h _ _ (ensures_fetchWithRetry_from _ _ _ _ _ _)) in R.
  unfold retryable in R. lia.
Qed.

Lemma fetchWithRetry_returns_final_witness :
  result (run (busy (lit "<p>ok</p>"))
            (fetchWithRetry (lit "https://eur-lex.europa.eu/") 5 800 25000)
            2%nat)
  = inr (mkResponse 200 (lit "<p>ok</p>"))
  /\ (200 <> 429 /\ ~ (500 <= 200 <= 599)).
Proof.
  split; [reflexivity|].
  apply (fetchWithRetry_returns_final (busy (lit "<p>ok</p>"))
           (lit "https://eur-lex.europa.eu/") 5 800 25000 2%nat
           (mkResponse 200 (lit "<p>ok</p>"))).
  reflexivity.
Defined.

(** ** The number of requests *)

Section Runs.
Context {W : Type} (h : handler W).
Variables (url : jsstring) (baseDelayMs timeoutMs : Z).

#[local] Abbreviation loop n i lastErr :=
  (fetchWithRetry_from n i lastErr url baseDelayMs timeoutMs).

#[local] Abbreviation again n i lastErr :=
  (bind (perform Jitter) (fun j =>
   bind (perform (Sleep (baseDelayMs * 2 ^ i + j))) (fun _ =>
   loop n (i + 1) lastErr))).

(** The run of one more round: the jitter, the delay, and the rest. *)
Lemma run_again n i lastErr w :
  run h (again n i lastErr) w
  = match h _ Jitter w with
    | (w1, inl e) => (w1, [Called Jitter], inl e)
    | (w1, inr j) =>
        let ms := baseDelayMs * 2 ^ i + j in
        match h _ (Sleep ms) w1 with
        | (w2, inl e) => (w2, [Called Jitter; Called (Sleep ms)], inl e)
        | (w2, inr _) =>
            let '(w3, tr, r) := run h (loop n (i + 1) lastErr) w2 in
            (w3, Called Jitter :: Called (Sleep ms) :: tr, r)
        end
    end.
Proof.
  rewrite run_bind, run_perform.
  destruct (h _ Jitter w) as [w1 [e | j]]; cbn [fst snd]; [reflexivity|].
  rewrite run_bind, run_perform.
  destruct (h _ (Sleep (baseDelayMs * 2 ^ i + j)) w1) as [w2 [e | []]];
    cbn [fst snd]; [reflexivity|].
  now destruct (run h (loop n (i + 1) lastErr) w2) as [[w3 tr] r].
Qed.

Lemma run_loop n i lastErr w :
  run h (loop (S n) i lastErr) w
  = match h _ (Fetch url timeoutMs) w with
    | (w1, inl err) =>
        let '(w2, tr, r) := run h (again n i (Some err)) w1 in
        (w2, Called (Fetch url timeoutMs) :: tr, r)
    | (w1, inr res) =>
        if (status res >=? 200) && (status res <? 300) then
          (w1, [Called (Fetch url timeoutMs)], inr res)
        else if (status res =? 429)
                || (status res >=? 500) && (status res <=? 599) then
          let '(w2, tr, r) := run h (again n i lastErr) w1 in
          (w2, Called (Fetch url timeoutMs) :: tr, r)
        else (w1, [Called (Fetch url timeoutMs)], inr res)
    end.
Proof.
  cbn [fetchWithRetry_from run].
  destruct (h _ (Fetch url timeoutMs) w) as [w1 [err | res]]; [reflexivity|].
  destruct ((status res >=? 200) && (status res <? 300)); [reflexivity|].
  now destruct ((status res =? 429)
                || (status res >=? 500) && (status res <=? 599)).
Qed.

(** Every request goes to [url] with the time limit, and there are at most
    as many requests as attempts, and no more delays than requests. *)
Lemma loop_requests n : forall i lastErr w,
  let tr := trace (run h (loop n i lastErr) w) in
  (length (fetched tr) <= n)%nat
  /\ Forall (fun f => f = (url, timeoutMs)) (fetched tr)
  /\ (length (sleeps tr) <= length (fetched tr))%nat.
Proof.
  induction n as [|n IH]; intros i lastErr w.
  { cbn. repeat split; auto. }
  assert (Again : forall lastErr' w1,
    let tr := trace (run h (again n i lastErr') w1) in
    (length (fetched tr) <= n)%nat
    /\ Forall (fun f => f = (url, timeoutMs)) (fetched tr)
    /\ (length (sleeps tr) <= S (length (fetched tr)))%nat).
  { intros lastErr' w1. cbv zeta. rewrite run_again.
    destruct (h _ Jitter w1) as [w2 [e | j]];
      [cbn; repeat split; auto; lia|].
    cbv zeta.
    destruct (h _ (Sleep _) w2) as [w3 [e | []]];
      [cbn; repeat split; auto; lia|].
    specialize (IH (i + 1) lastErr' w3). cbv zeta in IH.
    destruct (run h (loop n (i + 1) lastErr') w3) as [[w4 tr] r].
    unfold trace in *. cbn [fst snd fetched sleeps length] in *.
    destruct IH as (L & F & S). repeat split; auto; lia. }
  cbv zeta. rewrite run_loop.
  destruct (h _ (Fetch url timeoutMs) w) as [w1 [err | res]].
  - specialize (Again (Some err) w1). cbv zeta in Again.
    destruct (run h (again n i (Some err)) w1) as [[w2 tr] r].
    unfold trace in *. cbn [fst snd fetched sleeps length] in *.
    destruct Again as (L & F & S). repeat split; auto; lia.
  - destruct ((status res >=? 200) && (status res <? 300));
      [cbn; repeat split; auto; lia|].
    destruct ((status res =? 429)
              || (status res >=? 500) && (status res <=? 599));
      [|cbn; repeat split; auto; lia].
    specialize (Again lastErr w1). cbv zeta in Again.
    destruct (run h (again n i lastErr) w1) as [[w2 tr] r].
    unfold trace in *. cbn [fst snd fetched sleeps length] in *.
    destruct Again as (L & F & S). repeat split; auto; lia.
Qed.

(** With timers that work, a loop that throws has used all its attempts,
    and has waited after each; what it throws is the last error a request
    gave, or the error it started with. *)
Lemma loop_throws n :
  (forall w, exists w' j, h _ Jitter w = (w', inr j)) ->
  (forall ms w, exists w', h _ (Sleep ms) w = (w', inr tt)) ->
  forall i lastErr w e,
    result (run h (loop n i lastErr) w) = inl e ->
    let tr := trace (run h (loop n i lastErr) w) in
    length (fetched tr) = n
    /\ length (sleeps tr) = n
    /\ (e = match lastErr with
            | Some e0 => e0
            | None => new_Error (lit "Fetch failed after retries")
            end
        \/ exists w1 w2, h _ (Fetch url timeoutMs) w1 = (w2, inl e)).
Proof.
  intros HJ HS. induction n as [|n IH]; intros i lastErr w e.
  { cbn. intros [= <-]. repeat split; auto. }
  assert (Again : forall lastErr' w1,
    result (run h (again n i lastErr') w1) = inl e ->
    let tr := trace (run h (again n i lastErr') w1) in
    length (fetched tr) = n
    /\ length (sleeps tr) = S n
    /\ (e = match lastErr' with
            | Some e0 => e0
            | None => new_Error (lit "Fetch failed after retries")
            end
        \/ exists w1 w2, h _ (Fetch url timeoutMs) w1 = (w2, inl e))).
  { intros lastErr' w1. cbv zeta. rewrite run_again.
    destruct (HJ w1) as (w2 & j & ->). cbv zeta.
    destruct (HS (baseDelayMs * 2 ^ i + j) w2) as (w3 & ->).
    specialize (IH (i + 1) lastErr' w3). cbv zeta in IH.
    destruct (run h (loop n (i + 1) lastErr') w3) as [[w4 tr] r].
    unfold trace, result in *. cbn [fst snd fetched sleeps length] in *.
    intros R. destruct (IH e R) as (L & S & D). repeat split; auto. }
  cbv zeta. rewrite run_loop.
  destruct (h _ (Fetch url timeoutMs) w) as [w1 [err | res]] eqn:F.
  - specialize (Again (Some err) w1). cbv zeta in Again.
    destruct (run h (again n i (Some err)) w1) as [[w2 tr] r].
    unfold trace, result in *. cbn [fst snd fetched sleeps length] in *.
    intros R. destruct (Again R) as (L & S & [-> | D]); repeat split; auto.
    right. now exists w, w1.
  - destruct ((status res >=? 200) && (status res <? 300)); [discriminate|].
    destruct ((status res =? 429)
              || (status res >=? 500) && (status res <=? 599));
      [|discriminate].
    specialize (Again lastErr w1). cbv zeta in Again.
    destruct (run h (again n i lastErr) w1) as [[w2 tr] r].
    unfold trace, result in *. cbn [fst snd fetched sleeps length] in *.
    intros R. destruct (Again R) as (L & S & D). repeat split; auto.
Qed.

(** The [k]-th delay of a loop that starts at round [i] is within the
    jitter of [baseDelayMs * 2 ^ (i + k)]. *)
Lemma loop_backoff n :
  (forall w w' j, h _ Jitter w = (w', inr j) -> 0 <= j < 200) ->
  forall i lastErr w k ms,
    0 <= i ->
    nth_error (sleeps (trace (run h (loop n i lastErr) w))) k = Some ms ->
    baseDelayMs * 2 ^ (i + Z.of_nat k) <= ms
    < baseDelayMs * 2 ^ (i + Z.of_nat k) + 200.
Proof.
  intros HJ. induction n as [|n IH]; intros i lastErr w k ms Hi.
  { cbn. now destruct k. }
  assert (Again : forall lastErr' w1,
    nth_error (sleeps (trace (run h (again n i lastErr') w1))) k = Some ms ->
    baseDelayMs * 2 ^ (i + Z.of_nat k) <= ms
    < baseDelayMs * 2 ^ (i + Z.of_nat k) + 200).
  { intros lastErr' w1. rewrite run_again.
    destruct (h _ Jitter w1) as [w2 [e | j]] eqn:J;
      [cbn; now destruct k|].
    apply HJ in J. cbv zeta.
    destruct (h _ (Sleep _) w2) as [w3 [e | []]].
    - cbn. destruct k as [|[|k]]; try discriminate. intros [= <-].
      rewrite Z.add_0_r. lia.
    - specialize (IH (i + 1) lastErr' w3).
      destruct (run h (loop n (i + 1) lastErr') w3) as [[w4 tr] r].
      unfold trace in *. cbn [fst snd sleeps] in *.
      destruct k as [|k]; cbn [nth_error].
      + intros [= <-]. rewrite Z.add_0_r. lia.
      + intros N. specialize (IH k ms ltac:(lia) N).
        replace (i + Z.of_nat (S k)) with (i + 1 + Z.of_nat k) by lia.
        exact IH. }
  rewrite run_loop.
  destruct (h _ (Fetch url timeoutMs) w) as [w1 [err | res]].
  - specialize (Again (Some err) w1).
    destruct (run h (again n i (Some err)) w1) as [[w2 tr] r].
    unfold trace in *. cbn [fst snd sleeps] in *. exact Again.
  - destruct ((status res >=? 200) && (status res <? 300));
      [cbn; now destruct k|].
    destruct ((status res =? 429)
              || (status res >=? 500) && (status res <=? 599));
      [|cbn; now destruct k].
    specialize (Again lastErr w1).
    destruct (run h (again n i lastErr) w1) as [[w2 tr] r].
    unfold trace in *. cbn [fst snd sleeps] in *. exact Again.
Qed.
End Runs.

(** [fetchWithRetry] makes at most [attempts] requests, all of them to
    [url] with the time limit [timeoutMs], and waits at most once per
    request; with no attempt allowed it makes none and throws. *)
Theorem fetchWithRetry_at_most_attempts {W} (h : handler W)
    url attempts baseDelayMs timeoutMs w :
  let x := run h (fetchWithRetry url attempts baseDelayMs timeoutMs) w in
  (length (fetched (trace x)) <= Z.to_nat attempts)%nat
  /\ Forall (fun f => f = (url, timeoutMs)) (fetched (trace x))
  /\ (length (sleeps (trace x)) <= length (fetched (trace x)))%nat
  /\ (attempts <= 0 ->
      x = (w, [], inl (new_Error (lit "Fetch failed after retries")))).
Proof.
  intros x. unfold x, fetchWithRetry.
  destruct (loop_requests h url baseDelayMs timeoutMs (Z.to_nat attempts) 0
              None w) as (L & F & S).
  repeat split; trivial.
  intros H. replace (Z.to_nat attempts) with O by lia. reflexivity.
Qed.

(** ** The error that is thrown *)

(** Writing the answers down changes nothing of a run. *)
Lemma run_recording {W A} (h : handler W) (m : io A) : forall w l,
  let x := run (recording h) m (w, l) in
  (fst (fst (fst x)), trace x, result x) = run h m w.
Proof.
  induction m as [a | e | X c k IH]; intros w l; [reflexivity | reflexivity|].
  cbn [run].
  change (recording h X c (w, l))
    with (let (w1, r) := h X c w in ((w1, l ++ answer_of c r), r)).
  destruct (h X c w) as [w1 r]. specialize (IH r w1 (l ++ answer_of c r)).
  cbv zeta in IH.
  destruct (run (recording h) (k r) (w1, l ++ answer_of c r))
    as [[[w' l'] tr] res].
  destruct (run h (k r) w1) as [[w2 tr2] res2].
  unfold trace, result in *. cbn [fst snd] in *. now injection IH as -> -> ->.
Qed.

Lemma recording_eq {W} (h : handler W) X (c : call X) w l :
  recording h X c (w, l)
  = let (w1, r) := h X c w in ((w1, l ++ answer_of c r), r).
Proof. reflexivity. Qed.

Section Answers.
Context {W : Type} (h : handler W).
Variables (url : jsstring) (baseDelayMs timeoutMs : Z).
Hypothesis timer : forall w, exists w' j, h _ Jitter w = (w', inr j).
Hypothesis sleep : forall ms w, exists w', h _ (Sleep ms) w = (w', inr tt).

#[local] Abbreviation loop n i lastErr :=
  (fetchWithRetry_from n i lastErr url baseDelayMs timeoutMs).

(** A loop that throws has been answered [n] times, each time by an
    error or by a response to try again on, and throws the error of the
    last request that threw, or the error it started with when none
    did. *)
Lemma loop_answers n : forall i lastErr w l e,
  let x := run (recording h) (loop n i lastErr) (w, l) in
  result x = inl e ->
  exists answers,
    snd (fst (fst x)) = l ++ answers
    /\ length answers = n
    /\ Forall (fun r => match r with
                        | inl _ => True
                        | inr res => retryable res = true
                        end) answers
    /\ e = match last_error answers, lastErr with
           | Some e', _ => e'
           | None, Some e0 => e0
           | None, None => new_Error (lit "Fetch failed after retries")
           end.
Proof.
  induction n as [|n IH]; intros i lastErr w l e; cbv zeta.
  { cbn. intros [= <-]. exists []. rewrite app_nil_r.
    repeat split; auto; now destruct lastErr. }
  assert (Again : forall lastErr' w1 l1,
    result (run (recording h)
              (bind (perform Jitter) (fun j =>
               bind (perform (Sleep (baseDelayMs * 2 ^ i + j))) (fun _ =>
               loop n (i + 1) lastErr'))) (w1, l1)) = inl e ->
    exists answers,
      snd (fst (fst (run (recording h)
              (bind (perform Jitter) (fun j =>
               bind (perform (Sleep (baseDelayMs * 2 ^ i + j))) (fun _ =>
               loop n (i + 1) lastErr'))) (w1, l1)))) = l1 ++ answers
      /\ length answers = n
      /\ Forall (fun r => match r with
                          | inl _ => True
                          | inr res => retryable res = true
                          end) answers
      /\ e = match last_error answers, lastErr' with
             | Some e', _ => e'
             | None, Some e0 => e0
             | None, None => new_Error (lit "Fetch failed after retries")
             end).
  { intros lastErr' w1 l1. rewrite run_again, recording_eq.
    destruct (timer w1) as (w2 & j & ->). cbn [answer_of]. cbv zeta.
    rewrite recording_eq.
    destruct (sleep (baseDelayMs * 2 ^ i + j) w2) as (w3 & ->).
    cbn [answer_of]. rewrite !app_nil_r.
    specialize (IH (i + 1) lastErr' w3 l1 e). cbv zeta in IH.
    destruct (run (recording h) (loop n (i + 1) lastErr') (w3, l1))
      as [[w4 tr] r].
    unfold result in *. cbn [fst snd] in *. exact IH. }
  rewrite run_loop, recording_eq. cbn [answer_of].
  destruct (h _ (Fetch url timeoutMs) w) as [w1 [err | res]].
  - specialize (Again (Some err) w1 (l ++ [inl err])).
    destruct (run (recording h) _ (w1, l ++ [inl err])) as [[w2 tr] r].
    unfold result in *. cbn [fst snd] in *. intros R.
    destruct (Again R) as (answers & E & L & F & X).
    exists (inl err :: answers). rewrite E, <- app_assoc.
    repeat split; auto; [cbn; lia|]. cbn [last_error].
    now destruct (last_error answers).
  - replace ((status res >=? 200) && (status res <? 300))
      with (ok res) by (unfold ok; f_equal; lia).
    destruct (ok res); [discriminate|].
    change ((status res =? 429)
            || (status res >=? 500) && (status res <=? 599))
      with ((status res =? 429)
            || (status res >=? 500) && (status res <=? 599)).
    destruct ((status res =? 429)
              || (status res >=? 500) && (status res <=? 599)) eqn:T;
      [|discriminate].
    specialize (Again lastErr w1 (l ++ [inr res])).
    destruct (run (recording h) _ (w1, l ++ [inr res])) as [[w2 tr] r].
    unfold result in *. cbn [fst snd] in *. intros R.
    destruct (Again R) as (answers & E & L & F & X).
    exists (inr res :: answers). rewrite E, <- app_assoc.
    repeat split; auto; [cbn; lia | |].
    + constructor; trivial. unfold retryable. rewrite <- T. f_equal.
      f_equal. lia.
    + cbn [last_error]. now destruct (last_error answers).
Qed.
End Answers.

(** With timers that work, [fetchWithRetry] throws only after [attempts]
    requests, each followed by a delay and each answered by an error or
    by a response it tries again on.  What it throws is the error of the
    last request of the run that threw, and
    [Error('Fetch failed after retries')] when every request of the run was
    answered.  The answers are those of the run itself, written down by
    [recording], which changes nothing else of the run. *)
Theorem fetchWithRetry_throws_after_attempts {W} (h : handler W)
    url attempts baseDelayMs timeoutMs w e :
  (forall w, exists w' j, h _ Jitter w = (w', inr j)) ->
  (forall ms w, exists w', h _ (Sleep ms) w = (w', inr tt)) ->
  let m := fetchWithRetry url attempts baseDelayMs timeoutMs in
  result (run h m w) = inl e ->
  let x := run (recording h) m (w, []) in
  let answers := snd (fst (fst x)) in
  (fst (fst (fst x)), trace x, result x) = run h m w
  /\ length answers = Z.to_nat attempts
  /\ length (fetched (trace x)) = Z.to_nat attempts
  /\ length (sleeps (trace x)) = Z.to_nat attempts
  /\ Forall (fun r => match r with
                      | inl _ => True
                      | inr res => retryable res = true
                      end) answers
  /\ e = match last_error answers with
         | Some e' => e'
         | None => new_Error (lit "Fetch failed after retries")
         end.
Proof.
  intros HJ HS m R x answers. subst answers x m. unfold fetchWithRetry in *.
  set (m := fetchWithRetry_from _ _ _ _ _ _) in *.
  pose proof (run_recording h m w []) as Same. cbv zeta in Same.
  split; [exact Same|].
  assert (Rx : result (run (recording h) m (w, [])) = inl e).
  { unfold result in R. rewrite <- Same in R. exact R. }
  destruct (loop_answers h url baseDelayMs timeoutMs HJ HS (Z.to_nat attempts)
              0 None w [] e Rx) as (l & E & L & F & X).
  fold m in E. cbn [app] in E. rewrite E.
  destruct (loop_throws h url baseDelayMs timeoutMs (Z.to_nat attempts) HJ HS 0
              None w e R) as (Lf & Ls & _).
  fold m in Lf, Ls.
  assert (T : trace (run (recording h) m (w, [])) = trace (run h m w)).
  { rewrite <- Same. reflexivity. }
  rewrite T. repeat split; trivial.
Qed.

Lemma fetchWithRetry_throws_after_attempts_witness :
  let m := fetchWithRetry (lit "https://eur-lex.europa.eu/") 3 500 20000 in
  let x := run (recording offline) m (tt, []) in
  result (run offline m tt) = inl (new_Error (lit "fetch failed"))
  /\ snd (fst (fst x))
     = [inl (new_Error (lit "fetch failed"));
        inl (new_Error (lit "fetch failed"));
        inl (new_Error (lit "fetch failed"))]
  /\ length (snd (fst (fst x))) = 3%nat
  /\ new_Error (lit "fetch failed")
     = match last_error (snd (fst (fst x))) with
       | Some e' => e'
       | None => new_Error (lit "Fetch failed after retries")
       end.
Proof.
  intros m x. split; [reflexivity|]. split; [reflexivity|].
  destruct (fetchWithRetry_throws_after_attempts offline
              (lit "https://eur-lex.europa.eu/") 3 500 20000 tt
              (new_Error (lit "fetch failed")))
    as (_ & L & _ & _ & _ & X).
  - intros []. now exists tt, 0.
  - intros ms []. now exists tt.
  - reflexivity.
  - split; [exact L | exact X].
Defined.

(** The delays grow as [baseDelayMs * 2 ^ k]: with a jitter of 0 to 199
    milliseconds, the [k]-th delay (from 0) is at least that, and less
    than 200 milliseconds more. *)
Theorem fetchWithRetry_backoff {W} (h : handler W)
    url attempts baseDelayMs timeoutMs w k ms :
  (forall w w' j, h _ Jitter w = (w', inr j) -> 0 <= j < 200) ->
  nth_error
    (sleeps (trace (run h (fetchWithRetry url attempts baseDelayMs timeoutMs) w)))
    k = Some ms ->
  baseDelayMs * 2 ^ Z.of_nat k <= ms < baseDelayMs * 2 ^ Z.of_nat k + 200.
Proof.
  intros HJ N.
  exact (loop_backoff h url baseDelayMs timeoutMs (Z.to_nat attempts) HJ 0 None
           w k ms (Z.le_refl 0) N).
Qed.

Lemma fetchWithRetry_backoff_witness :
  sleeps (trace (run (busy [])
                   (fetchWithRetry (lit "https://eur-lex.europa.eu/") 5 800 25000)
                   3%nat))
  = [800; 1600; 3200]
  /\ 800 * 2 ^ Z.of_nat 2 <= 3200 < 800 * 2 ^ Z.of_nat 2 + 200.
Proof.
  split; [reflexivity|].
  apply (fetchWithRetry_backoff (busy [])
           (lit "https://eur-lex.europa.eu/") 5 800 25000 3%nat 2%nat 3200).
  - intros w w' j. cbn. intros [= _ <-]. lia.
  - reflexivity.
Defined.

End FetchFacts.

(* ================================================================== *)
(** * The status scan *)
(* ================================================================== *)

Module StatusFacts.
Import JS Seed Effects.
Import Spec Ingest Observations.

(** ** Matches of a pattern *)

Lemma exec_inv p s : forall s' n,
  exec p s = Some (s', n) ->
  exists pre, s = pre ++ s' /\ match_len p s' = Some n.
Proof.
  induction s as [|c s IH]; intros s' n; cbn [exec].
  - destruct (match_len p []) as [m|] eqn:M; [|discriminate].
    intros [= <- <-]. now exists [].
  - destruct (match_len p (c :: s)) as [m|] eqn:M.
    + intros [= <- <-]. now exists [].
    + intros H. destruct (IH _ _ H) as (pre & -> & M').
      now exists (c :: pre).
Qed.

Lemma test_intro p pre s n : match_len p s = Some n -> test p (pre ++ s) = true.
Proof.
  intros M. unfold test. induction pre as [|c pre IH]; cbn [app].
  - destruct s; cbn [exec]; now rewrite M.
  - cbn [exec]. now destruct (match_len p (c :: pre ++ s)).
Qed.

Lemma exec_none_test p s : exec p s = None <-> test p s = false.
Proof. unfold test. destruct (exec p s); split; congruence. Qed.

Lemma match_word_inv w p : forall s n,
  match_len (map Chr w ++ p) s = Some n ->
  exists s1 s2 m,
    s = s1 ++ s2 /\ spelt w s1 /\ match_len p s2 = Some m
    /\ n = (length w + m)%nat.
Proof.
  induction w as [|c w IH]; intros s n; cbn [map app].
  - intros M. exists [], s, n. repeat split; trivial. constructor.
  - cbn [match_len]. destruct s as [|x s]; [discriminate|].
    destruct (same_letter c x) eqn:L; [|discriminate].
    destruct (match_len (map Chr w ++ p) s) as [n'|] eqn:M; [|discriminate].
    intros [= <-]. destruct (IH _ _ M) as (s1 & s2 & m & -> & F & M2 & ->).
    exists (x :: s1), s2, m. repeat split; trivial. now constructor.
Qed.

Lemma match_word_intro w p : forall s1 s2 m,
  spelt w s1 -> match_len p s2 = Some m ->
  match_len (map Chr w ++ p) (s1 ++ s2) = Some (length w + m)%nat.
Proof.
  induction w as [|c w IH]; intros s1 s2 m F M; inversion F; subst;
    cbn [map app length]; trivial.
  cbn [match_len]. rewrite H1. now rewrite (IH _ _ _ H3 M).
Qed.

Lemma spelt_length w s1 : spelt w s1 -> length s1 = length w.
Proof. intros F. symmetry. exact (Forall2_length F). Qed.

(** The same word in another case. *)
Lemma spelt_case w w' s1 :
  Forall2 (fun c c' => forall x, same_letter c x = same_letter c' x) w w' ->
  spelt w s1 -> spelt w' s1.
Proof.
  intros C. revert s1. induction C as [|c c' w w' Hc C IH]; intros s1 F;
    inversion F; subst; constructor; [now rewrite <- Hc | now apply IH].
Qed.

Lemma first_some_inv {A B} (f : A -> option B) l b :
  first_some f l = Some b -> exists a, In a l /\ f a = Some b.
Proof.
  induction l as [|a l IH]; cbn [first_some]; [discriminate|].
  destruct (f a) as [b'|] eqn:E.
  - intros [= <-]. exists a. split; [now left | exact E].
  - intros H. destruct (IH H) as (a' & I & F). exists a'. split; [now right | exact F].
Qed.

(** [\s+] where the text has one whitespace code unit and then none. *)
Lemma match_one_space p x y rest :
  is_ws x = true -> is_ws y = false ->
  match_len (Spaces 1 :: p) (x :: y :: rest)
  = option_map S (match_len p (y :: rest)).
Proof.
  intros Hx Hy. cbn [match_len ws_run]. rewrite Hx, Hy. cbn.
  now destruct (match_len p (y :: rest)).
Qed.

(** ** The end-of-validity line is a marker *)

Lemma space_only x : same_letter 32%N x = true -> x = SP.
Proof.
  unfold same_letter. cbn. rewrite orb_diag. now intros H%N.eqb_eq.
Qed.

Lemma letter_o_not_ws x : same_letter 111%N x = true -> is_ws x = false.
Proof.
  unfold same_letter. cbn. intros H%orb_true_iff.
  destruct H as [H%N.eqb_eq | H%N.eqb_eq]; now subst.
Qed.

Lemma letter_v_not_ws x : same_letter 118%N x = true -> is_ws x = false.
Proof.
  unfold same_letter. cbn. intros H%orb_true_iff.
  destruct H as [H%N.eqb_eq | H%N.eqb_eq]; now subst.
Qed.

(** Where the pattern of the end-of-validity line matches, the marker
    [/End\s+of\s+validity/i] matches eight code units further. *)
Lemma date_line_is_marker s n :
  match_len END_OF_VALIDITY s = Some n ->
  exists pre s2 m,
    s = pre ++ s2
    /\ match_len (word "End" ++ sp ++ word "of" ++ sp ++ word "validity") s2
       = Some m.
Proof.
  change END_OF_VALIDITY with
    (map Chr (lit "Date of ") ++ map Chr (lit "end") ++ map Chr (lit " ")
       ++ map Chr (lit "of") ++ map Chr (lit " ") ++ map Chr (lit "validity")
       ++ (word ":" ++ [Spaces 0] ++ [Digit; Digit] ++ word "/"
             ++ [Digit; Digit] ++ word "/" ++ [Digit; Digit; Digit; Digit])).
  intros M.
  apply match_word_inv in M. destruct M as (a & s2 & m2 & -> & _ & M & _).
  exists a, s2.
  apply match_word_inv in M. destruct M as (b & s3 & m3 & -> & Fb & M & _).
  apply match_word_inv in M. destruct M as (c & s4 & m4 & -> & Fc & M & _).
  apply match_word_inv in M. destruct M as (d & s5 & m5 & -> & Fd & M & _).
  apply match_word_inv in M. destruct M as (e & s6 & m6 & -> & Fe & M & _).
  apply match_word_inv in M. destruct M as (f & s7 & m7 & -> & Ff & _ & _).
  inversion Fc as [|? x1 ? c' Hx1 Fc']; subst. inversion Fc'; subst.
  inversion Fe as [|? x2 ? e' Hx2 Fe']; subst. inversion Fe'; subst.
  apply space_only in Hx1, Hx2. subst x1 x2.
  inversion Fd as [|? o1 ? d' Ho1 Fd']; subst.
  inversion Ff as [|? v1 ? f' Hv1 Ff']; subst.
  pose proof (letter_o_not_ws _ Ho1) as Wo.
  pose proof (letter_v_not_ws _ Hv1) as Wv.
  change (word "End" ++ sp ++ word "of" ++ sp ++ word "validity") with
    (map Chr (lit "End") ++ Spaces 1 :: map Chr (lit "of")
       ++ Spaces 1 :: map Chr (lit "validity") ++ []).
  eexists. split; [reflexivity|]. apply match_word_intro.
  - apply (spelt_case (lit "end")); trivial.
    repeat constructor; intros x; unfold same_letter; cbn; apply orb_comm.
  - cbn [app]. rewrite match_one_space; trivial.
    change (o1 :: d' ++ SP :: v1 :: f' ++ s7)
      with ((o1 :: d') ++ SP :: v1 :: f' ++ s7).
    erewrite match_word_intro; [reflexivity | exact Fd |].
    cbn [app]. rewrite match_one_space; trivial.
    change (v1 :: f' ++ s7) with ((v1 :: f') ++ s7).
    erewrite match_word_intro; [reflexivity | exact Ff | reflexivity].
Qed.

(** Every page that carries a line [Date of end of validity: dd/dd/dddd]
    is taken as no longer in force by the seed script, whatever the date:
    the line itself has the marker [End of validity] in it, so a status
    with an end of validity and the status that matched with an end of
    validity are the same. *)
Theorem date_line_is_no_longer_in_force html :
  exec END_OF_VALIDITY html <> None <->
  exists d, isNoLongerInForce html = mkStatus true (Some d).
Proof.
  split.
  - intros H. destruct (exec END_OF_VALIDITY html) as [[s n]|] eqn:X;
      [|contradiction].
    unfold isNoLongerInForce. rewrite X.
    destruct (exec_inv _ _ _ _ X) as (pre & -> & M).
    destruct (date_line_is_marker _ _ M) as (pre2 & s2 & m & -> & M2).
    assert (T : test (word "End" ++ sp ++ word "of" ++ sp ++ word "validity")
                  (pre ++ pre2 ++ s2) = true).
    { rewrite (app_assoc pre pre2 s2). eapply test_intro. exact M2. }
    replace (existsb _ NO_LONGER_IN_FORCE_MARKERS) with true; [eauto|].
    symmetry. apply existsb_exists. eexists. split; [|exact T].
    cbn. tauto.
  - intros [d H]. unfold isNoLongerInForce in H.
    destruct (existsb _ _); [|discriminate].
    destruct (exec END_OF_VALIDITY html); [discriminate|].
    now injection H.
Qed.

(** ** The shape of the date *)

Lemma digit_inv p x s n :
  match_len (Digit :: p) (x :: s) = Some n ->
  is_digit x = true /\ exists m, match_len p s = Some m /\ n = S m.
Proof.
  cbn [match_len]. destruct (is_digit x); [|discriminate].
  destruct (match_len p s) as [m|]; [|discriminate].
  intros [= <-]. eauto.
Qed.

Lemma slash_inv p x s n :
  match_len (Chr 47%N :: p) (x :: s) = Some n ->
  x = 47%N /\ exists m, match_len p s = Some m /\ n = S m.
Proof.
  cbn [match_len]. destruct (same_letter 47%N x) eqn:L; [|discriminate].
  destruct (match_len p s) as [m|]; [|discriminate].
  intros [= <-]. split; [|eauto].
  unfold same_letter in L. cbn in L. rewrite orb_diag in L.
  now apply N.eqb_eq in L.
Qed.

(** What the pattern of the date matches: ten code units, digits and two
    slashes. *)
Lemma date_inv s n :
  match_len ([Digit; Digit] ++ word "/" ++ [Digit; Digit] ++ word "/"
               ++ [Digit; Digit; Digit; Digit]) s = Some n ->
  n = 10%nat /\ is_date (firstn 10 s) = true.
Proof.
  change ([Digit; Digit] ++ word "/" ++ [Digit; Digit] ++ word "/"
            ++ [Digit; Digit; Digit; Digit])
    with [Digit; Digit; Chr 47%N; Digit; Digit; Chr 47%N;
          Digit; Digit; Digit; Digit].
  intros M.
  destruct s as [|a1 s]; [discriminate|].
  apply digit_inv in M. destruct M as (D1 & n1 & M & ->).
  destruct s as [|a2 s]; [discriminate|].
  apply digit_inv in M. destruct M as (D2 & n2 & M & ->).
  destruct s as [|s1 s]; [discriminate|].
  apply slash_inv in M. destruct M as (-> & n3 & M & ->).
  destruct s as [|b1 s]; [discriminate|].
  apply digit_inv in M. destruct M as (D3 & n4 & M & ->).
  destruct s as [|b2 s]; [discriminate|].
  apply digit_inv in M. destruct M as (D4 & n5 & M & ->).
  destruct s as [|s2 s]; [discriminate|].
  apply slash_inv in M. destruct M as (-> & n6 & M & ->).
  destruct s as [|c1 s]; [discriminate|].
  apply digit_inv in M. destruct M as (D5 & n7 & M & ->).
  destruct s as [|c2 s]; [discriminate|].
  apply digit_inv in M. destruct M as (D6 & n8 & M & ->).
  destruct s as [|c3 s]; [discriminate|].
  apply digit_inv in M. destruct M as (D7 & n9 & M & ->).
  destruct s as [|c4 s]; [discriminate|].
  apply digit_inv in M. destruct M as (D8 & n10 & M & ->).
  cbn [match_len] in M. injection M as <-.
  split; [reflexivity|].
  cbn [firstn is_date]. now rewrite D1, D2, D3, D4, D5, D6, D7, D8.
Qed.

Lemma skipn_past {A} (a s : list A) j : skipn (length a + j) (a ++ s) = skipn j s.
Proof. induction a as [|x a IH]; [reflexivity | exact IH]. Qed.

(** The group of a match of the end-of-validity line: the last ten code
    units of the match are a date, and they are in the text. *)
Lemma end_of_validity_group s n :
  match_len END_OF_VALIDITY s = Some n ->
  is_date (firstn 10 (skipn (n - 10) s)) = true
  /\ exists pre post, s = pre ++ firstn 10 (skipn (n - 10) s) ++ post.
Proof.
  change END_OF_VALIDITY with
    (map Chr (lit "Date of end of validity:")
       ++ Spaces 0
            :: ([Digit; Digit] ++ word "/" ++ [Digit; Digit] ++ word "/"
                  ++ [Digit; Digit; Digit; Digit])).
  intros M.
  apply match_word_inv in M. destruct M as (a & s2 & m2 & -> & Fa & M & ->).
  cbn [match_len] in M. apply first_some_inv in M.
  destruct M as (j & _ & M).
  destruct (match_len _ (skipn j s2)) as [m|] eqn:D; [|discriminate].
  injection M as <-. apply date_inv in D. destruct D as (-> & D).
  apply spelt_length in Fa.
  replace (length (lit "Date of end of validity:") + (j + 10) - 10)%nat
    with (length a + j)%nat by (rewrite Fa; lia).
  rewrite skipn_past. split; [exact D|].
  exists (a ++ firstn j s2), (skipn 10 (skipn j s2)).
  rewrite firstn_skipn, <- app_assoc. now rewrite firstn_skipn.
Qed.

(** Whenever a status reports an end of validity, it is ten code units
    of the page in the shape dd/dd/dddd, each d a decimal digit. *)
Theorem endOfValidity_is_a_date html d :
  endOfValidity (isNoLongerInForce html) = Some d ->
  is_date d = true /\ exists pre post, html = pre ++ d ++ post.
Proof.
  unfold isNoLongerInForce. destruct (existsb _ _); [|discriminate].
  cbn [endOfValidity].
  destruct (exec END_OF_VALIDITY html) as [[s n]|] eqn:X; [|discriminate].
  intros [= <-]. destruct (exec_inv _ _ _ _ X) as (pre & -> & M).
  destruct (end_of_validity_group _ _ M) as (D & pre2 & post & E).
  split; [exact D|]. exists (pre ++ pre2), post.
  rewrite <- app_assoc. f_equal. exact E.
Qed.

Lemma endOfValidity_is_a_date_witness :
  let html :=
    lit "<p>No longer in force, Date of end of validity: 31/12/2020</p>" in
  endOfValidity (isNoLongerInForce html) = Some (lit "31/12/2020")
  /\ is_date (lit "31/12/2020") = true
  /\ exists pre post, html = pre ++ lit "31/12/2020" ++ post.
Proof.
  intros html. split; [reflexivity|].
  apply (endOfValidity_is_a_date html (lit "31/12/2020")). reflexivity.
Defined.

(** ** The two scripts *)

(** The markers of the prune script are markers of the seed script: a
    page the prune script flags has the same status for the seed script,
    which skips it, and a page the seed script imports is not flagged. *)
Theorem prune_markers_are_seed_markers html :
  (matched (Prune.isNoLongerInForce html) = true ->
   isNoLongerInForce html = Prune.isNoLongerInForce html)
  /\ (matched (isNoLongerInForce html) = false ->
      matched (Prune.isNoLongerInForce html) = false).
Proof.
  assert (S : existsb (fun re => test re html) Prune.MARKERS = true ->
              existsb (fun re => test re html) NO_LONGER_IN_FORCE_MARKERS = true).
  { rewrite !existsb_exists. intros (re & I & T). exists re. split; trivial.
    cbn in I |- *. tauto. }
  unfold isNoLongerInForce, Prune.isNoLongerInForce.
  destruct (existsb _ Prune.MARKERS) eqn:P.
  - rewrite (S eq_refl). split; [reflexivity | discriminate].
  - split; [discriminate | reflexivity].
Qed.

End StatusFacts.

(* ================================================================== *)
(** * The prune script: what it deletes *)
(* ================================================================== *)

Module PruneFacts.
Import JS Seed Effects.
Import Ingest Prune Scenarios.

Local Open Scope Z_scope.

(** The rows left when the documents of [deleted] are deleted one after
    the other. *)
Lemma filter_filter {A} (f g : A -> bool) l :
  filter f (filter g l) = filter (fun x => g x && f x) l.
Proof.
  induction l as [|x l IH]; [reflexivity|]. cbn [filter].
  destruct (g x); cbn [filter andb]; [destruct (f x)|]; now rewrite IH.
Qed.

Section Script.
Variable EURLEX_LANG : jsstring.
Variable encodeURIComponent : jsstring -> Error + jsstring.
Variable order_by_celex : list jsstring -> list jsstring.
Variable E : Type.
Variable fetch : jsstring -> E -> E * (Error + Response).
Variable fault : query -> E -> E * option Error.

#[local] Abbreviation scanOne_ :=
  (scanOne EURLEX_LANG encodeURIComponent order_by_celex E fetch fault).
#[local] Abbreviation scan_ :=
  (scan EURLEX_LANG encodeURIComponent order_by_celex E fetch fault).
#[local] Abbreviation prune_ :=
  (prune EURLEX_LANG encodeURIComponent order_by_celex E fetch fault).

(** The rows that are not of a document of [deleted]. *)
#[local] Abbreviation without deleted :=
  (filter (fun r : Row => negb (existsb (JS.eqb (row_celex r)) deleted))).

(** One document: it is not flagged; or it is flagged and nothing is
    deleted, in a dry run or because the statement was refused; or it is
    flagged and all its rows are deleted. *)
Lemma scanOne_spec opts celex s :
  let s' := fst (scanOne_ opts celex s) in
  let r := snd (scanOne_ opts celex s) in
  (documents s' = documents s /\ removed s' = removed s
   /\ flagged s' = flagged s
   /\ (r = inr tt \/ exists e, encodeURIComponent celex = inl e /\ r = inl e))
  \/ (documents s' = documents s /\ removed s' = removed s
      /\ (exists f, flagged s' = flagged s ++ [f] /\ flag_celex f = celex)
      /\ r = inr tt
      /\ (dryRun opts = true
          \/ exists e, snd (fault (DELETE_documents celex) e) <> None))
  \/ (dryRun opts = false
      /\ documents s'
         = filter (fun r => negb (JS.eqb (row_celex r) celex)) (documents s)
      /\ removed s' = removed s + 1
      /\ (exists f, flagged s' = flagged s ++ [f] /\ flag_celex f = celex)
      /\ r = inr tt).
Proof.
  cbv zeta. unfold scanOne.
  destruct (encodeURIComponent celex) as [e | encoded].
  { left. cbn. repeat split; eauto. }
  unfold catch, seq_, fetchText, do_fetch, seq_.
  destruct (fetch _ (world s)) as [e1 [err | res]]; cbn [fst snd].
  { left. unfold ret. cbn. repeat split; eauto. }
  destruct (negb (ok res)); unfold throw, ret; cbn [fst snd].
  { left. cbn. repeat split; eauto. }
  destruct (matched (isNoLongerInForce (res_text res))); cbn [fst snd].
  2:{ left. cbn. repeat split; eauto. }
  unfold push_flagged. cbn [fst snd].
  destruct (dryRun opts); cbn [negb].
  { right. left. cbn. repeat split; eauto. }
  unfold pool_query, incr_removed. cbn [world documents removed flagged].
  destruct (fault (DELETE_documents celex) e1) as [e2 [err | ]] eqn:F;
    cbn [fst snd].
  - right. left. cbn. repeat split; eauto. right. exists e1. now rewrite F.
  - right. right. cbn. repeat split; eauto.
Qed.

Lemma without_nil l : without [] l = l.
Proof.
  induction l as [|x l IH]; [reflexivity|]. cbn [filter existsb negb].
  f_equal. exact IH.
Qed.

Lemma without_cons celex deleted l :
  without deleted (filter (fun r => negb (JS.eqb (row_celex r) celex)) l)
  = without (celex :: deleted) l.
Proof.
  rewrite filter_filter. apply filter_ext. intros r. cbn [existsb].
  now rewrite negb_orb.
Qed.

(** The loop: the documents in [deleted] were flagged in it, and their
    rows are the ones that are gone. *)
Lemma scan_spec opts toScan : forall s,
  let s' := fst (scan_ opts toScan s) in
  let r := snd (scan_ opts toScan s) in
  exists deleted new,
    documents s' = without deleted (documents s)
    /\ flagged s' = flagged s ++ new
    /\ incl deleted (map flag_celex new)
    /\ incl (map flag_celex new) toScan
    /\ removed s' = removed s + Z.of_nat (length deleted)
    /\ (dryRun opts = true -> deleted = [])
    /\ (dryRun opts = false ->
        (forall c e, snd (fault (DELETE_documents c) e) = None) ->
        deleted = map flag_celex new)
    /\ (r = inr tt
        \/ exists c e, In c toScan /\ encodeURIComponent c = inl e /\ r = inl e).
Proof.
  induction toScan as [|celex rest IH]; intros s; cbv zeta.
  { exists [], []. cbn. rewrite without_nil, app_nil_r.
    repeat split; auto using incl_nil_l; lia. }
  cbn [scan]. unfold seq_.
  pose proof (scanOne_spec opts celex s) as H. cbv zeta in H.
  destruct (scanOne_ opts celex s) as [s1 [e | []]]; cbn [fst snd] in *.
  - (* the encoding of the CELEX number threw *)
    destruct H as [(D & R & F & X)
                  | [(_ & _ & _ & X & _) | (_ & _ & _ & _ & X)]];
      try discriminate.
    exists [], []. rewrite without_nil, app_nil_r. cbn [map length].
    repeat split; auto using incl_nil_l; try lia.
    right. destruct X as [X | (e' & X & [= <-])]; [discriminate|].
    exists celex, e. repeat split; auto. now left.
  - destruct (IH s1) as (deleted & new & D' & F' & I & J & R' & Y & Z & X').
    assert (X'' : snd (scan_ opts rest s1) = inr tt
                  \/ exists c e, In c (celex :: rest)
                                 /\ encodeURIComponent c = inl e
                                 /\ snd (scan_ opts rest s1) = inl e).
    { destruct X' as [X' | (c & e & Hc & He & X')]; [now left|].
      right. exists c, e. repeat split; auto. now right. }
    destruct H as [(D & R & F & _)
                  | [(D & R & (f & F & C) & _ & W)
                    | (N & D & R & (f & F & C) & _)]].
    + rewrite D, R, F in *. exists deleted, new.
      repeat split; auto. now apply incl_tl.
    + rewrite D, R in *. exists deleted, (f :: new).
      rewrite F, <- app_assoc in F'. cbn [map]. rewrite C.
      repeat split; auto.
      * now apply incl_tl.
      * apply incl_cons; [now left | now apply incl_tl].
      * intros N A. destruct W as [W | (e & W)]; [congruence|].
        now rewrite A in W.
    + exists (celex :: deleted), (f :: new).
      rewrite D, without_cons in D'. rewrite F, <- app_assoc in F'.
      cbn [map length]. rewrite C.
      repeat split; auto.
      * apply incl_cons; [now left | now apply incl_tl].
      * apply incl_cons; [now left | now apply incl_tl].
      * lia.
      * intros T. congruence.
      * intros _ A. f_equal. now apply Z.
Qed.

Lemma prune_eq opts s :
  prune_ opts s
  = match fault SELECT_DISTINCT_celex (world s) with
    | (e1, Some err) =>
        (mkState (documents s) e1 (removed s) (flagged s), inl err)
    | (e1, None) =>
        let listing := order_by_celex (distinct (map row_celex (documents s))) in
        let toScan := match limit opts with
                      | Some n => slice0 listing n
                      | None => listing
                      end in
        match scan_ opts toScan (mkState (documents s) e1 0 []) with
        | (s1, inl e) => (s1, inl e)
        | (s1, inr _) => (s1, inr (Z.of_nat (length toScan)))
        end
    end.
Proof.
  unfold prune, seq_, listCelex, pool_query, ret.
  destruct (fault SELECT_DISTINCT_celex (world s)) as [e1 [err | ]];
    reflexivity.
Qed.

(** The whole of [prune], from the listing on. *)
Lemma prune_spec opts s :
  let s' := fst (prune_ opts s) in
  let r := snd (prune_ opts s) in
  (exists e, snd (fault SELECT_DISTINCT_celex (world s)) = Some e
             /\ r = inl e /\ documents s' = documents s)
  \/ (snd (fault SELECT_DISTINCT_celex (world s)) = None
      /\ let listing := order_by_celex (distinct (map row_celex (documents s))) in
         let toScan := match limit opts with
                       | Some n => slice0 listing n
                       | None => listing
                       end in
         exists deleted,
           documents s' = without deleted (documents s)
           /\ incl deleted (map flag_celex (flagged s'))
           /\ incl (map flag_celex (flagged s')) toScan
           /\ removed s' = Z.of_nat (length deleted)
           /\ (dryRun opts = true -> deleted = [])
           /\ (dryRun opts = false ->
               (forall c e, snd (fault (DELETE_documents c) e) = None) ->
               deleted = map flag_celex (flagged s'))
           /\ (r = inr (Z.of_nat (length toScan))
               \/ exists c e, In c toScan /\ encodeURIComponent c = inl e
                              /\ r = inl e)).
Proof.
  cbv zeta. rewrite prune_eq.
  destruct (fault SELECT_DISTINCT_celex (world s)) as [e1 [err | ]];
    cbn [fst snd]; [left; eauto|].
  right. split; trivial.
  set (toScan := match limit opts with Some n => _ | None => _ end).
  set (s0 := mkState _ _ 0 []).
  destruct (scan_spec opts toScan s0)
    as (deleted & new & D & F & I & J & R & Y & Z & X).
  cbv zeta in D, F, R, X. exists deleted.
  destruct (scan_ opts toScan s0) as [s1 [e | []]]; cbn [fst snd] in *;
    subst s0; cbn [documents flagged removed app] in *; subst new;
    repeat split; auto.
  right. destruct X as [X | (c & e0 & C & N & [= <-])]; [discriminate|].
  now exists c, e.
Qed.

(** A dry run deletes nothing, whatever the pages say and whatever fails:
    the table is as it was, and a run that returns has counted no
    removal. *)
Theorem prune_dry_run_keeps_table opts s :
  dryRun opts = true ->
  let x := prune EURLEX_LANG encodeURIComponent order_by_celex E fetch fault
             opts s in
  documents (fst x) = documents s
  /\ forall n, snd x = inr n -> removed (fst x) = 0.
Proof.
  intros T x. subst x.
  destruct (prune_spec opts s) as [(e & _ & R & D) | (_ & H)].
  - split; [exact D|]. intros n. rewrite R. discriminate.
  - cbv zeta in H. destruct H as (deleted & D & _ & _ & R & Y & _).
    rewrite (Y T) in D, R. rewrite without_nil in D. now split.
Qed.

(** ** The run and what it was answered *)

#[local] Abbreviation scanOneL :=
  (scanOne EURLEX_LANG encodeURIComponent order_by_celex (E * Log)
     (logged_fetch fetch) (logged_fault fault)).
#[local] Abbreviation scanL :=
  (scan EURLEX_LANG encodeURIComponent order_by_celex (E * Log)
     (logged_fetch fetch) (logged_fault fault)).
#[local] Abbreviation pruneL :=
  (prune EURLEX_LANG encodeURIComponent order_by_celex (E * Log)
     (logged_fetch fetch) (logged_fault fault)).
#[local] Abbreviation page_of c p :=
  (exists enc, encodeURIComponent c = inr enc
               /\ fst p = BASE_URL EURLEX_LANG ++ enc).
#[local] Abbreviation flags scanned answered :=
  (flat_map (fun cp : jsstring * (jsstring * (Error + Response)) =>
               flag_of (fst cp) (snd (snd cp)))
     (combine scanned answered)).
#[local] Abbreviation deletes_of fl :=
  (map (fun f : Flag => DELETE_documents (flag_celex f)) fl).

(** One document, with the log. *)
Lemma scanOne_logged opts c s :
  scanOneL opts c s
  = match encodeURIComponent c with
    | inl e => (s, inl e)
    | inr enc =>
        let url := BASE_URL EURLEX_LANG ++ enc in
        let (e1, r) := fetch url (fst (world s)) in
        let log := snd (world s) in
        let pages1 := pages log ++ [(url, r)] in
        match flag_of c r with
        | [] =>
            (mkState (documents s) (e1, mkLog pages1 (statements log))
               (removed s) (flagged s), inr tt)
        | f :: _ =>
            if dryRun opts then
              (mkState (documents s) (e1, mkLog pages1 (statements log))
                 (removed s) (flagged s ++ [f]), inr tt)
            else
              let (e2, d) := fault (DELETE_documents c) e1 in
              let log2 :=
                mkLog pages1 (statements log ++ [(DELETE_documents c, d)]) in
              match d with
              | Some _ =>
                  (mkState (documents s) (e2, log2) (removed s)
                     (flagged s ++ [f]), inr tt)
              | None =>
                  (mkState
                     (filter (fun r => negb (JS.eqb (row_celex r) c))
                        (documents s))
                     (e2, log2) (removed s + 1) (flagged s ++ [f]), inr tt)
              end
        end
    end.
Proof.
  unfold scanOne. destruct (encodeURIComponent c) as [e | enc]; [reflexivity|].
  unfold catch, seq_, fetchText, do_fetch, seq_, logged_fetch.
  cbn [world fst snd]. cbv zeta.
  destruct (fetch _ (fst (world s))) as [e1 [err | res]]; cbn [fst snd flag_of].
  { reflexivity. }
  destruct (ok res); cbn [negb andb]; unfold throw, ret; cbn [fst snd];
    [|reflexivity].
  destruct (matched (isNoLongerInForce (res_text res))); cbn [fst snd];
    [|reflexivity].
  unfold push_flagged. cbn [fst snd].
  destruct (dryRun opts); cbn [negb]; [reflexivity|].
  unfold pool_query, incr_removed, logged_fault.
  cbn [world documents removed flagged fst snd pages statements].
  destruct (fault (DELETE_documents c) e1) as [e2 [err | ]]; reflexivity.
Qed.

(** Without the log the run is the run. *)
Lemma scanOne_unlogged opts c s :
  (unlogged (fst (scanOneL opts c s)), snd (scanOneL opts c s))
  = scanOne_ opts c (unlogged s).
Proof.
  rewrite scanOne_logged. unfold scanOne.
  destruct (encodeURIComponent c) as [e | enc]; [reflexivity|].
  unfold catch, seq_, fetchText, do_fetch, seq_, unlogged.
  cbn [world fst snd documents removed flagged]. cbv zeta.
  destruct (fetch _ (fst (world s))) as [e1 [err | res]]; cbn [fst snd flag_of].
  { reflexivity. }
  destruct (ok res); cbn [negb andb]; unfold throw, ret; cbn [fst snd];
    [|reflexivity].
  destruct (matched (isNoLongerInForce (res_text res))); cbn [fst snd];
    [|reflexivity].
  unfold push_flagged. cbn [fst snd].
  destruct (dryRun opts); cbn [negb]; [reflexivity|].
  unfold pool_query, incr_removed.
  cbn [world documents removed flagged fst snd].
  destruct (fault (DELETE_documents c) e1) as [e2 [err | ]]; reflexivity.
Qed.

Lemma scan_unlogged opts toScan : forall s,
  (unlogged (fst (scanL opts toScan s)), snd (scanL opts toScan s))
  = scan_ opts toScan (unlogged s).
Proof.
  induction toScan as [|c rest IH]; intros s; [reflexivity|].
  cbn [scan]. unfold seq_. rewrite <- scanOne_unlogged.
  destruct (scanOneL opts c s) as [s1 [e | []]]; cbn [fst snd]; [reflexivity|].
  apply IH.
Qed.

Lemma deleted_of_app l1 l2 :
  deleted_of (l1 ++ l2) = deleted_of l1 ++ deleted_of l2.
Proof. unfold deleted_of. apply flat_map_app. Qed.

Lemma without_app d1 d2 l : without d2 (without d1 l) = without (d1 ++ d2) l.
Proof.
  rewrite filter_filter. apply filter_ext. intros r.
  now rewrite existsb_app, negb_orb.
Qed.

(** The loop, with the log: the pages requested are those of the
    documents scanned, in order; the flags are those the answers give; a
    [DELETE] is sent for every flag unless the run is dry; and the rows gone
    are those of the documents whose [DELETE] was not refused. *)
Lemma scan_logged opts toScan : forall s,
  let x := scanL opts toScan s in
  exists scanned rest answered sent,
    toScan = scanned ++ rest
    /\ pages (snd (world (fst x))) = pages (snd (world s)) ++ answered
    /\ statements (snd (world (fst x))) = statements (snd (world s)) ++ sent
    /\ Forall2 (fun c p => page_of c p) scanned answered
    /\ flagged (fst x) = flagged s ++ flags scanned answered
    /\ map fst sent
       = (if dryRun opts then [] else deletes_of (flags scanned answered))
    /\ documents (fst x) = without (deleted_of sent) (documents s)
    /\ removed (fst x) = removed s + Z.of_nat (length (deleted_of sent))
    /\ match snd x with
       | inr _ => rest = []
       | inl e => exists c rest', rest = c :: rest'
                                  /\ encodeURIComponent c = inl e
       end.
Proof.
  induction toScan as [|c toScan IH]; intros s; cbv zeta.
  { exists [], [], [], []. cbn. rewrite !app_nil_r, without_nil.
    repeat split; auto; [now destruct (dryRun opts) | lia]. }
  cbn [scan]. unfold seq_. rewrite scanOne_logged.
  destruct (encodeURIComponent c) as [e | enc] eqn:Enc.
  { exists [], (c :: toScan), [], []. cbn. rewrite !app_nil_r, without_nil.
    repeat split; auto; [now destruct (dryRun opts) | lia | eauto]. }
  cbv zeta. destruct (fetch _ (fst (world s))) as [e1 r].
  assert (Step : forall s1 sent1 fl,
    flag_of c r = fl ->
    pages (snd (world s1)) = pages (snd (world s)) ++ [(BASE_URL EURLEX_LANG ++ enc, r)] ->
    statements (snd (world s1)) = statements (snd (world s)) ++ sent1 ->
    flagged s1 = flagged s ++ fl ->
    map fst sent1 = (if dryRun opts then [] else deletes_of fl) ->
    documents s1 = without (deleted_of sent1) (documents s) ->
    removed s1 = removed s + Z.of_nat (length (deleted_of sent1)) ->
    exists scanned rest answered sent,
      c :: toScan = scanned ++ rest
      /\ pages (snd (world (fst (scanL opts toScan s1))))
         = pages (snd (world s)) ++ answered
      /\ statements (snd (world (fst (scanL opts toScan s1))))
         = statements (snd (world s)) ++ sent
      /\ Forall2 (fun c p => page_of c p) scanned answered
      /\ flagged (fst (scanL opts toScan s1))
         = flagged s ++ flags scanned answered
      /\ map fst sent
         = (if dryRun opts then [] else deletes_of (flags scanned answered))
      /\ documents (fst (scanL opts toScan s1))
         = without (deleted_of sent) (documents s)
      /\ removed (fst (scanL opts toScan s1))
         = removed s + Z.of_nat (length (deleted_of sent))
      /\ match snd (scanL opts toScan s1) with
         | inr _ => rest = []
         | inl e => exists c rest', rest = c :: rest'
                                    /\ encodeURIComponent c = inl e
         end).
  { intros s1 sent1 fl Fl P S F M D R.
    destruct (IH s1) as (scanned & rest & answered & sent
                         & T & P' & S' & A & F' & M' & D' & R' & X).
    cbv zeta in *.
    exists (c :: scanned), rest,
           ((BASE_URL EURLEX_LANG ++ enc, r) :: answered), (sent1 ++ sent).
    cbn [combine flat_map fst snd]. rewrite Fl.
    rewrite P', P, S', S, F', F, D', D, R', R, <- !app_assoc.
    rewrite deleted_of_app, without_app, length_app, map_app, M, M'.
    repeat split; auto.
    - cbn [app]. now rewrite T.
    - constructor; trivial. now exists enc.
    - destruct (dryRun opts); [reflexivity|]. symmetry. apply map_app.
    - lia. }
  destruct (flag_of c r) as [|f fl] eqn:Fl.
  { apply (Step _ [] []); cbn [world fst snd pages statements documents
      removed flagged deleted_of flat_map map length];
      rewrite ?app_nil_r, ?without_nil; auto; [now destruct (dryRun opts) | lia]. }
  assert (fl = []) as ->.
  { destruct r as [err | res]; [discriminate|]. cbn [flag_of] in Fl.
    destruct (_ && _); now inversion Fl. }
  destruct (dryRun opts) eqn:Dry.
  { apply (Step _ [] [f]); cbn [world fst snd pages statements documents
      removed flagged deleted_of flat_map map length];
      rewrite ?app_nil_r, ?without_nil, ?Dry; auto. lia. }
  assert (C : flag_celex f = c).
  { destruct r as [err | res]; [discriminate|]. cbn [flag_of] in Fl.
    destruct (_ && _); now inversion Fl. }
  destruct (fault (DELETE_documents c) e1) as [e2 [err | ]].
  - apply (Step _ [(DELETE_documents c, Some err)] [f]);
      cbn [world fst snd pages statements documents removed flagged
           deleted_of flat_map map length app];
      rewrite ?without_nil, ?Dry, ?C; auto. lia.
  - apply (Step _ [(DELETE_documents c, None)] [f]);
      cbn [world fst snd pages statements documents removed flagged
           deleted_of flat_map map length app];
      rewrite ?Dry, ?C; auto.
    apply filter_ext. intros row. cbn [existsb]. now rewrite orb_false_r.
Qed.

Lemma pruneL_eq opts s :
  pruneL opts s
  = let (e1, f) := fault SELECT_DISTINCT_celex (fst (world s)) in
    let log1 := mkLog (pages (snd (world s)))
                  (statements (snd (world s))
                     ++ [(SELECT_DISTINCT_celex, f)]) in
    match f with
    | Some err =>
        (mkState (documents s) (e1, log1) (removed s) (flagged s), inl err)
    | None =>
        let listing := order_by_celex (distinct (map row_celex (documents s))) in
        let toScan := match limit opts with
                      | Some n => slice0 listing n
                      | None => listing
                      end in
        match scanL opts toScan (mkState (documents s) (e1, log1) 0 []) with
        | (s1, inl e) => (s1, inl e)
        | (s1, inr _) => (s1, inr (Z.of_nat (length toScan)))
        end
    end.
Proof.
  unfold prune, seq_, listCelex, pool_query, ret, logged_fault.
  destruct (fault SELECT_DISTINCT_celex (fst (world s))) as [e1 [err | ]];
    reflexivity.
Qed.

(** What [prune] deletes.  The run is seen with a log of what it was
    answered, which changes nothing else of it.  When the listing is
    answered, the documents scanned are the listed ones, in order, up to
    one whose number cannot be encoded, and all of them when [prune]
    returns; the page of each is requested once, and a document is flagged
    exactly when that request is answered by an ok response whose text
    [isNoLongerInForce] matches.  Unless the run is dry, a [DELETE] is sent
    for every flagged document and for no other; the rows that are gone are
    those of the documents whose [DELETE] was not refused, and [removed]
    counts these documents. *)
Theorem prune_deletes_flagged_documents opts s :
  let x := pruneL opts (mkState (documents s) (world s, mkLog [] [])
                          (removed s) (flagged s)) in
  let log := snd (world (fst x)) in
  (unlogged (fst x), snd x)
  = prune EURLEX_LANG encodeURIComponent order_by_celex E fetch fault opts s
  /\ (snd (fault SELECT_DISTINCT_celex (world s)) = None ->
      let listing := order_by_celex (distinct (map row_celex (documents s))) in
      let toScan := match limit opts with
                    | Some n => slice0 listing n
                    | None => listing
                    end in
      exists scanned rest sent,
        toScan = scanned ++ rest
        /\ (forall n, snd x = inr n -> rest = [])
        /\ Forall2 (fun c p => page_of c p) scanned (pages log)
        /\ flagged (fst x) = flags scanned (pages log)
        /\ statements log = (SELECT_DISTINCT_celex, None) :: sent
        /\ map fst sent
           = (if dryRun opts then [] else deletes_of (flagged (fst x)))
        /\ documents (fst x) = without (deleted_of sent) (documents s)
        /\ removed (fst x) = Z.of_nat (length (deleted_of sent))).
Proof.
  cbv zeta. rewrite pruneL_eq, prune_eq.
  cbn [world documents removed flagged fst snd pages statements app].
  destruct (fault SELECT_DISTINCT_celex (world s)) as [e1 [err | ]];
    cbn [fst snd].
  { split; [now destruct s | discriminate]. }
  cbv zeta.
  set (toScan := match limit opts with Some n => _ | None => _ end).
  set (s1 := mkState (documents s)
               (e1, mkLog [] [(SELECT_DISTINCT_celex, None)]) 0 []).
  pose proof (scan_unlogged opts toScan s1) as Un.
  destruct (scan_logged opts toScan s1)
    as (scanned & rest & answered & sent & T & P & S & A & F & M & D & R & X).
  cbv zeta in *.
  change (unlogged s1) with (mkState (documents s) e1 0 []) in Un.
  destruct (scanL opts toScan s1) as [s2 [e | []]]; cbn [fst snd] in *;
    rewrite <- Un; (split; [reflexivity|]); intros _;
    exists scanned, rest, sent;
    cbn [s1 world fst snd pages statements documents removed flagged app] in *;
    rewrite P, S, F, D, R, M; repeat split; auto; discriminate.
Qed.

(** [prune] throws only when the listing of the documents is refused or
    a CELEX number cannot be encoded: a page that cannot be fetched and a
    [DELETE] that is refused do not stop it.  When it returns, it has
    checked the listed documents, or the first [limit] of them. *)
Theorem prune_throws_only_on_listing opts s :
  match snd (prune_ opts s) with
  | inl e =>
      snd (fault SELECT_DISTINCT_celex (world s)) = Some e
      \/ exists c, encodeURIComponent c = inl e
  | inr n =>
      let listing := order_by_celex (distinct (map row_celex (documents s))) in
      n = Z.of_nat (length (match limit opts with
                            | Some n => slice0 listing n
                            | None => listing
                            end))
  end.
Proof.
  destruct (prune_spec opts s) as [(e & F & R & D) | (F & H)].
  - rewrite R. now left.
  - cbv zeta in H. destruct H as (deleted & _ & _ & _ & _ & _ & _ & X).
    destruct X as [-> | (c & e & _ & C & ->)]; [reflexivity|].
    right. now exists c.
Qed.

End Script.

Lemma prune_dry_run_keeps_table_witness :
  documents (fst (prune_two true)) = two_documents
  /\ map flag_celex (flagged (fst (prune_two true))) = [lit "31996L0001"]
  /\ snd (prune_two true) = inr 2.
Proof.
  split; [|split; reflexivity].
  apply (prune_dry_run_keeps_table (lit "EN") (fun s => inr s) (fun l => l)
           unit status_pages (fun _ e => (e, None)) (mkOptions true None)
           (mkState two_documents tt 0 [])).
  reflexivity.
Defined.

(** The same store pruned for good: the rows of the flagged document are
    gone and the rows of the other document are as they were. *)
Example prune_two_documents :
  prune_two false
  = (mkState
       [ mkRow (lit "32016R0679") (lit "32016R0679") 0 (lit "a") (lit "[0.5]");
         mkRow (lit "32016R0679") (lit "32016R0679") 1 (lit "c") (lit "[0.5]") ]
       tt 1 [mkFlag (lit "31996L0001") None],
     inr 2).
Proof. reflexivity. Qed.

End PruneFacts.

(* ================================================================== *)
(** * The tokens of a page *)
(* ================================================================== *)

Module ParseFacts.
Import JS Seed Effects.
Import Spec TextFacts CleaningFacts Ingest Parse Observations.

(** ** The loop that coalesces headings *)

Lemma coalesceStep_nil t : coalesceStep [] t = [t].
Proof. reflexivity. Qed.

Lemma coalesceStep_snoc front last t :
  coalesceStep (front ++ [last]) t
  = if is_heading last && is_heading t
    then front ++ [mkToken (type last) (text last ++ [LF] ++ text t)]
    else front ++ [last; t].
Proof.
  unfold coalesceStep. rewrite rev_app_distr. cbn [rev app].
  rewrite rev_involutive.
  destruct (is_heading last && is_heading t); [reflexivity|].
  now rewrite <- app_assoc.
Qed.

(** Whatever holds of the empty list and is kept by a step holds of the
    result. *)
Lemma coalesce_ind (P : list Token -> Prop) (Q : Token -> Prop) tokens :
  (forall merged t, P merged -> Q t -> P (coalesceStep merged t)) ->
  Forall Q tokens -> forall merged, P merged ->
  P (fold_left coalesceStep tokens merged).
Proof.
  intros Step. induction 1 as [|t tokens Ht _ IH]; intros merged H;
    cbn [fold_left]; auto.
Qed.

Lemma last_cases {A} (l : list A) : l = [] \/ exists front last, l = front ++ [last].
Proof.
  destruct (rev l) as [|x r] eqn:E.
  - left. apply (f_equal (@rev A)) in E. now rewrite rev_involutive in E.
  - right. exists (rev r), x. apply (f_equal (@rev A)) in E.
    now rewrite rev_involutive in E.
Qed.

Lemma no_heading_pair_snoc front last t :
  no_heading_pair (front ++ [last]) ->
  is_heading last && is_heading t = false ->
  no_heading_pair (front ++ [last; t]).
Proof.
  induction front as [|a front IH]; intros H N.
  - cbn. auto.
  - destruct front as [|b front].
    + cbn in H |- *. destruct H as [H _]. auto.
    + cbn [app no_heading_pair] in H |- *. destruct H as [H1 H2].
      split; trivial. now apply IH.
Qed.

Lemma no_heading_pair_last front last last' :
  no_heading_pair (front ++ [last]) ->
  is_heading last' = is_heading last ->
  no_heading_pair (front ++ [last']).
Proof.
  induction front as [|a front IH]; intros H E.
  - exact I.
  - destruct front as [|b front].
    + cbn in H |- *. destruct H as [H _]. now rewrite E.
    + cbn [app no_heading_pair] in H |- *. destruct H as [H1 H2].
      split; trivial. now apply IH.
Qed.

Lemma coalesceStep_no_heading_pair merged t :
  no_heading_pair merged -> no_heading_pair (coalesceStep merged t).
Proof.
  intros H. destruct (last_cases merged) as [-> | (front & last & ->)].
  - exact I.
  - rewrite coalesceStep_snoc.
    destruct (is_heading last && is_heading t) eqn:E.
    + now apply (no_heading_pair_last front last).
    + now apply no_heading_pair_snoc.
Qed.

Lemma coalesceStep_nonblank merged t :
  Forall (fun t => nonblank (text t)) merged -> nonblank (text t) ->
  Forall (fun t => nonblank (text t)) (coalesceStep merged t).
Proof.
  intros H Ht. destruct (last_cases merged) as [-> | (front & last & ->)].
  - now constructor.
  - rewrite coalesceStep_snoc. apply Forall_app in H. destruct H as [Hf Hl].
    destruct (is_heading last && is_heading t);
      apply Forall_app; split; trivial.
    + constructor; [|constructor]. cbn [text]. unfold nonblank in *.
      rewrite nw_app. inversion Hl; subst. now destruct (nw (text last)).
    + inversion Hl; subst. now repeat constructor.
Qed.

Lemma coalesceStep_content merged t :
  nw (concat (map text (coalesceStep merged t)))
  = nw (concat (map text merged)) ++ nw (text t).
Proof.
  destruct (last_cases merged) as [-> | (front & last & ->)].
  - cbn. now rewrite app_nil_r.
  - rewrite coalesceStep_snoc.
    destruct (is_heading last && is_heading t);
      rewrite !map_app, !concat_app, !nw_app; cbn [map concat text];
      rewrite ?app_nil_r, ?nw_app, <- ?app_assoc; reflexivity.
Qed.

Lemma coalesce_content tokens : forall merged,
  nw (concat (map text (fold_left coalesceStep tokens merged)))
  = nw (concat (map text merged)) ++ nw (concat (map text tokens)).
Proof.
  induction tokens as [|t tokens IH]; intros merged; cbn [fold_left map concat].
  - now rewrite app_nil_r.
  - now rewrite IH, coalesceStep_content, nw_app, app_assoc.
Qed.

(** ** The loop over the nodes *)

Lemma bullet_not_ws : is_ws BULLET = false.
Proof. reflexivity. Qed.

Lemma truthy_nw_cleanText s : truthy (cleanText s) = truthy (nw s).
Proof.
  destruct (cleanText s) eqn:C.
  - apply cleanText_nil_iff in C. now rewrite C.
  - destruct (nw s) eqn:N; [|reflexivity].
    apply cleanText_nil_iff in N. congruence.
Qed.

Lemma tokenOf_content n :
  nw (match tokenOf n with Some t => text t | None => [] end) = node_content n.
Proof.
  unfold tokenOf, node_content. rewrite <- truthy_nw_cleanText.
  destruct (truthy (cleanText (node_text n))) eqn:T.
  - cbn [text]. rewrite andb_true_r.
    destruct (match tagName n with Some _ => _ | None => _ end).
    + rewrite nw_app. now rewrite nw_cleanText.
    + now rewrite nw_cleanText.
  - rewrite andb_false_r. cbn [app].
    rewrite truthy_nw_cleanText in T. now destruct (nw (node_text n)).
Qed.

Lemma tokensOf_content nodes :
  nw (concat (map text (tokensOf nodes))) = concat (map node_content nodes).
Proof.
  induction nodes as [|n nodes IH]; [reflexivity|].
  cbn [tokensOf map concat]. rewrite <- tokenOf_content, <- IH.
  destruct (tokenOf n) as [t|]; cbn [map concat]; [apply nw_app | reflexivity].
Qed.

Lemma tokenOf_nonblank n t : tokenOf n = Some t -> nonblank (text t).
Proof.
  unfold tokenOf. destruct (truthy (cleanText (node_text n))) eqn:T;
    [|discriminate].
  intros [= <-]. cbn [text]. unfold nonblank.
  rewrite truthy_nw_cleanText in T.
  destruct (match tagName n with Some _ => _ | None => _ end).
  - rewrite (nw_cons_nws bullet_not_ws). discriminate.
  - rewrite nw_cleanText. now destruct (nw (node_text n)).
Qed.

Lemma tokensOf_nonblank nodes :
  Forall (fun t => nonblank (text t)) (tokensOf nodes).
Proof.
  induction nodes as [|n nodes IH]; [constructor|]. cbn [tokensOf].
  destruct (tokenOf n) as [t|] eqn:E; trivial.
  constructor; trivial. now apply (tokenOf_nonblank n).
Qed.

(** ** List items *)

Lemma trim_bullet s : exists u, trim ([BULLET; SP] ++ s) = BULLET :: u.
Proof.
  unfold trim. cbn [app trimStart]. rewrite bullet_not_ws.
  now apply trimEnd_head.
Qed.

Lemma bullet_is_no_heading s : isLikelyHeading ([BULLET; SP] ++ s) = false.
Proof.
  unfold isLikelyHeading. destruct (trim_bullet s) as [u ->]. reflexivity.
Qed.

(** A list item is a text token, whatever its text: the bullet put before
    the text keeps [isLikelyHeading] from taking it for a heading. *)
Theorem list_item_is_text text_ t :
  tokenOf (mkNode (Some (lit "li")) text_) = Some t ->
  type t = Text
  /\ text t = [BULLET; SP] ++ cleanText text_.
Proof.
  unfold tokenOf. cbn [tagName node_text].
  destruct (truthy (cleanText text_)); [|discriminate].
  change (JS.eqb (lit "li") (lit "li")) with true.
  change (starts_with (lit "h") (lit "li")) with false. cbn [orb].
  rewrite bullet_is_no_heading. now intros [= <-].
Qed.

Lemma list_item_is_text_witness :
  tokenOf (mkNode (Some (lit "li")) (lit "  Article 5  "))
  = Some (mkToken Text ([BULLET; SP] ++ lit "Article 5"))
  /\ (Text = Text
      /\ [BULLET; SP] ++ lit "Article 5"
         = [BULLET; SP] ++ cleanText (lit "  Article 5  ")).
Proof.
  split; [reflexivity|].
  apply (list_item_is_text (lit "  Article 5  ")
           (mkToken Text ([BULLET; SP] ++ lit "Article 5"))).
  reflexivity.
Defined.

(** ** The tokens of a page *)

Lemma extractMainTokens_no_heading_pair select html :
  no_heading_pair (extractMainTokens select html).
Proof.
  unfold extractMainTokens, coalesce.
  apply (coalesce_ind no_heading_pair (fun _ => True)).
  - intros merged t H _. now apply coalesceStep_no_heading_pair.
  - apply Forall_forall. trivial.
  - exact I.
Qed.

Lemma extractMainTokens_nonblank select html :
  Forall (fun t => nonblank (text t)) (extractMainTokens select html).
Proof.
  unfold extractMainTokens, coalesce.
  apply (coalesce_ind (Forall (fun t => nonblank (text t)))
           (fun t => nonblank (text t))).
  - apply coalesceStep_nonblank.
  - apply tokensOf_nonblank.
  - constructor.
Qed.

Lemma extractMainTokens_content select html :
  nw (concat (map text (extractMainTokens select html)))
  = concat (map node_content (select html)).
Proof.
  unfold extractMainTokens, coalesce. rewrite coalesce_content.
  cbn [map concat]. apply tokensOf_content.
Qed.

(** The tokens [extractMainTokens] returns, whatever elements were
    selected: no two headings follow one another, no token has a blank
    text, and the non-whitespace content of the tokens is that of the
    elements, in order, each list item after a bullet. *)
Theorem extractMainTokens_tokens select html :
  let tokens := extractMainTokens select html in
  no_heading_pair tokens
  /\ Forall (fun t => nonblank (text t)) tokens
  /\ nw (concat (map text tokens)) = concat (map node_content (select html)).
Proof.
  cbv zeta. repeat split.
  - apply extractMainTokens_no_heading_pair.
  - apply extractMainTokens_nonblank.
  - apply extractMainTokens_content.
Qed.

(** Two headings in a row become one token with both texts, and a body
    between them keeps them apart. *)
Example coalesce_example :
  coalesce [heading_ "CAPITOLUL I"; heading_ "Articolul 1"; body_ "Unu.";
            heading_ "Articolul 2"]
  = [mkToken Heading (lit "CAPITOLUL I" ++ [LF] ++ lit "Articolul 1");
     body_ "Unu."; heading_ "Articolul 2"].
Proof. reflexivity. Qed.

Example isLikelyHeading_examples :
  isLikelyHeading (lit "  articolul 12") = true
  /\ isLikelyHeading (lit "IV. Dispozitii") = true
  /\ isLikelyHeading (lit "IV.Dispozitii") = false
  /\ isLikelyHeading (lit "In sensul prezentului regulament") = false.
Proof. repeat split. Qed.

End ParseFacts.

(* ================================================================== *)
(** * The form of cleaned text *)
(* ================================================================== *)

Module CleanFacts.
Import JS Seed Effects.
Import Spec TextFacts CleaningFacts Observations.

(** ** What trimming leaves *)

Lemma trimStart_suffix s : exists w, s = w ++ trimStart s.
Proof.
  induction s as [|c s [w IH]]; [now exists []|]. cbn [trimStart].
  destruct (is_ws c).
  - exists (c :: w). cbn [app]. now f_equal.
  - now exists [].
Qed.

Lemma trimEnd_prefix s : exists w, s = trimEnd s ++ w.
Proof.
  unfold trimEnd. destruct (trimStart_suffix (rev s)) as [w E].
  exists (rev w). apply (f_equal (@rev char)) in E.
  now rewrite rev_involutive, rev_app_distr in E.
Qed.

Lemma trim_middle s : exists a b, s = a ++ trim s ++ b.
Proof.
  unfold trim. destruct (trimStart_suffix s) as [a Ea].
  destruct (trimEnd_prefix (trimStart s)) as [b Eb].
  exists a, b. now rewrite <- Eb.
Qed.

Lemma trimStart_head s c u : trimStart s = c :: u -> is_ws c = false.
Proof.
  induction s as [|d s IH]; cbn [trimStart]; [discriminate|].
  destruct (is_ws d) eqn:E; [exact IH|]. now intros [= <- <-].
Qed.

Lemma trimStart_fixed c s : is_ws c = false -> trimStart (c :: s) = c :: s.
Proof. intros H. cbn [trimStart]. now rewrite H. Qed.

Lemma trimmed_trim s : trimmed (trim s) = true.
Proof.
  unfold trimmed, trim. apply andb_true_iff. split.
  - destruct (trimStart s) as [|c u] eqn:E; [reflexivity|].
    pose proof (trimStart_head _ _ _ E) as Hc.
    destruct (trimEnd_head u Hc) as [v ->]. now rewrite Hc.
  - unfold trimEnd. rewrite rev_involutive.
    destruct (trimStart (rev (trimStart s))) as [|c u] eqn:E; [reflexivity|].
    now rewrite (trimStart_head _ _ _ E).
Qed.

Lemma trim_fixed s : trimmed s = true -> trim s = s.
Proof.
  unfold trimmed. intros H%andb_true_iff. destruct H as [H1 H2].
  unfold trim, trimEnd. destruct s as [|c s]; [reflexivity|].
  apply negb_true_iff in H1. rewrite (trimStart_fixed _ _ H1).
  destruct (rev (c :: s)) as [|d r] eqn:E.
  - apply (f_equal (@rev char)) in E. now rewrite rev_involutive in E.
  - apply negb_true_iff in H2. rewrite (trimStart_fixed _ _ H2), <- E.
    apply rev_involutive.
Qed.

(** ** Properties of the code units *)

Section Runs.
Variable P : char -> bool.
Variable k : nat.
Variable rep : jsstring.

Lemma Forall_replace_runs_from (Q : char -> Prop) :
  Forall Q rep -> forall s run,
  Forall Q run -> Forall Q s -> Forall Q (replace_runs_from P k rep run s).
Proof.
  intros Hrep. induction s as [|c s IH]; intros run Hrun Hs;
    cbn [replace_runs_from].
  - unfold emit. now destruct (k <=? length run)%nat.
  - inversion Hs; subst. destruct (P c).
    + apply IH; trivial. apply Forall_app. split; trivial. now constructor.
    + apply Forall_app. split.
      * unfold emit. now destruct (k <=? length run)%nat.
      * constructor; trivial. now apply IH.
Qed.

Lemma Forall_replace_runs (Q : char -> Prop) s :
  Forall Q rep -> Forall Q s -> Forall Q (replace_runs P k rep s).
Proof. intros Hrep Hs. now apply Forall_replace_runs_from. Qed.

(** A text without code units of the class is left as it is. *)
Lemma replace_runs_none s :
  (0 < k)%nat -> Forall (fun c => P c = false) s -> replace_runs P k rep s = s.
Proof.
  intros Hk. unfold replace_runs. induction 1 as [|c s Hc _ IH];
    cbn [replace_runs_from].
  - unfold emit. cbn [length]. now destruct k.
  - rewrite Hc, IH. unfold emit. cbn [length]. now destruct k.
Qed.
End Runs.

(** With [k = 1] every code unit of the class goes. *)
Lemma replace_runs_all P rep : Forall (fun c => P c = false) rep ->
  forall s run,
  Forall (fun c => P c = false) (replace_runs_from P 1 rep run s).
Proof.
  intros Hrep. induction s as [|c s IH]; intros run; cbn [replace_runs_from].
  - unfold emit. destruct run; cbn; [constructor | exact Hrep].
  - destruct (P c) eqn:E; [apply IH|].
    apply Forall_app. split.
    + unfold emit. destruct run; cbn; [constructor | exact Hrep].
    + constructor; trivial.
Qed.

(** ** Single code units of a class *)

Section Singles.
Variable P : char -> bool.
Variable x : char.

Lemma singles_from_weaken b s :
  singles_from P x b s = true -> singles_from P x false s = true.
Proof.
  destruct s as [|c s]; [reflexivity|]. cbn [singles_from].
  destruct (P c); [|trivial]. destruct b; [discriminate | trivial].
Qed.

Lemma singles_from_suffix a : forall b s,
  singles_from P x b (a ++ s) = true -> singles_from P x false s = true.
Proof.
  induction a as [|c a IH]; intros b s; cbn [app].
  - apply singles_from_weaken.
  - cbn [singles_from]. destruct (P c); [|apply IH].
    intros H%andb_true_iff. destruct H as [_ H]. now apply IH in H.
Qed.

Lemma singles_from_prefix s : forall b t,
  singles_from P x b (s ++ t) = true -> singles_from P x b s = true.
Proof.
  induction s as [|c s IH]; intros b t; cbn [app singles_from]; [reflexivity|].
  destruct (P c); [|apply IH].
  intros H%andb_true_iff. destruct H as [H1 H2].
  rewrite H1. cbn [andb]. now apply IH in H2.
Qed.

Lemma singles_trim s : singles P x s = true -> singles P x (trim s) = true.
Proof.
  unfold singles. destruct (trim_middle s) as (a & b & E).
  rewrite E at 1. intros H%singles_from_suffix. now apply singles_from_prefix in H.
Qed.

(** Text without code units of the class. *)
Lemma singles_from_none b s :
  Forall (fun c => P c = false) s -> singles_from P x b s = true.
Proof.
  intros H. revert b. induction H as [|c s Hc _ IH]; intros b; [reflexivity|].
  cbn [singles_from]. rewrite Hc. apply IH.
Qed.

Lemma singles_from_none_app e : forall b s,
  Forall (fun c => P c = false) e ->
  singles_from P x b (e ++ s)
  = singles_from P x (match e with [] => b | _ => false end) s.
Proof.
  induction e as [|c e IH]; intros b s H; [reflexivity|].
  inversion H; subst. cbn [app singles_from]. rewrite H2, IH by trivial.
  now destruct e.
Qed.

Hypothesis Px : P x = true.

(** After the replacement of every run of the class by [x].  *)
Lemma singles_replace_runs_from s : forall run,
  match run with
  | [] => singles_from P x false (replace_runs_from P 1 [x] run s) = true
  | _ :: _ =>
      exists t, replace_runs_from P 1 [x] run s = x :: t
                /\ singles_from P x true t = true
  end.
Proof.
  induction s as [|c s IH]; intros run; cbn [replace_runs_from].
  - destruct run; cbn; [reflexivity | eauto].
  - destruct (P c) eqn:E.
    + specialize (IH (run ++ [c])).
      destruct (run ++ [c]) eqn:R; [now destruct run|].
      destruct IH as (t & -> & H). destruct run.
      * cbn [singles_from]. now rewrite Px, N.eqb_refl, H.
      * eauto.
    + specialize (IH []). cbn in IH. destruct run.
      * change (emit 1 [x] []) with (@nil char).
        cbn [app singles_from]. now rewrite E.
      * exists (c :: replace_runs_from P 1 [x] [] s). split; [reflexivity|].
        cbn [singles_from]. now rewrite E.
Qed.

Lemma singles_replace_runs s : singles P x (replace_runs P 1 [x] s) = true.
Proof. exact (singles_replace_runs_from s []). Qed.

(** A text of single [x]s is left as it is. *)
Lemma replace_runs_singles_from s :
  (singles_from P x false s = true -> replace_runs_from P 1 [x] [] s = s)
  /\ (singles_from P x true s = true ->
      replace_runs_from P 1 [x] [x] s = x :: s).
Proof.
  induction s as [|c s [IH0 IH1]]; cbn [replace_runs_from singles_from].
  - split; reflexivity.
  - destruct (P c) eqn:E.
    + split; [|discriminate].
      intros H%andb_true_iff. destruct H as [H1 H2].
      apply N.eqb_eq in H1. subst c. cbn [app]. now apply IH1.
    + split; intros H; cbn [emit length app]; cbn; now rewrite (IH0 H).
Qed.

Lemma replace_runs_singles s :
  singles P x s = true -> replace_runs P 1 [x] s = s.
Proof. apply replace_runs_singles_from. Qed.
End Singles.

(** The replacement of runs of another class keeps the singles. *)
Lemma singles_kept P x P' k rep :
  (forall c, P' c = true -> P c = false) ->
  Forall (fun c => P c = false) rep -> rep <> [] ->
  forall s run b,
    Forall (fun c => P' c = true) run ->
    singles_from P x b (run ++ s) = true ->
    singles_from P x b (replace_runs_from P' k rep run s) = true.
Proof.
  intros Hd Hrep Hne.
  assert (Hrun : forall run, Forall (fun c => P' c = true) run ->
                             Forall (fun c => P c = false) run).
  { intros run H. eapply Forall_impl; [|exact H]. exact Hd. }
  assert (Hemit : forall run b t,
             Forall (fun c => P' c = true) run ->
             singles_from P x b (run ++ t) = true ->
             forall t', (singles_from P x false t = true ->
                         singles_from P x false t' = true) ->
                        (singles_from P x b t = true ->
                         singles_from P x b t' = true) ->
             singles_from P x b (emit k rep run ++ t') = true).
  { intros run b t Hr H t' H0 Hb.
    rewrite singles_from_none_app in H by auto.
    rewrite singles_from_none_app.
    - unfold emit. destruct run as [|d run].
      + destruct (k <=? length (@nil char))%nat; [|auto].
        destruct rep; [congruence|]. apply H0. eapply singles_from_weaken; eauto.
      + destruct (k <=? length (d :: run))%nat; [|auto].
        destruct rep; [congruence | auto].
    - unfold emit. destruct (k <=? length run)%nat; auto. }
  induction s as [|c s IH]; intros run b Hr H; cbn [replace_runs_from].
  - rewrite <- (app_nil_r (emit k rep run)).
    eapply Hemit; eauto.
  - destruct (P' c) eqn:E.
    + apply IH.
      * apply Forall_app. split; trivial. now constructor.
      * now rewrite <- app_assoc.
    + eapply Hemit; eauto.
      * cbn [singles_from]. destruct (P c).
        -- intros G%andb_true_iff. destruct G as [G1 G2]. rewrite G1.
           cbn [andb]. apply (IH [] true); [constructor | exact G2].
        -- apply (IH [] false). constructor.
      * cbn [singles_from]. destruct (P c).
        -- intros G%andb_true_iff. destruct G as [G1 G2]. rewrite G1.
           cbn [andb]. apply (IH [] true); [constructor | exact G2].
        -- apply (IH [] false). constructor.
Qed.

(** ** Runs shorter than [k] *)

Section Below.
Variable P : char -> bool.
Variable k : nat.

Lemma runs_below_from_weaken s : forall n m,
  (m <= n)%nat -> runs_below_from P k n s = true ->
  runs_below_from P k m s = true.
Proof.
  induction s as [|c s IH]; intros n m L; cbn [runs_below_from]; [reflexivity|].
  destruct (P c); [|trivial].
  intros H%andb_true_iff. destruct H as [H1 H2].
  apply Nat.ltb_lt in H1. apply andb_true_iff. split.
  - apply Nat.ltb_lt. lia.
  - apply (IH (S n)); [lia | exact H2].
Qed.

Lemma runs_below_from_suffix a : forall n s,
  runs_below_from P k n (a ++ s) = true -> runs_below_from P k 0 s = true.
Proof.
  induction a as [|c a IH]; intros n s; cbn [app].
  - apply runs_below_from_weaken. lia.
  - cbn [runs_below_from]. destruct (P c); [|apply IH].
    intros H%andb_true_iff. destruct H as [_ H]. now apply IH in H.
Qed.

Lemma runs_below_from_prefix s : forall n t,
  runs_below_from P k n (s ++ t) = true -> runs_below_from P k n s = true.
Proof.
  induction s as [|c s IH]; intros n t; cbn [app runs_below_from];
    [reflexivity|].
  destruct (P c); [|apply IH].
  intros H%andb_true_iff. destruct H as [H1 H2].
  rewrite H1. cbn [andb]. now apply IH in H2.
Qed.

Lemma runs_below_trim s :
  runs_below P k s = true -> runs_below P k (trim s) = true.
Proof.
  unfold runs_below. destruct (trim_middle s) as (a & b & E).
  rewrite E at 1. intros H%runs_below_from_suffix.
  now apply runs_below_from_prefix in H.
Qed.

(** A run of the class, then the rest. *)
Lemma runs_below_from_run e : forall n s,
  Forall (fun c => P c = true) e -> (n + length e < k)%nat ->
  runs_below_from P k n (e ++ s)
  = runs_below_from P k (n + length e) s.
Proof.
  induction e as [|c e IH]; intros n s H L; cbn [app length].
  - now rewrite Nat.add_0_r.
  - inversion H; subst. cbn [runs_below_from length] in *. rewrite H2.
    replace (S n <? k)%nat with true by (symmetry; apply Nat.ltb_lt; lia).
    cbn [andb]. rewrite IH by (trivial; lia). f_equal. lia.
Qed.

Lemma runs_below_none s :
  Forall (fun c => P c = false) s -> forall n, runs_below_from P k n s = true.
Proof.
  induction 1 as [|c s Hc _ IH]; intros n; [reflexivity|].
  cbn [runs_below_from]. now rewrite Hc.
Qed.

(** A text with runs shorter than [k] is left as it is. *)
Lemma replace_runs_below rep s : forall run,
  Forall (fun c => P c = true) run ->
  runs_below_from P k (length run) s = true -> (length run < k)%nat ->
  replace_runs_from P k rep run s = run ++ s.
Proof.
  induction s as [|c s IH]; intros run Hr H L; cbn [replace_runs_from].
  - unfold emit. replace (k <=? length run)%nat with false
      by (symmetry; apply Nat.leb_gt; lia).
    now rewrite app_nil_r.
  - cbn [runs_below_from] in H. destruct (P c) eqn:E.
    + apply andb_true_iff in H. destruct H as [H1 H2].
      apply Nat.ltb_lt in H1. rewrite IH.
      * now rewrite <- app_assoc.
      * apply Forall_app. split; trivial. now constructor.
      * rewrite length_app. cbn [length]. now rewrite Nat.add_1_r.
      * rewrite length_app. cbn [length]. lia.
    + unfold emit. replace (k <=? length run)%nat with false
        by (symmetry; apply Nat.leb_gt; lia).
      f_equal. f_equal. apply (IH []); [constructor | exact H | cbn; lia].
Qed.

(** After the replacement of the runs of [k] and more by a shorter run. *)
Lemma runs_below_replace_runs rep s :
  Forall (fun c => P c = true) rep -> (length rep < k)%nat ->
  forall run, Forall (fun c => P c = true) run ->
  runs_below_from P k 0 (replace_runs_from P k rep run s) = true.
Proof.
  intros Hrep Lrep.
  assert (Hemit : forall run, Forall (fun c => P c = true) run ->
             Forall (fun c => P c = true) (emit k rep run)
             /\ (length (emit k rep run) < k)%nat).
  { intros run Hr. unfold emit.
    destruct (k <=? length run)%nat eqn:E; [now split|].
    apply Nat.leb_gt in E. now split. }
  induction s as [|c s IH]; intros run Hr; cbn [replace_runs_from].
  - destruct (Hemit run Hr) as [F L].
    rewrite <- (app_nil_r (emit k rep run)).
    now rewrite runs_below_from_run.
  - destruct (P c) eqn:E.
    + apply IH. apply Forall_app. split; trivial. now constructor.
    + destruct (Hemit run Hr) as [F L].
      rewrite runs_below_from_run by trivial.
      cbn [runs_below_from]. rewrite E. apply IH. constructor.
Qed.
End Below.

(** ** [cleanText] *)

Lemma no_nbsp_map s :
  Forall (fun c => (c =? NBSP)%N = false) (map nbsp_to_space s).
Proof.
  induction s as [|c s IH]; cbn [map]; constructor; trivial.
  unfold nbsp_to_space. destruct (c =? NBSP)%N eqn:E; [reflexivity | exact E].
Qed.

Lemma map_nbsp_fixed s :
  Forall (fun c => (c =? NBSP)%N = false) s -> map nbsp_to_space s = s.
Proof.
  induction 1 as [|c s Hc _ IH]; [reflexivity|]. cbn [map].
  unfold nbsp_to_space at 1. now rewrite Hc, IH.
Qed.

Lemma Forall_trim (Q : char -> Prop) s : Forall Q s -> Forall Q (trim s).
Proof.
  destruct (trim_middle s) as (a & b & E). rewrite E at 1.
  intros H%Forall_app. destruct H as [_ H]. now apply Forall_app in H.
Qed.

Lemma no_class_below P s :
  Forall (fun c => P c = false) s <-> runs_below P 1 s = true.
Proof.
  unfold runs_below. split.
  - intros H. now apply runs_below_none.
  - induction s as [|c s IH]; [constructor|]. cbn [runs_below_from].
    destruct (P c) eqn:E; [discriminate|]. intros H. constructor; auto.
Qed.

(** What [cleanText] gives is in clean form. *)
Lemma cleanText_clean s : clean (cleanText s) = true.
Proof.
  rewrite cleanText_replaced. unfold replaced.
  set (s1 := map nbsp_to_space s).
  set (s2 := replace_runs is_sp_tab 1 [SP] s1).
  set (s3 := replace_runs is_cr_ff 1 [LF] s2).
  set (s4 := replace_runs is_lf 3 [LF; LF] s3).
  assert (A1 : forallb (fun c => negb (c =? NBSP)%N) (trim s4) = true).
  { apply forallb_forall. apply Forall_forall.
    apply (Forall_impl _ (fun c (H : (c =? NBSP)%N = false) =>
                            proj2 (negb_true_iff _) H)).
    apply Forall_trim.
    repeat (apply Forall_replace_runs; [now repeat constructor|]).
    apply no_nbsp_map. }
  assert (A2 : singles is_sp_tab SP (trim s4) = true).
  { apply singles_trim. unfold singles, s4, s3, replace_runs.
    apply (singles_kept is_sp_tab SP is_lf 3 [LF; LF]);
      [| now repeat constructor | discriminate | constructor |].
    { intros c H. apply N.eqb_eq in H. now subst. }
    apply (singles_kept is_sp_tab SP is_cr_ff 1 [LF]);
      [| now repeat constructor | discriminate | constructor |].
    { intros c H. unfold is_cr_ff in H. apply orb_true_iff in H.
      destruct H as [H | H]; apply N.eqb_eq in H; now subst. }
    now apply singles_replace_runs. }
  assert (A3 : runs_below is_cr_ff 1 (trim s4) = true).
  { apply runs_below_trim. apply no_class_below.
    apply Forall_replace_runs; [now repeat constructor|].
    apply (replace_runs_all is_cr_ff [LF]). now repeat constructor. }
  assert (A4 : runs_below is_lf 3 (trim s4) = true).
  { apply runs_below_trim. unfold runs_below, s4, replace_runs.
    apply runs_below_replace_runs;
      [now repeat constructor | cbn; lia | constructor]. }
  unfold clean. now rewrite A1, A2, A3, A4, trimmed_trim.
Qed.

(** A text in clean form is left as it is. *)
Lemma clean_fixed c : clean c = true -> cleanText c = c.
Proof.
  unfold clean. rewrite !andb_true_iff.
  intros [[[[H1 H2] H3] H4] H5].
  rewrite cleanText_replaced. unfold replaced.
  rewrite map_nbsp_fixed.
  - rewrite (replace_runs_singles is_sp_tab SP) by trivial.
    rewrite (replace_runs_none is_cr_ff 1 [LF]);
      [|lia | now apply no_class_below].
    unfold replace_runs.
    rewrite (replace_runs_below is_lf 3); [|constructor | exact H4 | cbn; lia].
    now apply trim_fixed.
  - apply Forall_forall. intros x Hx.
    apply negb_true_iff. revert x Hx. now apply forallb_forall.
Qed.

(** Cleaning a text gives a text in clean form: no no-break space, no
    tab, carriage return or form feed, no two spaces and no three line
    feeds in a row, no whitespace at either end; and a text in that form
    is left as it is, so that cleaning twice is cleaning once. *)
Theorem cleanText_idempotent s :
  clean (cleanText s) = true /\ cleanText (cleanText s) = cleanText s.
Proof.
  split; [apply cleanText_clean|]. apply clean_fixed, cleanText_clean.
Qed.

End CleanFacts.

(* ================================================================== *)
(** * Sentences and passages *)
(* ================================================================== *)

Module PassageFacts.
Import JS Seed Effects.
Import Spec TextFacts CleaningFacts ChunkingFacts Parse Observations.
Import ParseFacts CleanFacts.

(** ** Sentences *)

Lemma split_from_nonempty s : forall skip prev part,
  split_from skip prev part s <> [].
Proof.
  induction s as [|c s IH]; intros skip prev part; cbn [split_from];
    [discriminate|].
  destruct skip; [|apply IH].
  destruct (sep_match prev (c :: s)) as [[|n]|]; try apply IH. discriminate.
Qed.

(** In a text whose whitespace is single spaces, the separator matches
    one space, and the parts joined by a space are the text. *)
Lemma join_split_from s : forall b prev part,
  singles_from is_ws SP b s = true ->
  join [SP] (split_from 0 prev part s) = part ++ s.
Proof.
  induction s as [|c s IH]; intros b prev part H; cbn [split_from].
  - cbn. now rewrite app_nil_r.
  - cbn [singles_from] in H.
    assert (Keep : join [SP] (split_from 0 (Some c) (part ++ [c]) s)
                   = part ++ c :: s).
    { destruct (is_ws c).
      - apply andb_true_iff in H. destruct H as [_ H].
        rewrite (IH true) by trivial. now rewrite <- app_assoc.
      - rewrite (IH false) by trivial. now rewrite <- app_assoc. }
    destruct (sep_match prev (c :: s)) as [[|n]|] eqn:M; trivial.
    apply sep_match_run, ws_run_head in M. destruct M as [Hc Hn].
    rewrite Hc in H. apply andb_true_iff in H. destruct H as [H1 H2].
    apply andb_true_iff in H1. destruct H1 as [_ H1].
    apply N.eqb_eq in H1. subst c.
    assert (n = O) as ->.
    { destruct s as [|d s]; [now cbn in Hn|]. cbn [singles_from] in H2.
      cbn [ws_run] in Hn. destruct (is_ws d); [discriminate | congruence]. }
    rewrite RagClaims.join_cons by apply split_from_nonempty.
    now rewrite (IH true).
Qed.

(** The paragraph [sentenceSplit] works on: every run of whitespace made
    one space, and the ends trimmed. *)
Lemma spaced_paragraph p :
  spaced (trim (replace_runs is_ws 1 [SP] p)) = true.
Proof.
  unfold spaced. rewrite trimmed_trim, andb_true_r.
  apply singles_trim. now apply singles_replace_runs.
Qed.

(** The sentences of a paragraph, joined by single spaces, are the
    paragraph with every run of whitespace made one space and its ends
    trimmed: splitting loses nothing but the space at each boundary. *)
Theorem sentenceSplit_join p :
  join [SP] (sentenceSplit p) = trim (replace_runs is_ws 1 [SP] p)
  /\ spaced (trim (replace_runs is_ws 1 [SP] p)) = true.
Proof.
  split; [|apply spaced_paragraph].
  unfold sentenceSplit.
  pose proof (spaced_paragraph p) as S. unfold spaced in S.
  apply andb_true_iff in S. destruct S as [S _].
  destruct (trim (replace_runs is_ws 1 [SP] p)) as [|c t] eqn:E;
    [reflexivity|].
  cbn [truthy].
  destruct (length (split_sentences (c :: t)) <=? 1)%nat; [reflexivity|].
  unfold split_sentences. now rewrite (join_split_from _ false).
Qed.

(** ** Passages *)

Lemma moves_chunks (Q : jsstring -> Prop) a x b :
  (forall s, cleanText s <> [] -> Q (cleanText s)) ->
  moves a x b -> Forall Q (chunks a) -> Forall Q (chunks b).
Proof.
  intros HQ. induction 1 as [a | a x b _ IH | a y x b _ IH]; trivial.
  intros H. apply IH. unfold flush. cbn [chunks].
  destruct (cleanText (current a)) eqn:E; cbn [truthy]; trivial.
  apply Forall_app. split; trivial. constructor; [|constructor].
  rewrite <- E. apply HQ. now rewrite E.
Qed.

Lemma nonblank_clean s : cleanText s <> [] -> nonblank (cleanText s).
Proof.
  intros H. unfold nonblank. rewrite nw_cleanText. intros N.
  now apply cleanText_nil_iff in N.
Qed.

Lemma nw_concat_nil l :
  Forall nonblank l -> nw (concat l) = [] -> l = [].
Proof.
  destruct 1 as [|c l Hc _]; [reflexivity|]. cbn [concat].
  rewrite nw_app. intros H. apply app_eq_nil in H. now destruct H.
Qed.

(** Every passage [buildChunks] returns is a text in clean form that is
    not blank, so that cleaning it again changes nothing; and it returns
    no passage exactly when the texts of the tokens are blank. *)
Theorem passages_are_clean minSize maxSize fuel tokens passages :
  buildChunks minSize maxSize fuel tokens = Some passages ->
  Forall (fun c => clean c = true /\ cleanText c = c /\ nonblank c) passages
  /\ (passages = [] <-> nw (concat (map text tokens)) = []).
Proof.
  intros R. apply buildChunks_moves in R.
  destruct R as (x & a & M & N & <- & B).
  assert (F : Forall (fun c => clean c = true /\ cleanText c = c /\ nonblank c)
                (chunks a)).
  { apply (moves_chunks _ _ _ _ (fun s H =>
             conj (cleanText_clean s)
               (conj (clean_fixed _ (cleanText_clean s)) (nonblank_clean s H)))
             M).
    constructor. }
  split; [exact F|].
  pose proof (moves_content _ _ _ M) as C. unfold content in C.
  cbn [chunks current concat app] in C. rewrite nw_app, B, app_nil_r in C.
  change (nw [] ++ nw x) with (nw x) in C. rewrite <- N, <- C. split.
  - now intros ->.
  - apply nw_concat_nil. eapply Forall_impl; [|exact F]. now intros c (_ & _ & H).
Qed.

Lemma passages_are_clean_witness :
  buildChunks 800 1000 5 [heading_ "Articolul 1"; body_ "Unu.  Doi."]
  = Some [lit "Articolul 1" ++ [LF] ++ lit " Unu. Doi."]
  /\ Forall (fun c => clean c = true /\ cleanText c = c /\ nonblank c)
       [lit "Articolul 1" ++ [LF] ++ lit " Unu. Doi."]
  /\ ([lit "Articolul 1" ++ [LF] ++ lit " Unu. Doi."] = [] <->
      nw (concat (map text [heading_ "Articolul 1"; body_ "Unu.  Doi."])) = []).
Proof.
  split; [reflexivity|].
  apply (passages_are_clean 800 1000 5
           [heading_ "Articolul 1"; body_ "Unu.  Doi."]).
  reflexivity.
Defined.

(** ** A passage for every heading *)

(** The passages pushed, and one more for a buffer that is not blank. *)
#[local] Abbreviation pending a :=
  (length (chunks a) + (if truthy (nw (current a)) then 1 else 0))%nat.

Lemma truthy_trim s : truthy (trim s) = truthy (nw s).
Proof.
  destruct (trim s) eqn:T.
  - apply trim_nil_iff in T. now rewrite T.
  - destruct (nw s) eqn:N; [|reflexivity].
    apply trim_nil_iff in N. congruence.
Qed.

Lemma truthy_app (s t : jsstring) : truthy (s ++ t) = truthy s || truthy t.
Proof. now destruct s. Qed.

Lemma pending_flush a : pending (flush a) = pending a.
Proof.
  unfold flush. cbn [chunks current]. rewrite truthy_nw_cleanText.
  change (nw []) with (@nil char). cbn [truthy].
  destruct (truthy (nw (current a))); [|lia].
  rewrite length_app. cbn [length]. lia.
Qed.

Lemma pending_moves a x b : moves a x b -> (pending a <= pending b)%nat.
Proof.
  induction 1 as [a | a x b _ IH | a y x b _ IH]; [lia | |].
  - now rewrite pending_flush in IH.
  - cbn [chunks current] in IH. rewrite nw_app in IH.
    destruct (nw (current a)); cbn [app truthy] in *; [|exact IH].
    destruct (truthy (nw y)); lia.
Qed.

Section Run.
Variables minSize maxSize : Z.
Variable fuel : nat.

Lemma pending_heading a t b :
  type t = Heading -> truthy (trim (text t)) = true ->
  addToken minSize maxSize fuel a t = Some b ->
  pending b = S (pending a).
Proof.
  intros Ty Nb. unfold addToken. rewrite Ty. intros [= <-].
  cbn [chunks current]. rewrite truthy_trim in Nb.
  assert (G : forall a1, truthy (nw (current a1 ++
                 (if truthy (current a1) then [LF] else []) ++ text t ++ [LF]))
              = true).
  { intros a1. rewrite !nw_app, !truthy_app, Nb.
    cbn [orb]. now rewrite !orb_true_r. }
  rewrite G.
  replace (len (trim (current a)) >? 0)%Z with (truthy (nw (current a))).
  - destruct (truthy (nw (current a))) eqn:C.
    + pose proof (pending_flush a) as P. rewrite C in P.
      unfold flush in P |- *. cbn [chunks current] in *.
      cbn [nw filter truthy] in P. change (nw []) with (@nil char) in P.
      cbn [truthy] in P. lia.
    + lia.
  - rewrite <- truthy_trim. unfold len.
    destruct (trim (current a)); cbn [truthy length]; [reflexivity|].
    symmetry. apply Z.gtb_lt. lia.
Qed.

Lemma pending_tokens tokens : forall a b,
  ofold (addToken minSize maxSize fuel) tokens a = Some b ->
  (pending a + length (headings tokens) <= pending b)%nat.
Proof.
  induction tokens as [|t tokens IH]; intros a b; cbn [ofold].
  - intros [= <-]. cbn. lia.
  - destruct (addToken minSize maxSize fuel a t) as [a1|] eqn:E;
      cbn [obind]; [|discriminate].
    intros H. apply IH in H. unfold headings in *. cbn [filter].
    unfold is_heading at 1.
    destruct (type t) eqn:Ty; cbn [andb].
    + destruct (truthy (trim (text t))) eqn:Nb.
      * rewrite (pending_heading a t a1 Ty Nb E) in H. cbn [length]. lia.
      * apply addToken_moves in E. destruct E as (x & M & _).
        apply pending_moves in M. lia.
    + apply addToken_moves in E. destruct E as (x & M & _).
      apply pending_moves in M. lia.
Qed.
End Run.

Lemma headings_bound minSize maxSize fuel tokens passages :
  buildChunks minSize maxSize fuel tokens = Some passages ->
  (length (headings tokens) <= length passages)%nat.
Proof.
  unfold buildChunks.
  destruct (ofold _ tokens _) as [a|] eqn:E; cbn [obind]; [|discriminate].
  intros [= <-]. apply pending_tokens in E. cbn [chunks current length] in E.
  change (nw []) with (@nil char) in E. cbn [truthy] in E.
  rewrite truthy_trim.
  destruct (truthy (nw (current a))) eqn:C; [|lia].
  pose proof (pending_flush a) as P. rewrite C in P.
  cbn [current flush] in P. change (nw []) with (@nil char) in P.
  cbn [truthy] in P. lia.
Qed.

(** [buildChunks] returns at least one passage for every heading token
    whose text is not blank: each of them closes the passage before it. *)
Theorem a_passage_for_every_heading minSize maxSize fuel tokens passages :
  buildChunks minSize maxSize fuel tokens = Some passages ->
  (length (headings tokens) <= length passages)%nat.
Proof. apply headings_bound. Qed.

Lemma a_passage_for_every_heading_witness :
  buildChunks 800 1000 5
    [heading_ "Articolul 1"; body_ "Unu."; heading_ "Articolul 2"; body_ "Doi."]
  = Some [lit "Articolul 1" ++ [LF] ++ lit " Unu.";
          lit "Articolul 2" ++ [LF] ++ lit " Doi."]
  /\ (length (headings [heading_ "Articolul 1"; body_ "Unu.";
                        heading_ "Articolul 2"; body_ "Doi."])
      <= length [lit "Articolul 1" ++ [LF] ++ lit " Unu.";
                 lit "Articolul 2" ++ [LF] ++ lit " Doi."])%nat.
Proof.
  split; [reflexivity|].
  apply (a_passage_for_every_heading 800 1000 5
           [heading_ "Articolul 1"; body_ "Unu."; heading_ "Articolul 2";
            body_ "Doi."]).
  reflexivity.
Defined.

(** The tokens of a page give at least one passage for each of their
    headings, and the passages hold the content of the selected elements:
    [buildChunks(extractMainTokens(html), 800, 1000)] as [processItem]
    calls it. *)
Theorem page_passages select html :
  let tokens := extractMainTokens select html in
  exists passages,
    buildChunks 800 1000 (enough_fuel tokens) tokens = Some passages
    /\ nw (concat passages) = concat (map node_content (select html))
    /\ (length (filter is_heading tokens) <= length passages)%nat.
Proof.
  intros tokens.
  destruct (buildChunks_returns 800 1000 tokens (enough_fuel tokens) eq_refl
              (le_n _)) as [passages R].
  exists passages. split; [exact R|].
  pose proof (extractMainTokens_nonblank select html) as Nb.
  pose proof (extractMainTokens_content select html) as C.
  fold tokens in Nb, C. split.
  - rewrite <- C. apply buildChunks_moves in R.
    destruct R as (x & a & M & N & <- & B).
    pose proof (moves_content _ _ _ M) as K. unfold content in K.
    cbn [chunks current concat app] in K.
    rewrite nw_app, B, app_nil_r in K. now rewrite K, N.
  - apply headings_bound in R.
    replace (filter is_heading tokens) with (headings tokens); [exact R|].
    unfold headings. apply filter_ext_in. intros t Ht.
    rewrite Forall_forall in Nb. specialize (Nb t Ht).
    rewrite truthy_trim. unfold nonblank in Nb.
    destruct (nw (text t)); [contradiction | now rewrite andb_true_r].
Qed.

End PassageFacts.

(* ================================================================== *)
(** * Discovered items and their addresses *)
(* ================================================================== *)

Module DiscoveryFacts.
Import JS Seed Effects.
Import Spec Ingest Discovery Observations.

Lemma key_eqb_eq a b : JS.eqb a b = true <-> a = b.
Proof. apply UpsertFacts.eqb_eq. Qed.

Lemma eqb_neq a b : JS.eqb a b = false <-> a <> b.
Proof.
  split.
  - intros H E. apply key_eqb_eq in E. congruence.
  - intros H. destruct (JS.eqb a b) eqn:E; [|reflexivity].
    apply key_eqb_eq in E. contradiction.
Qed.

(** ** The map *)

Section JsMap.
Context {V : Type}.
Implicit Types m : list (jsstring * V).

Lemma get_set_same k v m : Map_get k (Map_set k v m) = Some v.
Proof.
  induction m as [|[k' v'] m IH]; cbn [Map_set Map_get].
  - now rewrite UpsertFacts.eqb_refl.
  - destruct (JS.eqb k' k) eqn:E; cbn [Map_get].
    + now rewrite UpsertFacts.eqb_refl.
    + now rewrite E.
Qed.

Lemma get_set_other k c v m :
  k <> c -> Map_get c (Map_set k v m) = Map_get c m.
Proof.
  intros N. induction m as [|[k' v'] m IH]; cbn [Map_set Map_get].
  - apply eqb_neq in N. now rewrite N.
  - destruct (JS.eqb k' k) eqn:E; cbn [Map_get].
    + apply key_eqb_eq in E. subst k'. apply eqb_neq in N. now rewrite N.
    + now rewrite IH.
Qed.

Lemma keys_set k v m :
  map fst (Map_set k v m)
  = match Map_get k m with
    | Some _ => map fst m
    | None => map fst m ++ [k]
    end.
Proof.
  induction m as [|[k' v'] m IH]; cbn [Map_set Map_get map fst app];
    [reflexivity|].
  destruct (JS.eqb k' k) eqn:E; cbn [map fst].
  - apply key_eqb_eq in E. now subst.
  - rewrite IH. now destruct (Map_get k m).
Qed.

Lemma get_none k m : Map_get k m = None <-> ~ In k (map fst m).
Proof.
  induction m as [|[k' v'] m IH]; cbn [Map_get map fst In]; [tauto|].
  destruct (JS.eqb k' k) eqn:E.
  - apply key_eqb_eq in E. split; [discriminate | tauto].
  - apply eqb_neq in E. rewrite IH. tauto.
Qed.

Lemma get_in k v m : Map_get k m = Some v -> In (k, v) m.
Proof.
  induction m as [|[k' v'] m IH]; cbn [Map_get In]; [discriminate|].
  destruct (JS.eqb k' k) eqn:E.
  - apply key_eqb_eq in E. intros [= <-]. left. now subst.
  - auto.
Qed.

Lemma in_get k v m : NoDup (map fst m) -> In (k, v) m -> Map_get k m = Some v.
Proof.
  induction m as [|[k' v'] m IH]; cbn [Map_get In map fst]; [tauto|].
  intros D. inversion D as [|? ? N D']; subst.
  intros [[= -> ->] | H].
  - now rewrite UpsertFacts.eqb_refl.
  - destruct (JS.eqb k' k) eqn:E; [|auto].
    apply key_eqb_eq in E. subst k'. exfalso. apply N.
    change k with (fst (k, v)). now apply in_map.
Qed.
End JsMap.

(** ** The loop *)

Lemma keys_step m it :
  NoDup (map fst m) -> NoDup (map fst (dedupeStep m it)).
Proof.
  intros D. unfold dedupeStep.
  destruct (Map_get (celex it) m) as [prev|] eqn:G.
  - destruct (_ && _); trivial. now rewrite keys_set, G.
  - rewrite keys_set, G. apply NoDup_app; trivial.
    + repeat constructor. tauto.
    + intros k Hk [<- | []]. now apply get_none in G.
Qed.

Lemma keys_loop items : forall m,
  NoDup (map fst m) -> NoDup (map fst (fold_left dedupeStep items m)).
Proof.
  induction items as [|it items IH]; intros m D; cbn [fold_left]; trivial.
  now apply IH, keys_step.
Qed.

#[local] Abbreviation ro_of c :=
  (fun it => JS.eqb (celex it) c && JS.eqb (lang it) (lit "ro")).
#[local] Abbreviation of_ c := (fun it => JS.eqb (celex it) c).

(** The entry of a CELEX number after the loop, from its entry before. *)
Lemma get_loop c items : forall m,
  Map_get c (fold_left dedupeStep items m)
  = match Map_get c m with
    | Some prev =>
        if JS.eqb (lang prev) (lit "ro") then Some prev
        else match find (ro_of c) items with
             | Some it => Some it
             | None => Some prev
             end
    | None => chosen c items
    end.
Proof.
  induction items as [|it items IH]; intros m; cbn [fold_left].
  { unfold chosen. cbn [find].
    destruct (Map_get c m) as [prev|]; [|reflexivity].
    now destruct (JS.eqb (lang prev) (lit "ro")). }
  rewrite IH. unfold chosen. cbn [find].
  destruct (JS.eqb (celex it) c) eqn:E; cbn [andb].
  - apply key_eqb_eq in E. subst c. unfold dedupeStep.
    destruct (Map_get (celex it) m) as [prev|] eqn:G.
    + destruct (JS.eqb (lang prev) (lit "ro")) eqn:P; cbn [negb andb].
      * now rewrite G, P.
      * destruct (JS.eqb (lang it) (lit "ro")) eqn:L.
        -- now rewrite get_set_same, L.
        -- now rewrite G, P.
    + rewrite get_set_same.
      destruct (JS.eqb (lang it) (lit "ro")); [reflexivity|].
      now destruct (find _ items).
  - apply eqb_neq in E.
    replace (Map_get c (dedupeStep m it)) with (Map_get c m); [reflexivity|].
    unfold dedupeStep. destruct (Map_get (celex it) m) as [prev|].
    + destruct (_ && _); [|reflexivity]. now rewrite get_set_other.
    + now rewrite get_set_other.
Qed.

Lemma chosen_celex c items it : chosen c items = Some it -> celex it = c.
Proof.
  unfold chosen. destruct (find (ro_of c) items) as [it'|] eqn:F.
  - intros [= <-]. apply find_some in F. destruct F as [_ F].
    apply andb_true_iff in F. now apply key_eqb_eq.
  - intros F'. apply find_some in F'. now apply key_eqb_eq.
Qed.

Lemma chosen_in c items it : chosen c items = Some it -> In it items.
Proof.
  unfold chosen. destruct (find (ro_of c) items) as [it'|] eqn:F.
  - intros [= <-]. now apply find_some in F.
  - intros F'. now apply find_some in F'.
Qed.

Lemma entries_loop items :
  let m := fold_left dedupeStep items [] in
  NoDup (map fst m)
  /\ forall k v, In (k, v) m <-> chosen k items = Some v.
Proof.
  cbv zeta. assert (D := keys_loop items [] (NoDup_nil _)). split; trivial.
  intros k v. pose proof (get_loop k items []) as G. cbn [Map_get] in G.
  rewrite <- G. split.
  - now apply in_get.
  - apply get_in.
Qed.

Lemma dedupe_keys items :
  map celex (dedupe items) = map fst (fold_left dedupeStep items []).
Proof.
  destruct (entries_loop items) as [_ H]. unfold dedupe. rewrite map_map.
  apply map_ext_in. intros [k v] I. cbn [fst snd].
  apply H in I. now apply chosen_celex in I.
Qed.

(** The result of the deduplication has one item for every CELEX number
    of the items, and no two with the same number; the item of a number is
    the first Romanian item with that number when there is one, and the
    first item with that number when there is none. *)
Theorem dedupe_prefers_romanian items :
  NoDup (map celex (dedupe items))
  /\ (forall out, In out (dedupe items) <->
                  exists c, chosen c items = Some out)
  /\ (forall it, In it items ->
                 exists out, In out (dedupe items) /\ celex out = celex it
                             /\ (lang it = lit "ro" -> lang out = lit "ro")).
Proof.
  destruct (entries_loop items) as [D H]. cbv zeta in D, H.
  assert (Out : forall out, In out (dedupe items) <->
                            exists c, chosen c items = Some out).
  { intros out. unfold dedupe. rewrite in_map_iff. split.
    - intros ([k v] & <- & I). exists k. now apply H.
    - intros (c & C). exists (c, out). split; [reflexivity | now apply H]. }
  split; [now rewrite dedupe_keys|]. split; [exact Out|].
  intros it I. unfold chosen in Out.
  destruct (find (ro_of (celex it)) items) as [it'|] eqn:F.
  - exists it'. pose proof (find_some _ _ F) as [_ F'].
    apply andb_true_iff in F'. destruct F' as [F1 F2].
    apply key_eqb_eq in F1, F2. repeat split; trivial.
    apply Out. exists (celex it). now rewrite F.
  - destruct (find (of_ (celex it)) items) as [it'|] eqn:G.
    + exists it'. pose proof (find_some _ _ G) as [_ G'].
      apply key_eqb_eq in G'. repeat split; trivial.
      * apply Out. exists (celex it). now rewrite F.
      * intros L. pose proof (find_none _ _ F it I) as N. cbn in N.
        rewrite UpsertFacts.eqb_refl, L, UpsertFacts.eqb_refl in N.
        discriminate.
    + pose proof (find_none _ _ G it I) as N. cbn in N.
      now rewrite UpsertFacts.eqb_refl in N.
Qed.

(** An English item and then a Romanian one for the same number: the
    Romanian one takes the place of the English one. *)
Example dedupe_example :
  let en := mkDiscItem (lit "32016R0679") (lit "GDPR") (lit "en") [] [] None
              (eurlexTxtUrl (lit "EN") (lit "32016R0679")) in
  let other := manualItem (lit "32019R1234") in
  let ro := manualItem (lit "32016R0679") in
  dedupe [en; other; ro; en] = [ro; other].
Proof. reflexivity. Qed.

(** ** Addresses *)

(** The address the seed script falls back to when the Romanian page
    of a document cannot be had is the English page of the same document,
    whatever its CELEX number: the first [/RO/] of the address is the one
    of the language. *)
Theorem fallback_is_the_english_page celex :
  includes (lit "/RO/") (eurlexTxtUrl (lit "RO") celex) = true
  /\ replace_first (lit "/RO/") (lit "/EN/") (eurlexTxtUrl (lit "RO") celex)
     = eurlexTxtUrl (lit "EN") celex
  /\ urlTxt (manualItem celex) = eurlexTxtUrl (lit "RO") celex.
Proof. repeat split. Qed.

End DiscoveryFacts.

(* ================================================================== *)
(** * The links of the page *)
(* ================================================================== *)

Module PageFacts.
Import JS Seed Effects.
Import Spec Rag Discovery Page Observations.

Lemma before_colon_app a b :
  ~ In COLON a -> before_colon (a ++ COLON :: b) = a.
Proof.
  induction a as [|c a IH]; intros H; cbn [app before_colon].
  - now rewrite N.eqb_refl.
  - destruct (c =? COLON)%N eqn:E.
    + apply N.eqb_eq in E. subst c. exfalso. apply H. now left.
    + f_equal. apply IH. intros I. apply H. now right.
Qed.

Lemma slice_tail (c : char) s : slice (c :: s) 1 (len (c :: s)) = s.
Proof.
  unfold slice, len. cbn [length].
  replace (1 <? 0)%Z with false by reflexivity.
  destruct (Z.ltb_spec (Z.of_nat (S (length s))) 0); [lia|].
  rewrite Z.min_r, Z.min_l by lia.
  replace (Z.to_nat 1) with 1%nat by reflexivity. cbn [skipn].
  replace (Z.to_nat (Z.of_nat (S (length s)) - 1)) with (length s) by lia.
  apply firstn_all.
Qed.

(** The link the page shows for a citation that [formatCitation] made
    goes to the Romanian text page of the cited document, the page the
    seed script fetches for it, provided the CELEX number has no colon in
    it; with a colon the link is cut at it. *)
Theorem citation_links_to_its_document celex chunkId :
  ~ In COLON celex ->
  citation_href (formatCitation celex chunkId) = eurlexTxtUrl (lit "RO") celex
  /\ citation_href (formatCitation celex chunkId)
     = Ingest.urlTxt (manualItem celex).
Proof.
  intros H. assert (E : citation_href (formatCitation celex chunkId)
                        = eurlexTxtUrl (lit "RO") celex).
  { unfold citation_href, formatCitation.
    change (lit "#" ++ celex ++ lit ":" ++ of_int chunkId)
      with (35%N :: celex ++ COLON :: of_int chunkId).
    change (starts_with (lit "#") (35%N :: celex ++ COLON :: of_int chunkId))
      with true.
    cbv iota. rewrite slice_tail. now rewrite before_colon_app. }
  split; [exact E | now rewrite E].
Qed.

Lemma citation_links_to_its_document_witness :
  citation_href (lit "#32016R0679:3")
  = lit "https://eur-lex.europa.eu/legal-content/RO/TXT/?uri=CELEX:32016R0679"
  /\ citation_href (lit "#32016R0679:3")
     = Ingest.urlTxt (manualItem (lit "32016R0679")).
Proof.
  apply (citation_links_to_its_document (lit "32016R0679") 3).
  cbn. intuition discriminate.
Defined.

(** A CELEX number with a colon: the link is to what comes before it. *)
Example citation_with_colon :
  citation_href (formatCitation (lit "CELEX:32016R0679") 3)
  = eurlexTxtUrl (lit "RO") (lit "CELEX").
Proof. reflexivity. Qed.

End PageFacts.

(* ================================================================== *)
(** * The calls of the seed script *)
(* ================================================================== *)

Module SeedFacts.
Import JS Seed Effects.
Import Spec RunFacts Ingest Discovery SeedMain Observations ProgramFacts.
Import Scenarios.

Local Open Scope Z_scope.

Lemma never_fetchWithRetry_from P n : forall i lastErr url baseDelayMs timeoutMs,
  (forall t, P (Called (Fetch url t)) = false) ->
  P (Called Jitter) = false -> (forall ms, P (Called (Sleep ms)) = false) ->
  never P (fetchWithRetry_from n i lastErr url baseDelayMs timeoutMs).
Proof.
  induction n as [|n IH]; intros i lastErr url baseDelayMs timeoutMs HF HJ HS;
    cbn [fetchWithRetry_from]; [exact I|].
  assert (Again : forall lastErr',
             never P (bind (perform Jitter) (fun j =>
                      bind (perform (Sleep (baseDelayMs * 2 ^ i + j))) (fun _ =>
                      fetchWithRetry_from n (i + 1) lastErr' url baseDelayMs
                        timeoutMs)))).
  { intros lastErr'. apply never_bind; [now apply never_perform|].
    intros j. apply never_bind; [now apply never_perform|]. intros _.
    now apply IH. }
  split; [apply HF|]. intros [err | res]; [apply Again|].
  destruct ((status res >=? 200) && (status res <? 300)); [exact I|].
  destruct ((status res =? 429)
            || (status res >=? 500) && (status res <=? 599));
    [apply Again | exact I].
Qed.

Lemma fetched_none tr :
  Forall (fun ev => is_fetch ev = false) tr -> fetched tr = [].
Proof.
  induction 1 as [|[X c] tr Hc _ IH]; [reflexivity|]. cbn [fetched].
  destruct c; try exact IH. discriminate.
Qed.

Section Script.
Variable SEED_MOCK : bool.
Variable SEED_MOCK_HTML_FILE : jsstring.
Variable EMBED_MODEL : jsstring.
Variable mock_embedding : jsstring -> list float.
Variable number_to_string : float -> jsstring.
Variable extractMainTokens : jsstring -> list Token.

#[local] Abbreviation fetch_html_ := (fetch_html SEED_MOCK SEED_MOCK_HTML_FILE).
#[local] Abbreviation embed_ := (embed SEED_MOCK EMBED_MODEL mock_embedding).
#[local] Abbreviation embed_all_ :=
  (embed_all SEED_MOCK EMBED_MODEL mock_embedding number_to_string).
#[local] Abbreviation upsertDocument_ :=
  (upsertDocument SEED_MOCK EMBED_MODEL mock_embedding number_to_string).
#[local] Abbreviation processItem_ :=
  (processItem SEED_MOCK SEED_MOCK_HTML_FILE EMBED_MODEL mock_embedding
     number_to_string extractMainTokens).
#[local] Abbreviation processAll_ :=
  (processAll SEED_MOCK SEED_MOCK_HTML_FILE EMBED_MODEL mock_embedding
     number_to_string extractMainTokens).

(** ** What the parts call *)

Lemma never_fetch_html P item :
  (if SEED_MOCK then forall f, P (Called (ReadFileSync f)) = false
   else (forall url t, P (Called (Fetch url t)) = false)
        /\ P (Called Jitter) = false
        /\ forall ms, P (Called (Sleep ms)) = false) ->
  never P (fetch_html_ item).
Proof.
  unfold fetch_html. destruct SEED_MOCK; intros H.
  - now apply never_perform.
  - destruct H as (HF & HJ & HS).
    apply never_bind; [now apply never_fetchWithRetry_from|]. intros res.
    apply never_bind.
    + destruct (negb (ok res) && includes (lit "/RO/") (urlTxt item));
        [now apply never_fetchWithRetry_from | exact I].
    + intros res'. now destruct (negb (ok res')).
Qed.

Lemma never_embed P text :
  (SEED_MOCK = false ->
   forall model input, P (Called (EmbeddingsCreate model input)) = false) ->
  never P (embed_ text).
Proof.
  unfold embed. destruct SEED_MOCK; intros H; [exact I|].
  apply never_try_catch; [apply never_perform, H; reflexivity|].
  intros e. now destruct (_ && _).
Qed.

Lemma never_embed_all P chunks :
  (SEED_MOCK = false ->
   forall model input, P (Called (EmbeddingsCreate model input)) = false) ->
  never P (embed_all_ chunks).
Proof.
  intros H. induction chunks as [|c chunks IH]; cbn [embed_all]; [exact I|].
  apply never_bind; [now apply never_embed|]. intros emb.
  apply never_bind; [exact IH|]. now intros embs.
Qed.

Lemma never_insert_all P celex rows : forall i,
  (forall q, P (Called (ClientQuery q)) = false) ->
  never P (insert_all celex i rows).
Proof.
  induction rows as [|[chunk embedding] rows IH]; intros i H;
    cbn [insert_all]; [exact I|].
  apply never_bind; [now apply never_perform|]. intros _. now apply IH.
Qed.

(** The transaction of [upsertDocument] and what follows a failure. *)
#[local] Abbreviation transaction celex rows :=
  (try_catch
     (bind (perform (ClientQuery BEGIN)) (fun _ =>
      bind (insert_all celex 0 rows) (fun _ =>
      bind (perform (ClientQuery COMMIT)) (fun _ => Ret tt))))
     (fun e => bind (perform (ClientQuery ROLLBACK)) (fun _ => Throw e))).

Lemma never_transaction P celex rows :
  (forall q, P (Called (ClientQuery q)) = false) ->
  never P (transaction celex rows).
Proof.
  intros H. apply never_try_catch.
  - apply never_bind; [now apply never_perform|]. intros _.
    apply never_bind; [now apply never_insert_all|]. intros _.
    apply never_bind; [now apply never_perform|]. now intros _.
  - intros e. apply never_bind; [now apply never_perform|]. now intros _.
Qed.

Lemma never_upsertDocument P celex chunks :
  (SEED_MOCK = false ->
   forall model input, P (Called (EmbeddingsCreate model input)) = false) ->
  P (Called PoolConnect) = false ->
  (forall q, P (Called (ClientQuery q)) = false) ->
  P (Called ClientRelease) = false ->
  never P (upsertDocument_ celex chunks).
Proof.
  intros HE HC HQ HR. unfold upsertDocument.
  apply never_bind; [now apply never_embed_all|]. intros embeddings.
  apply never_bind; [now apply never_perform|]. intros _.
  apply never_try_finally; [now apply never_transaction | now apply never_perform].
Qed.

Lemma never_processItem P item noEmbed :
  P (Called DateNow) = false ->
  never P (fetch_html_ item) ->
  (noEmbed = false -> forall chunks, never P (upsertDocument_ (celex item) chunks)) ->
  never P (processItem_ item noEmbed).
Proof.
  intros HD HF HU. unfold processItem.
  apply never_bind; [now apply never_perform|]. intros t0.
  apply never_bind; [exact HF|]. intros html.
  apply never_bind; [now apply never_perform|]. intros tFetch.
  destruct (matched (isNoLongerInForce html)); [exact I|].
  destruct (buildChunks _ _ _ _) as [chunks|]; [|exact I].
  apply never_bind; [now apply never_perform|]. intros tParse.
  apply never_bind.
  - destruct noEmbed; [exact I | now apply HU].
  - intros _. apply never_bind; [now apply never_perform|]. now intros tDb.
Qed.

(** ** The dry run *)

(** With [noEmbed], [processItem] makes no call to the embeddings
    service and none to the database, whatever the page is and whatever
    the calls it makes give. *)
Lemma dry_run_quiet {W} (h : handler W) item w :
  Forall (fun ev => db_event ev = false /\ is_embedding ev = false)
    (trace (run h (processItem_ item true) w)).
Proof.
  eapply Forall_impl;
    [|apply (run_never h (fun ev => db_event ev || is_embedding ev))].
  - intros ev H. now apply orb_false_iff in H.
  - apply never_processItem; [reflexivity | | discriminate].
    apply never_fetch_html. destruct SEED_MOCK; repeat split.
Qed.

(** ** The report *)

Lemma ensures_processItem item noEmbed :
  ensures (fun rep =>
             rep_celex rep = celex item
             /\ totalMs (durations rep)
                = fetchMs (durations rep) + parseMs (durations rep)
                  + dbMs (durations rep)
             /\ 0 <= chunkCount rep
             /\ (chunkCount rep = 0 -> avgChunkLen rep = 0))
    (processItem_ item noEmbed).
Proof.
  unfold processItem.
  apply ensures_bind. intros t0. apply ensures_bind. intros html.
  apply ensures_bind. intros tFetch.
  destruct (matched (isNoLongerInForce html)).
  { cbn. repeat split; lia. }
  destruct (buildChunks _ _ _ _) as [chunks|]; [|exact I].
  apply ensures_bind. intros tParse. apply ensures_bind. intros _.
  apply ensures_bind. intros tDb. cbn [ensures rep_celex durations totalMs
    fetchMs parseMs dbMs chunkCount avgChunkLen].
  repeat split; try lia. now destruct chunks.
Qed.

(** ** The loop over the items *)

(** The loop of [main] over the items runs [processItem] on every item,
    in order, each in the world the item before left, whether that one
    returned or threw: the calls of the loop are the calls of these runs
    put end to end, the world it leaves is the world the last of them left,
    and it returns, without ever throwing, the reports of the runs that
    returned, in order; a run that threw gives no report.  A report is of
    its item, and its total duration is the sum of the durations of its
    steps. *)
Theorem processAll_never_throws {W} (h : handler W) items noEmbed w :
  let runs :=
    item_runs SEED_MOCK SEED_MOCK_HTML_FILE EMBED_MODEL mock_embedding
      number_to_string extractMainTokens h items noEmbed w in
  run h (processAll_ items noEmbed) w
  = (last (map (fun x => fst (fst x)) runs) w,
     concat (map trace runs),
     inr (flat_map (fun x => match result x with
                             | inr rep => [rep]
                             | inl _ => []
                             end) runs))
  /\ Forall2 (fun it x =>
               forall rep, result x = inr rep ->
                 rep_celex rep = celex it
                 /\ totalMs (durations rep)
                    = fetchMs (durations rep) + parseMs (durations rep)
                      + dbMs (durations rep))
       items runs.
Proof.
  revert w. induction items as [|it items IH]; intros w;
    cbn [processAll item_runs]; cbv zeta.
  { split; [reflexivity | constructor]. }
  rewrite run_bind, run_try_catch, run_bind.
  pose proof (run_ensures h _ _ (ensures_processItem it noEmbed) w) as Q.
  destruct (IH (fst (fst (run h (processItem_ it noEmbed) w)))) as [R F].
  cbv zeta in R, F.
  destruct (run h (processItem_ it noEmbed) w) as [[w1 tr1] r1].
  cbn [fst snd] in *.
  assert (D : forall (l : list W) y d d', last (y :: l) d = last (y :: l) d').
  { intros l. induction l as [|z l IHl]; intros y d d'; [reflexivity|].
    change (last (y :: z :: l) d) with (last (z :: l) d).
    change (last (y :: z :: l) d') with (last (z :: l) d'). apply IHl. }
  assert (L : forall (l : list W) v, last (v :: l) w = last l v).
  { intros [|y l] v; [reflexivity|].
    change (last (v :: y :: l) w) with (last (y :: l) w). apply D. }
  split.
  - destruct r1 as [e | rep]; cbn [run]; rewrite run_bind, R;
      cbn [run map concat flat_map fst snd app]; unfold trace, result;
      cbn [fst snd]; rewrite L, !app_nil_r; reflexivity.
  - constructor; [|exact F]. intros rep Hr. unfold result in Hr.
    cbn [snd] in Hr. subst r1. now destruct (Q rep eq_refl) as (C & T & _).
Qed.

(** ** The upsert *)

(** [upsertDocument] computes every embedding before it touches the
    database: in every run the calls to the embeddings service come
    before all the calls to the database. *)
Theorem upsert_embeds_first {W} (h : handler W) celex chunks w :
  exists first then_,
    trace (run h (upsertDocument_ celex chunks) w) = first ++ then_
    /\ Forall (fun ev => db_event ev = false) first
    /\ Forall (fun ev => is_embedding ev = false) then_.
Proof.
  unfold upsertDocument. rewrite run_bind.
  pose proof (run_never h db_event (embed_all_ chunks)
                (never_embed_all _ _ (fun _ _ _ => eq_refl)) w) as E.
  destruct (run h (embed_all_ chunks) w) as [[w1 tr1] [e | embeddings]].
  - exists tr1, []. rewrite app_nil_r. now repeat split.
  - set (rest := bind (perform PoolConnect) _).
    pose proof (run_never h is_embedding rest) as T.
    destruct (run h rest w1) as [[w2 tr2] r2] eqn:R.
    exists tr1, tr2. repeat split; trivial.
    specialize (T ltac:(
      apply never_bind; [now apply never_perform|]; intros _;
      apply never_try_finally;
        [now apply never_transaction | now apply never_perform]) w1).
    now rewrite R in T.
Qed.

(** A run of [upsertDocument] that has a statement in it ends with the
    release of the client, and releases it once: the client taken from
    the pool is given back even when the transaction fails. *)
Theorem upsert_releases_client {W} (h : handler W) celex chunks w :
  let tr := trace (run h (upsertDocument_ celex chunks) w) in
  existsb is_client_query tr = true ->
  (exists before, tr = before ++ [Called ClientRelease])
  /\ length (filter is_release tr) = 1%nat.
Proof.
  cbv zeta. unfold upsertDocument. rewrite run_bind.
  pose proof (run_never h (fun ev => is_client_query ev || is_release ev)
                (embed_all_ chunks)
                (never_embed_all _ _ (fun _ _ _ => eq_refl)) w) as E.
  destruct (run h (embed_all_ chunks) w) as [[w1 tr1] [e | embeddings]].
  { unfold trace in *. cbn [fst snd] in *. intros X. exfalso.
    apply existsb_exists in X. destruct X as (ev & I & X).
    rewrite Forall_forall in E. specialize (E ev I).
    now rewrite X in E. }
  assert (F1 : filter is_release tr1 = []).
  { unfold trace in E. cbn [fst snd] in E. clear -E.
    induction E as [|ev tr H _ IH]; [reflexivity|]. cbn [filter].
    apply orb_false_iff in H. destruct H as [_ H]. now rewrite H. }
  assert (Q1 : existsb is_client_query tr1 = false).
  { unfold trace in E. cbn [fst snd] in E. clear -E.
    induction E as [|ev tr H _ IH]; [reflexivity|]. cbn [existsb].
    apply orb_false_iff in H. destruct H as [H _]. now rewrite H. }
  rewrite run_bind, run_perform.
  destruct (h _ PoolConnect w1) as [w2 [e | []]]; cbn [fst snd].
  { unfold trace. cbn [fst snd]. rewrite existsb_app, Q1. discriminate. }
  rewrite UpsertFacts.run_try_finally.
  pose proof (run_never h is_release (transaction celex (combine chunks embeddings))
                (never_transaction _ _ _ (fun _ => eq_refl)) w2) as T.
  destruct (run h (transaction celex (combine chunks embeddings)) w2)
    as [[w3 tr3] r3].
  rewrite run_perform.
  unfold trace in *. cbn [fst snd] in *. intros _. split.
  - exists (tr1 ++ [Called PoolConnect] ++ tr3).
    now rewrite <- !app_assoc.
  - rewrite !filter_app, F1. cbn [filter is_release app].
    replace (filter is_release tr3) with (@nil event); [reflexivity|].
    clear -T. induction T as [|ev tr H _ IH]; [reflexivity|]. cbn [filter].
    now rewrite H.
Qed.

End Script.

Lemma upsert_releases_client_witness :
  let tr := trace (run (Fixtures.db_world [])
                     (upsertDocument false (lit "text-embedding-3-small")
                        (fun _ => [0.5%float]) Fixtures.print_number
                        (lit "32019R1234") [lit "Unu."])
                     (mkDb [] None, tt)) in
  existsb is_client_query tr = true
  /\ (exists before, tr = before ++ [Called ClientRelease])
  /\ length (filter is_release tr) = 1%nat.
Proof.
  intros tr. split; [reflexivity|].
  apply (upsert_releases_client false (lit "text-embedding-3-small")
           (fun _ => [0.5%float]) Fixtures.print_number
           (Fixtures.db_world []) (lit "32019R1234") [lit "Unu."]
           (mkDb [] None, tt)).
  reflexivity.
Defined.

End SeedFacts.

(* ================================================================== *)
(** * One record: its requests and its rows *)
(* ================================================================== *)

Module RecordFacts.
Import JS Seed Effects.
Import Spec RunFacts Ingest Discovery Observations ProgramFacts SeedFacts.
Import Scenarios.

Local Open Scope Z_scope.

(** The trace of a program and then another. *)
Lemma trace_bind {W A B} (h : handler W) (m : io A) (f : A -> io B) w :
  exists rest,
    trace (run h (bind m f) w) = trace (run h m w) ++ rest
    /\ (rest = [] \/ exists a w1, rest = trace (run h (f a) w1)).
Proof.
  rewrite run_bind. destruct (run h m w) as [[w1 tr1] [e | a]].
  - exists []. unfold trace. cbn. rewrite app_nil_r. auto.
  - destruct (run h (f a) w1) as [[w2 tr2] r2] eqn:R. exists tr2.
    unfold trace. cbn. split; trivial. right. exists a, w1. now rewrite R.
Qed.

(** In mock mode [processItem] reads the fixture and makes no request
    and no call to the embeddings service, with or without [noEmbed]. *)
Lemma mock_mode_quiet {W} (h : handler W)
    file model mock_embedding number_to_string extractMainTokens
    item noEmbed w :
  Forall (fun ev => is_fetch ev = false /\ is_embedding ev = false)
    (trace (run h (processItem true file model mock_embedding
                     number_to_string extractMainTokens item noEmbed) w)).
Proof.
  eapply Forall_impl;
    [|apply (run_never h (fun ev => is_fetch ev || is_embedding ev))].
  - intros ev H. now apply orb_false_iff in H.
  - apply never_processItem; [reflexivity | |].
    + apply never_fetch_html. reflexivity.
    + intros _ chunks. apply never_upsertDocument; try reflexivity.
      discriminate.
Qed.

(** The two switches of the seed script.  A dry run ([noEmbed]) makes no
    call to the database and none to the embeddings service; mock mode
    ([SEED_MOCK]) makes no request and no call to the embeddings service.
    Both hold whatever the page is and whatever the calls that are made
    give. *)
Theorem processItem_spared_calls {W} (h : handler W)
    SEED_MOCK file model mock_embedding number_to_string extractMainTokens
    item noEmbed w :
  Forall (fun ev => db_event ev = false /\ is_embedding ev = false)
    (trace (run h (processItem SEED_MOCK file model mock_embedding
                     number_to_string extractMainTokens item true) w))
  /\ Forall (fun ev => is_fetch ev = false /\ is_embedding ev = false)
       (trace (run h (processItem true file model mock_embedding
                        number_to_string extractMainTokens item noEmbed) w)).
Proof.
  split; [apply dry_run_quiet | apply mock_mode_quiet].
Qed.

Section Requests.
Context {W : Type} (h : handler W).
Variable SEED_MOCK_HTML_FILE : jsstring.
Variable EMBED_MODEL : jsstring.
Variable mock_embedding : jsstring -> list float.
Variable number_to_string : float -> jsstring.
Variable extractMainTokens : jsstring -> list Token.

#[local] Abbreviation RO c := (eurlexTxtUrl (lit "RO") c).
#[local] Abbreviation EN c := (eurlexTxtUrl (lit "EN") c).

Lemma fetch_html_requests item c w :
  urlTxt item = RO c ->
  let tr := trace (run h (fetch_html false SEED_MOCK_HTML_FILE item) w) in
  Forall (fun f => f = (RO c, 25000) \/ f = (EN c, 25000)) (fetched tr)
  /\ (length (fetched tr) <= 10)%nat.
Proof.
  intros U. cbv zeta. unfold fetch_html. rewrite U.
  change (includes (lit "/RO/") (RO c)) with true.
  change (replace_first (lit "/RO/") (lit "/EN/") (RO c)) with (EN c).
  assert (G1 : forall tr,
             Forall (fun f => f = (RO c, 25000)) (fetched tr) ->
             Forall (fun f => f = (RO c, 25000) \/ f = (EN c, 25000))
               (fetched tr)).
  { intros tr. apply Forall_impl. intros f ->. now left. }
  assert (G2 : forall tr,
             Forall (fun f => f = (EN c, 25000)) (fetched tr) ->
             Forall (fun f => f = (RO c, 25000) \/ f = (EN c, 25000))
               (fetched tr)).
  { intros tr. apply Forall_impl. intros f ->. now right. }
  match goal with
  | |- context [run h (bind ?m ?f) w] =>
      destruct (trace_bind h m f w) as (rest1 & -> & R1)
  end.
  unfold fetchWithRetry in *.
  destruct (FetchFacts.loop_requests h (RO c) 800 25000 (Z.to_nat 5) 0 None w)
    as (L1 & F1 & _).
  rewrite fetched_app, length_app.
  assert (R : Forall (fun f => f = (RO c, 25000) \/ f = (EN c, 25000))
                (fetched rest1)
              /\ (length (fetched rest1) <= 5)%nat).
  { destruct R1 as [-> | (res & w1 & ->)]; [split; [constructor | cbn; lia]|].
    match goal with
    | |- context [run h (bind ?m ?f) w1] =>
        destruct (trace_bind h m f w1) as (rest2 & -> & R2)
    end.
    assert (N : fetched rest2 = []).
    { destruct R2 as [-> | (res' & w2 & ->)]; [reflexivity|].
      now destruct (negb (ok res')). }
    rewrite fetched_app, N, app_nil_r. rewrite andb_true_r.
    destruct (negb (ok res)); [|split; [constructor | cbn; lia]].
    destruct (FetchFacts.loop_requests h (EN c) 800 25000 (Z.to_nat 5) 0 None
                w1) as (L2 & F2 & _).
    split; [auto | exact L2]. }
  destruct R as [FR LR]. split.
  - apply Forall_app. split; auto.
  - lia.
Qed.

(** For an item with the address of a Romanian text page, [processItem]
    requests that page, and the English text page of the same document
    when the Romanian one is not to be had, and nothing else: at most ten
    requests, five for each, all with a time limit of 25 seconds. *)
Theorem processItem_requests item c noEmbed w :
  urlTxt item = RO c ->
  let tr := trace (run h (processItem false SEED_MOCK_HTML_FILE EMBED_MODEL
                            mock_embedding number_to_string extractMainTokens
                            item noEmbed) w) in
  Forall (fun f => f = (RO c, 25000) \/ f = (EN c, 25000)) (fetched tr)
  /\ (length (fetched tr) <= 10)%nat.
Proof.
  intros U. cbv zeta. unfold processItem.
  rewrite run_bind, run_perform.
  destruct (h _ DateNow w) as [w0 [e | t0]]; cbn [fst snd].
  { unfold trace. cbn. split; [constructor | lia]. }
  set (rest := fun html : jsstring => bind (perform DateNow) _).
  destruct (trace_bind h (fetch_html false SEED_MOCK_HTML_FILE item) rest w0)
    as (tr2 & E & R).
  destruct (fetch_html_requests item c w0 U) as [F L].
  destruct (run h (bind (fetch_html false SEED_MOCK_HTML_FILE item) rest) w0)
    as [[w3 tr3] r3].
  unfold trace in E |- *. cbn [fst snd] in E |- *. subst tr3.
  cbn [app fetched]. rewrite fetched_app.
  assert (N : fetched tr2 = []).
  { destruct R as [-> | (html & w1 & ->)]; [reflexivity|].
    apply fetched_none. apply run_never. unfold rest.
    apply never_bind; [now apply never_perform|]. intros tFetch.
    destruct (matched (isNoLongerInForce html)); [exact I|].
    destruct (buildChunks _ _ _ _) as [chunks|]; [|exact I].
    apply never_bind; [now apply never_perform|]. intros tParse.
    apply never_bind.
    - destruct (negb noEmbed); [|exact I].
      now apply never_upsertDocument.
    - intros _. apply never_bind; [now apply never_perform|]. now intros tDb. }
  rewrite N, app_nil_r. now split.
Qed.
End Requests.

Lemma processItem_requests_witness :
  let tr := trace (run offline
                     (processItem false [] (lit "text-embedding-3-small")
                        (fun _ => []) Fixtures.print_number (fun _ => [])
                        (manualItem (lit "32016R0679")) true) tt) in
  length (fetched tr) = 5%nat
  /\ Forall (fun f => f = (eurlexTxtUrl (lit "RO") (lit "32016R0679"), 25000)
                      \/ f = (eurlexTxtUrl (lit "EN") (lit "32016R0679"), 25000))
       (fetched tr)
  /\ (length (fetched tr) <= 10)%nat.
Proof.
  intros tr. split; [reflexivity|].
  apply (processItem_requests offline [] (lit "text-embedding-3-small")
           (fun _ => []) Fixtures.print_number (fun _ => [])
           (manualItem (lit "32016R0679")) (lit "32016R0679") true tt).
  reflexivity.
Defined.

(** ** The rows after an upsert *)

Section World.
Context {E : Type}.
Variable nearest : list Row -> jsstring -> Z -> list Hit.
Variable outside : handler E.
Variable fault : statement -> E -> E * option Error.
Variable SEED_MOCK : bool.
Variable EMBED_MODEL : jsstring.
Variable mock_embedding : jsstring -> list float.
Variable number_to_string : float -> jsstring.

#[local] Abbreviation h := (handle nearest outside fault).
#[local] Abbreviation embed_all_ :=
  (embed_all SEED_MOCK EMBED_MODEL mock_embedding number_to_string).
#[local] Abbreviation upsertDocument_ :=
  (upsertDocument SEED_MOCK EMBED_MODEL mock_embedding number_to_string).

(** [upsertDocument] leaves no document half written: from a database
    with no open transaction, the committed table after the run, whether
    it returned or threw, is the table before, or the table with the
    insert of every passage made; and it is the latter when the run
    returned.  An embedding that fails leaves the table as it was. *)
Theorem upsert_is_all_or_nothing celex chunks t e :
  let x := run h (upsertDocument_ celex chunks) (mkDb t None, e) in
  let after := table (fst (fst (fst x))) in
  (after = t
   \/ exists embeddings,
        length embeddings = length chunks
        /\ after = inserted celex 0 (combine chunks embeddings) t)
  /\ (result x = inr tt ->
      exists embeddings,
        length embeddings = length chunks
        /\ after = inserted celex 0 (combine chunks embeddings) t)
  /\ (forall err, result (run h (embed_all_ chunks) (mkDb t None, e)) = inl err ->
                  after = t /\ result x = inl err).
Proof.
  cbv zeta. unfold upsertDocument. rewrite run_bind.
  destruct (IngestClaims.run_db_free nearest outside fault _
              (UpsertFacts.db_free_embed_all SEED_MOCK EMBED_MODEL
                 mock_embedding number_to_string chunks)
              (mkDb t None) e) as [D _].
  destruct (run h (embed_all_ chunks) (mkDb t None, e))
    as [[[d1 e1] tr1] [err | embeddings]] eqn:RE;
    cbn [fst] in D; subst d1.
  { unfold result. cbn [fst snd table]. split; [now left|].
    split; [discriminate|]. intros err0 [= <-]. now split. }
  apply UpsertFacts.embed_all_length in RE.
  rewrite run_bind, run_perform, UpsertFacts.handle_connect.
  destruct (outside _ PoolConnect e1) as [e2 [err | []]]; cbn [fst snd].
  { unfold result. cbn [fst snd table]. split; [now left|].
    split; discriminate. }
  rewrite UpsertFacts.run_try_finally, run_try_catch.
  destruct (run h (bind (perform (ClientQuery BEGIN)) _) (mkDb t None, e2))
    as [[[d3 e3] tr3] r3] eqn:RT.
  apply UpsertFacts.run_transaction in RT. cbn [fst] in RT.
  destruct r3 as [err | []].
  - rewrite run_bind, UpsertFacts.run_statement.
    destruct (fault ROLLBACK e3) as [e4 [err' | ]]; cbn [run fst snd];
      rewrite run_perform, UpsertFacts.handle_release;
      destruct (outside _ ClientRelease _) as [e5 [err5 | []]];
      unfold result; cbn [fst snd table client_exec];
      (split; [now left|]); split; discriminate.
  - subst d3. rewrite run_perform, UpsertFacts.handle_release.
    destruct (outside _ ClientRelease e3) as [e4 [err | []]];
      unfold result; cbn [fst snd table];
      (split; [right; now exists embeddings|]);
      (split; [|discriminate]); try discriminate.
    intros _. now exists embeddings.
Qed.
End World.

(** A second insert is refused: the first one is not left behind. *)
Example upsert_rolls_back :
  let refuse_second (q : statement) (n : nat) :=
    match q with
    | INSERT_documents _ _ _ _ _ =>
        match n with
        | O => (1%nat, None)
        | S _ => (n, Some (new_Error (lit "connection lost")))
        end
    | _ => (n, None)
    end in
  let x :=
    run (handle Fixtures.nothing
           (fun X c n => (n, snd (Fixtures.quiet [] X c tt))) refuse_second)
      (upsertDocument false (lit "text-embedding-3-small")
         (fun _ => [0.5%float]) Fixtures.print_number (lit "32019R1234")
         [lit "new 0"; lit "new 1"])
      (mkDb Fixtures.stored None, O) in
  result x = inl (new_Error (lit "connection lost"))
  /\ fst (fst (fst x)) = mkDb Fixtures.stored None.
Proof. split; reflexivity. Qed.

End RecordFacts.

(* ================================================================== *)
(** * The answerer and its two routes *)
(* ================================================================== *)

Module RouteFacts.
Import JS Seed Effects.
Import Spec RunFacts Rag Observations ProgramFacts Scenarios.

Local Open Scope Z_scope.

(** ** The context *)

Lemma starts_with_app sub rest : starts_with sub (sub ++ rest) = true.
Proof.
  induction sub as [|c sub IH]; [reflexivity|]. cbn [app starts_with].
  now rewrite N.eqb_refl.
Qed.

Lemma includes_intro sub a b : includes sub (a ++ sub ++ b) = true.
Proof.
  induction a as [|c a IH]; cbn [app].
  - destruct (sub ++ b) eqn:E; cbn [includes]; rewrite <- E;
      now rewrite starts_with_app.
  - cbn [includes]. rewrite IH. apply orb_true_r.
Qed.

(** The context holds, for every retrieved passage, its citation in
    brackets and its text: what the tests of the repository check for two
    passages holds for every list of passages. *)
Theorem buildContext_includes chunks c :
  In c chunks ->
  includes (lit "[" ++ formatCitation (celex c) (chunk_id c) ++ lit "]")
    (buildContext chunks) = true
  /\ includes (content c) (buildContext chunks) = true.
Proof.
  intros I. apply in_split in I. destruct I as (before & after & ->).
  unfold buildContext. rewrite map_app. cbn [map].
  rewrite RagClaims.join_app.
  set (A := join _ (map _ before)).
  set (M1 := match map _ before with [] => _ | _ :: _ => _ end).
  set (M2 := match map _ after with [] => _ | _ :: _ => _ end).
  set (B := join _ (map _ after)).
  clearbody A M1 M2 B. unfold context_block.
  set (tag := lit "[" ++ formatCitation (celex c) (chunk_id c) ++ lit "]").
  split.
  - replace (A ++ M1 ++ (lit "[" ++ formatCitation (celex c) (chunk_id c)
                           ++ lit "]" ++ [LF] ++ content c) ++ M2 ++ B)
      with ((A ++ M1) ++ tag ++ ([LF] ++ content c ++ M2 ++ B))
      by (unfold tag; now rewrite <- !app_assoc).
    apply includes_intro.
  - replace (A ++ M1 ++ (lit "[" ++ formatCitation (celex c) (chunk_id c)
                           ++ lit "]" ++ [LF] ++ content c) ++ M2 ++ B)
      with ((A ++ M1 ++ tag ++ [LF]) ++ content c ++ (M2 ++ B))
      by (unfold tag; now rewrite <- !app_assoc).
    apply includes_intro.
Qed.

Lemma buildContext_includes_witness :
  let one := mkChunk (lit "32016R0679") (lit "32016R0679") 1
               (lit "Lorem ipsum") 0.9%float in
  let two := mkChunk (lit "32016R0679") (lit "32016R0679") 2
               (lit "Dolor sit amet") 0.8%float in
  includes (lit "[#32016R0679:2]") (buildContext [one; two]) = true
  /\ includes (lit "Dolor sit amet") (buildContext [one; two]) = true.
Proof.
  intros one two. apply (buildContext_includes [one; two] two).
  cbn. tauto.
Defined.

(** ** Runs of the answerer *)

Lemma run_try_catch_ret {W A} (h : handler W) (m : io A) (g : Error -> A) w :
  run h (try_catch m (fun e => Ret (g e))) w
  = let '(w1, tr, r) := run h m w in
    (w1, tr, inr (match r with inl e => g e | inr a => a end)).
Proof.
  rewrite run_try_catch. destruct (run h m w) as [[w1 tr] [e | a]];
    cbn [run]; now rewrite ?app_nil_r.
Qed.

Section Answerer.
Context {W : Type} (h : handler W).
Variables EMBED_MODEL CHAT_MODEL : jsstring.
Variable number_to_string : float -> jsstring.

#[local] Abbreviation retrieve_ := (retrieve EMBED_MODEL number_to_string).
#[local] Abbreviation answer_ :=
  (answer EMBED_MODEL CHAT_MODEL number_to_string).
#[local] Abbreviation generateAnswer_ :=
  (generateAnswer EMBED_MODEL CHAT_MODEL number_to_string).
#[local] Abbreviation chat_POST :=
  (ChatRoute.POST EMBED_MODEL CHAT_MODEL number_to_string).
#[local] Abbreviation ask_POST :=
  (AskRoute.POST EMBED_MODEL CHAT_MODEL number_to_string).
#[local] Abbreviation chat_ q chunks :=
  (ChatCompletionsCreate CHAT_MODEL TEMPERATURE SYSTEM
     (user_message q (buildContext chunks))).

(** The two answerers, after the same retrieval. *)
Lemma run_answer q w :
  run h (answer_ q) w
  = let '(w1, tr1, r) := run h (retrieve_ q (Some 5)) w in
    match r with
    | inl e => (w1, tr1, inl e)
    | inr chunks =>
        if insufficient chunks then (w1, tr1, inr (mkAnswer INSUFFICIENT [] []))
        else
          let (w2, c) := h _ (chat_ q chunks) w1 in
          (w2, tr1 ++ [Called (chat_ q chunks)],
           match c with
           | inl e => inl e
           | inr reply =>
               inr (mkAnswer (completion_text reply)
                      (map (fun c => formatCitation (celex c) (chunk_id c)) chunks)
                      (map (fun c => mkEntry
                                       (formatCitation (celex c) (chunk_id c))
                                       (score c)) chunks))
           end)
    end.
Proof.
  unfold answer. rewrite run_bind.
  destruct (run h (retrieve_ q (Some 5)) w) as [[w1 tr1] [e | chunks]];
    [reflexivity|].
  destruct (insufficient chunks); [cbn [run]; now rewrite app_nil_r|].
  unfold perform. cbn [bind run].
  destruct (h _ (chat_ q chunks) w1) as [w2 [e | reply]]; cbn [bind run];
    [reflexivity|]. now rewrite map_map.
Qed.

Lemma run_generateAnswer q k w :
  run h (generateAnswer_ q k) w
  = let '(w1, tr1, r) :=
      run h (retrieve_ q (Some (match k with Some k => k | None => 10 end))) w in
    match r with
    | inl e => (w1, tr1, inl e)
    | inr chunks =>
        if insufficient chunks then (w1, tr1, inr (mkGenerated INSUFFICIENT []))
        else
          let (w2, c) := h _ (chat_ q chunks) w1 in
          (w2, tr1 ++ [Called (chat_ q chunks)],
           match c with
           | inl e => inl e
           | inr reply =>
               inr (mkGenerated (completion_text reply)
                      (map (fun c => mkSource (celex c) (chunk_id c) (score c))
                         chunks))
           end)
    end.
Proof.
  unfold generateAnswer. rewrite run_bind.
  destruct (run h (retrieve_ q _) w) as [[w1 tr1] [e | chunks]];
    [reflexivity|].
  destruct (insufficient chunks); [cbn [run]; now rewrite app_nil_r|].
  unfold perform. cbn [bind run].
  now destruct (h _ (chat_ q chunks) w1) as [w2 [e | reply]].
Qed.

(** [generateAnswer] with [k = 5] and [answer] are the same answerer:
    on the same question and in the same world they make the same calls,
    leave the same world, throw the same error or return the same text
    with the same passages as sources, in the same order and with the same
    scores. *)
Theorem generateAnswer_5_is_answer q w :
  let a := run h (answer_ q) w in
  let g := run h (generateAnswer_ q (Some 5)) w in
  fst a = fst g
  /\ match result a, result g with
     | inl e, inl e' => e = e'
     | inr x, inr y =>
         answer_text x = generated_answer y
         /\ sources x
            = map (fun s => formatCitation (src_celex s) (src_chunk_id s))
                (generated_sources y)
         /\ map entry_score (sourceEntries x)
            = map relevance (generated_sources y)
         /\ map citation (sourceEntries x) = sources x
     | _, _ => False
     end.
Proof.
  cbv zeta. rewrite run_answer, run_generateAnswer.
  destruct (run h (retrieve_ q (Some 5)) w) as [[w1 tr1] [e | chunks]];
    [now split|].
  destruct (insufficient chunks); [now repeat split|].
  destruct (h _ (chat_ q chunks) w1) as [w2 [e | reply]];
    unfold result; cbn [fst snd]; [now split|].
  cbn [answer_text generated_answer sources generated_sources sourceEntries].
  rewrite !map_map. cbn [src_celex src_chunk_id relevance entry_score citation].
  repeat split.
Qed.

(** ** A failing embedding *)

(** When the embedding of the question fails, nothing else is called,
    the store least of all: [answer] and [generateAnswer] throw the error
    of the embeddings service, the chat route answers 400 with its message
    and the ask route answers 500. *)
Theorem embedding_failure_is_reported q k w w1 e zod_message :
  h _ (EmbeddingsCreate EMBED_MODEL q) w = (w1, inl e) ->
  let tr := [Called (EmbeddingsCreate EMBED_MODEL q)] in
  run h (answer_ q) w = (w1, tr, inl e)
  /\ run h (generateAnswer_ q k) w = (w1, tr, inl e)
  /\ (ChatRoute.valid (ChatRoute.mkBody (Some q) k) = true ->
      run h (chat_POST zod_message (ChatRoute.mkBody (Some q) k)) w
      = (w1, tr, inr (ChatRoute.mkHttp 400 (ChatRoute.ErrorJson (message e)))))
  /\ (AskRoute.valid (AskRoute.mkBody None (Some q) k) = true ->
      run h (ask_POST (AskRoute.mkBody None (Some q) k)) w
      = (w1, tr,
         inr (AskRoute.mkHttp 500
                (AskRoute.ErrorJson
                   (if truthy (message e) then message e
                    else lit "Unexpected error"))))).
Proof.
  intros H tr.
  assert (R : forall k', run h (retrieve_ q k') w = (w1, tr, inl e)).
  { intros k'. rewrite AnswererClaims.run_retrieve. cbv zeta. now rewrite H. }
  assert (A : run h (answer_ q) w = (w1, tr, inl e))
    by now rewrite run_answer, R.
  assert (G : forall k, run h (generateAnswer_ q k) w = (w1, tr, inl e))
    by (intros k'; now rewrite run_generateAnswer, R).
  repeat split; trivial.
  - intros V. unfold ChatRoute.POST. rewrite run_try_catch_ret.
    cbn [ChatRoute.body_message ChatRoute.body_k]. rewrite V.
    rewrite run_bind, G. reflexivity.
  - intros V. unfold AskRoute.POST. rewrite run_try_catch_ret. rewrite V.
    cbn [AskRoute.body_query AskRoute.body_question].
    rewrite run_bind, A. reflexivity.
Qed.

(** ** The chat route *)

(** [POST /api/chat] never throws: it answers 200 with an answer, or 400.
    A body that the schema rejects is answered 400 before any call is
    made.  Any similarity query of the route has a limit from 1 to 20. *)
Theorem chat_route_answers zod_message json w :
  let x := run h (chat_POST zod_message json) w in
  exists resp,
    result x = inr resp
    /\ (ChatRoute.http_status resp = 200 \/ ChatRoute.http_status resp = 400)
    /\ (ChatRoute.valid json = false ->
        x = (w, [],
             inr (ChatRoute.mkHttp 400 (ChatRoute.ErrorJson (zod_message json)))))
    /\ Forall (fun k => 1 <= k <= 20) (limits (trace x)).
Proof.
  cbv zeta. unfold ChatRoute.POST. rewrite run_try_catch_ret.
  destruct (ChatRoute.body_message json) as [message|] eqn:M.
  2:{ cbn [run]. eexists. unfold result, trace. cbn [fst snd limits].
      repeat split; auto. }
  destruct (ChatRoute.valid json) eqn:V.
  2:{ cbn [run]. eexists. unfold result, trace. cbn [fst snd limits].
      repeat split; auto. }
  rewrite run_bind.
  set (k' := match ChatRoute.body_k json with Some k => k | None => 10 end).
  assert (K : 1 <= k' <= 20).
  { unfold ChatRoute.valid in V. rewrite M in V. unfold k'.
    destruct (ChatRoute.body_k json); lia. }
  destruct (AnswererClaims.generateAnswer_limits h EMBED_MODEL CHAT_MODEL
              number_to_string message (Some k') w) as [L _].
  cbv zeta in L.
  destruct (run h (generateAnswer_ message (Some k')) w) as [[w1 tr1] [e | g]];
    cbn [run]; rewrite ?app_nil_r; eexists; unfold result, trace in *;
    cbn [fst snd ChatRoute.http_status] in *;
    (split; [reflexivity|]); (split; [auto|]); (split; [discriminate|]);
    destruct L as [-> | ->]; repeat constructor; lia.
Qed.

(** ** The ask route *)

Lemma answer_limits q w :
  at_most_one 5 (trace (run h (answer_ q) w)).
Proof.
  unfold answer.
  apply (AnswererClaims.limits_after_retrieve h EMBED_MODEL number_to_string
           _ q (Some 5) w).
  intros chunks w'. destruct (insufficient chunks); [reflexivity|].
  apply (AnswererClaims.chat_no_limit h CHAT_MODEL q chunks
           (fun c => mkAnswer (completion_text c)
              (map citation
                 (map (fun c => mkEntry (formatCitation (celex c) (chunk_id c))
                                  (score c)) chunks))
              (map (fun c => mkEntry (formatCitation (celex c) (chunk_id c))
                               (score c)) chunks))).
Qed.

Lemma ask_route_run json w :
  let x := run h (ask_POST json) w in
  (AskRoute.valid json = false ->
   x = (w, [], inr (AskRoute.mkHttp 400 AskRoute.InvalidRequest)))
  /\ (AskRoute.valid json = true ->
      exists q,
        (AskRoute.body_query json = Some q
         \/ AskRoute.body_query json = None
            /\ AskRoute.body_question json = Some q)
        /\ x = let '(w1, tr, r) := run h (answer_ q) w in
               (w1, tr,
                inr (match r with
                     | inr a => AskRoute.mkHttp 200 (AskRoute.ResultJson a)
                     | inl e =>
                         AskRoute.mkHttp 500
                           (AskRoute.ErrorJson
                              (if truthy (message e) then message e
                               else lit "Unexpected error"))
                     end)))
  /\ (exists resp, result x = inr resp)
  /\ Forall (fun k => k = 5) (limits (trace x)).
Proof.
  cbv zeta. unfold AskRoute.POST. rewrite run_try_catch_ret.
  destruct (AskRoute.valid json) eqn:V.
  2:{ cbn [run]. unfold result, trace. cbn [fst snd limits].
      repeat split; eauto; discriminate. }
  assert (Q : exists q,
             (AskRoute.body_query json = Some q
              \/ AskRoute.body_query json = None
                 /\ AskRoute.body_question json = Some q)
             /\ match AskRoute.body_query json, AskRoute.body_question json with
                | Some q, _ | None, Some q =>
                    bind (answer_ q) (fun result =>
                    Ret (AskRoute.mkHttp 200 (AskRoute.ResultJson result)))
                | None, None => Ret (AskRoute.mkHttp 400 AskRoute.InvalidRequest)
                end
                = bind (answer_ q) (fun result =>
                  Ret (AskRoute.mkHttp 200 (AskRoute.ResultJson result)))).
  { unfold AskRoute.valid in V.
    destruct (AskRoute.body_query json) as [q|].
    - exists q. auto.
    - destruct (AskRoute.body_question json) as [q|].
      + exists q. auto.
      + cbn in V. rewrite andb_false_r in V. discriminate. }
  destruct Q as (q & Hq & ->). rewrite run_bind.
  pose proof (answer_limits q w) as L.
  destruct (run h (answer_ q) w) as [[w1 tr1] [e | a]] eqn:RA; cbn [run];
    rewrite ?app_nil_r; unfold result, trace in *; cbn [fst snd] in *;
    (split; [discriminate|]);
    (split; [intros _; exists q; now rewrite RA|]);
    (split; [eauto|]); destruct L as [-> | ->]; repeat constructor.
Qed.

(** [POST /api/ask] never throws: it answers 400 for a body the schema
    rejects, before any call is made; for a body it accepts it runs
    [answer] on [query], or on [question] when there is no [query], and
    answers 200 with the result, or 500 with the message of the error.
    The schema accepts a [k] from 1 to 50 and the route does not use it:
    any similarity query has the limit 5. *)
Theorem ask_route_answers json w :
  let x := run h (ask_POST json) w in
  (AskRoute.valid json = false ->
   x = (w, [], inr (AskRoute.mkHttp 400 AskRoute.InvalidRequest)))
  /\ (AskRoute.valid json = true ->
      exists q,
        (AskRoute.body_query json = Some q
         \/ AskRoute.body_query json = None
            /\ AskRoute.body_question json = Some q)
        /\ x = let '(w1, tr, r) := run h (answer_ q) w in
               (w1, tr,
                inr (match r with
                     | inr a => AskRoute.mkHttp 200 (AskRoute.ResultJson a)
                     | inl e =>
                         AskRoute.mkHttp 500
                           (AskRoute.ErrorJson
                              (if truthy (message e) then message e
                               else lit "Unexpected error"))
                     end)))
  /\ (exists resp, result x = inr resp)
  /\ Forall (fun k => k = 5) (limits (trace x)).
Proof. apply ask_route_run. Qed.

(** What the page posts is never rejected by the ask route: [send] posts
    only a question that is not blank, trimmed, and nothing when a request
    is pending; the route answers it 200 or 500, not 400. *)
Theorem page_question_is_accepted input pending body w :
  Page.send_body input pending = Some body ->
  pending = false
  /\ body = AskRoute.mkBody None (Some (trim input)) None
  /\ AskRoute.valid body = true
  /\ exists resp,
       result (run h (ask_POST body) w) = inr resp
       /\ (AskRoute.http_status resp = 200 \/ AskRoute.http_status resp = 500).
Proof.
  unfold Page.send_body.
  destruct (truthy (trim input)) eqn:T; [|discriminate].
  destruct pending; [discriminate|]. cbn [negb orb]. intros [= <-].
  assert (V : AskRoute.valid (AskRoute.mkBody None (Some (trim input)) None)
              = true).
  { unfold AskRoute.valid. cbn. unfold len.
    destruct (trim input); [discriminate|]. cbn [length].
    rewrite !andb_true_r. apply Z.leb_le. lia. }
  repeat split; trivial.
  destruct (ask_route_run (AskRoute.mkBody None (Some (trim input)) None) w)
    as (_ & R & _).
  destruct (R V) as (q & _ & ->).
  destruct (run h (answer_ q) w) as [[w1 tr1] [e | a]]; eexists;
    (split; [reflexivity|]); cbn; auto.
Qed.

End Answerer.

Lemma embedding_failure_is_reported_witness :
  let model := lit "text-embedding-3-small" in
  let q := lit "Ce este GDPR?" in
  let quota := mkError (Some 429) (lit "quota") in
  let tr := [Called (EmbeddingsCreate model q)] in
  run no_embeddings (answer model (lit "gpt-4o") Fixtures.print_number q) tt
  = (tt, tr, inl quota)
  /\ run no_embeddings
       (ChatRoute.POST model (lit "gpt-4o") Fixtures.print_number (fun _ => [])
          (ChatRoute.mkBody (Some q) None)) tt
     = (tt, tr, inr (ChatRoute.mkHttp 400 (ChatRoute.ErrorJson (lit "quota"))))
  /\ run no_embeddings
       (AskRoute.POST model (lit "gpt-4o") Fixtures.print_number
          (AskRoute.mkBody None (Some q) None)) tt
     = (tt, tr, inr (AskRoute.mkHttp 500 (AskRoute.ErrorJson (lit "quota")))).
Proof.
  intros model q quota tr.
  destruct (embedding_failure_is_reported no_embeddings model (lit "gpt-4o")
              Fixtures.print_number q None tt tt quota (fun _ => []) eq_refl)
    as (A & _ & C & K).
  split; [exact A|]. split; [exact (C eq_refl) | exact (K eq_refl)].
Defined.

Lemma page_question_is_accepted_witness :
  Page.send_body (lit "  Ce este GDPR? ") false
  = Some (AskRoute.mkBody None (Some (lit "Ce este GDPR?")) None)
  /\ AskRoute.valid (AskRoute.mkBody None (Some (lit "Ce este GDPR?")) None)
     = true.
Proof.
  split; [reflexivity|].
  destruct (page_question_is_accepted (Fixtures.quiet [])
              (lit "text-embedding-3-small") (lit "gpt-4o")
              Fixtures.print_number (lit "  Ce este GDPR? ") false
              (AskRoute.mkBody None (Some (lit "Ce este GDPR?")) None) tt
              eq_refl) as (_ & _ & V & _).
  exact V.
Defined.

End RouteFacts.

(* ================================================================== *)
(** * The chunker: where the passages come from *)
(* ================================================================== *)

Module PassageLaws.
Import JS Seed Effects.
Import Spec TextFacts CleaningFacts ChunkingFacts ChunkerFacts Parse.
Import Observations ParseFacts CleanFacts PassageFacts.

Local Open Scope Z_scope.

(** ** The hard split, slice by slice *)

Section Slices.
Variables minSize maxSize : Z.

#[local] Abbreviation addSlice_ := (addSlice minSize maxSize).

Lemma hardSplit_done fuel s start a :
  len s <= start -> hardSplit minSize maxSize fuel s start a = Some a.
Proof.
  intros H. destruct fuel; cbn [hardSplit];
    destruct (Z.ltb_spec start (len s)); trivial; lia.
Qed.

Lemma hardSplit_step fuel s start a :
  start < len s ->
  hardSplit minSize maxSize (S fuel) s start a
  = hardSplit minSize maxSize fuel s (Z.min (start + maxSize) (len s))
      (addSlice_ a (slice s start (Z.min (start + maxSize) (len s)))).
Proof.
  intros H. cbn [hardSplit]. destruct (Z.ltb_spec start (len s)); [|lia].
  reflexivity.
Qed.

Lemma slice_to_end s start :
  0 <= start <= len s -> slice s start (len s) = skipn (Z.to_nat start) s.
Proof.
  intros H. rewrite slice_inside by lia.
  apply firstn_all2. rewrite length_skipn. unfold len in *. lia.
Qed.

Lemma len_slice s i j :
  0 <= i <= j -> j <= len s -> len (slice s i j) = j - i.
Proof.
  intros Hi Hj. rewrite slice_inside by assumption. unfold len in *.
  rewrite length_firstn, length_skipn. lia.
Qed.

(** A hard split that ends has cut what was left of the sentence into
    slices of exactly [maxSize] code units and a last one of 1 to
    [maxSize], and has added them to the buffer one after the other. *)
Lemma hardSplit_slices s : forall fuel start a b,
  0 <= start < len s ->
  hardSplit minSize maxSize fuel s start a = Some b ->
  exists slices last_,
    skipn (Z.to_nat start) s = concat slices ++ last_
    /\ Forall (fun p => len p = maxSize) slices
    /\ 0 < len last_ <= maxSize
    /\ b = fold_left addSlice_ (slices ++ [last_]) a.
Proof.
  induction fuel as [|fuel IH]; intros start a b Hs.
  { cbn [hardSplit]. destruct (Z.ltb_spec start (len s)); [discriminate | lia]. }
  destruct (Z_le_gt_dec maxSize 0) as [Hmax | Hmax].
  { intros H. rewrite hardSplit_diverges in H; [discriminate | lia | lia]. }
  rewrite hardSplit_step by lia.
  set (end_ := Z.min (start + maxSize) (len s)).
  set (sl := slice s start end_).
  pose proof (skipn_slice s start end_ ltac:(unfold end_; lia)
                ltac:(unfold end_; lia)) as Sk. fold sl in Sk.
  destruct (Z_lt_le_dec end_ (len s)) as [L | L].
  - intros H. apply IH in H; [|unfold end_ in *; lia].
    destruct H as (slices & last_ & E & F & Hl & ->).
    exists (sl :: slices), last_. cbn [concat app fold_left].
    rewrite Sk, E, <- app_assoc. repeat split; trivial; try lia.
    constructor; trivial. unfold sl. rewrite len_slice; unfold end_ in *; lia.
  - rewrite hardSplit_done by lia. intros [= <-].
    exists [], sl. cbn [concat app fold_left].
    assert (end_ = len s) as E by (unfold end_ in *; lia).
    rewrite Sk, skipn_all2, app_nil_r by (unfold len in *; lia).
    repeat split; trivial; try constructor;
      unfold sl; rewrite len_slice; unfold end_ in *; lia.
Qed.

(** The branch of [addSentence] that hard-splits. *)
Lemma addSentence_hardSplit fuel a s :
  maxSize < len (if len (current a) >? 0 then current a ++ [SP] ++ s else s) ->
  len (current a) < minSize ->
  maxSize <= len s ->
  addSentence minSize maxSize fuel a s = hardSplit minSize maxSize fuel s 0 a.
Proof.
  intros T C S. unfold addSentence. cbv zeta.
  match goal with
  | |- context [?x <=? maxSize] => destruct (Z.leb_spec x maxSize) as [T' | T']
  end.
  { exfalso. apply (Z.lt_irrefl maxSize).
    eapply Z.lt_le_trans; [exact T | exact T']. }
  destruct (Z.geb_spec (len (current a)) minSize); [lia|].
  destruct (Z.geb_spec (len s) maxSize); [reflexivity | lia].
Qed.
End Slices.

(** ** What the buffer and the passages can be *)

Lemma in_concat_piece (l : list jsstring) p :
  In p l -> exists u v, concat l = u ++ p ++ v.
Proof.
  intros H. apply in_split in H. destruct H as (l1 & l2 & ->).
  exists (concat l1), (concat l2). now rewrite concat_app.
Qed.

Section Kinds.
Variables minSize maxSize : Z.
Variables isH isS : jsstring -> Prop.

#[local] Abbreviation allowed_ := (allowed minSize maxSize isH isS).
#[local] Abbreviation kind := (buffer_kind minSize maxSize isH isS).
#[local] Abbreviation good a := (Forall allowed_ (chunks a) /\ kind (current a)).

Lemma kind_nil : kind [].
Proof. left. exists [], []. auto. Qed.

Lemma kind_short s : len s <= maxSize -> kind s.
Proof. intros H. left. exists [], s. auto. Qed.

(** A buffer that is flushed gives a passage that is allowed. *)
Lemma allowed_cleanText cur :
  kind cur -> cleanText cur <> [] -> allowed_ (cleanText cur).
Proof.
  intros [(w & core & -> & B & L) | [(w & h & H & B & ->)
         | [(s & S & L & ->) | (s & b & p & S & L & P & Lb & Lp & ->)]]] N.
  - left. rewrite (cleanText_blank_app _ _ B) in *.
    destruct L as [-> | L]; [now destruct N|].
    pose proof (len_cleanText core). lia.
  - right. left. exists h. split; trivial. now apply cleanText_blank_app.
  - right. right. left. now exists s.
  - right. right. right. exists s, b, p. repeat split; trivial; try apply P.
    pose proof (len_cleanText (b ++ p)). rewrite len_app in *. lia.
Qed.

Lemma good_flush a : good a -> good (flush a).
Proof.
  intros [C K]. split; [|apply kind_nil]. unfold flush. cbn [chunks].
  destruct (cleanText (current a)) eqn:E; cbn [truthy]; trivial.
  apply Forall_app. split; trivial. constructor; [|constructor].
  rewrite <- E. apply allowed_cleanText; trivial. now rewrite E.
Qed.

(** A heading: the buffer is the heading, after blank text. *)
Lemma good_heading fuel a t b :
  good a -> type t = Heading -> isH (text t) ->
  addToken minSize maxSize fuel a t = Some b -> good b.
Proof.
  intros G Ty H. unfold addToken. rewrite Ty. intros [= <-].
  destruct (Z.gtb_spec (len (trim (current a))) 0) as [T | T].
  - destruct (good_flush a G) as [C _]. split; [exact C|].
    cbn [flush current truthy app]. right. left. exists [], (text t). auto.
  - destruct G as [C _]. split; [exact C|]. cbn [current].
    right. left.
    exists (current a ++ if truthy (current a) then [LF] else []), (text t).
    repeat split; trivial.
    + assert (B : nw (current a) = []).
      { apply trim_nil_iff. destruct (trim (current a));
          [reflexivity | cbn in T; lia]. }
      rewrite nw_app, B. now destruct (truthy (current a)).
    + now rewrite <- !app_assoc.
Qed.

(** One slice of the hard split of [s]. *)
Lemma good_addSlice a s p :
  Forall allowed_ (chunks a) ->
  len (current a) < minSize \/ kind (current a) ->
  isS s -> maxSize <= len s -> piece p s -> len p <= maxSize ->
  good (addSlice minSize maxSize a p).
Proof.
  intros C K S Ls P Lp. unfold addSlice. cbv zeta.
  destruct (Z.gtb_spec (len (current a) + len p + 1) maxSize) as [X | X];
    cbn [andb].
  - destruct (Z.geb_spec (len (current a)) minSize) as [Y | Y].
    + destruct K as [K | K]; [lia|].
      destruct (good_flush a (conj C K)) as [C' _]. split; [exact C'|].
      cbn [flush current truthy app]. now apply kind_short.
    + split; [exact C|]. cbn [current chunks]. right. right. right.
      exists s, (current a ++ if truthy (current a) then [SP] else []), p.
      repeat split; trivial; try apply P; [|now rewrite <- !app_assoc].
      rewrite !len_app. destruct (truthy (current a));
        [change (len [SP]) with 1 | change (len []) with 0]; lia.
  - split; [exact C|]. cbn [current chunks]. apply kind_short.
    rewrite !len_app. destruct (truthy (current a));
      [change (len [SP]) with 1 | change (len []) with 0]; lia.
Qed.

Lemma good_slices s l : forall a,
  Forall allowed_ (chunks a) ->
  len (current a) < minSize \/ kind (current a) ->
  isS s -> maxSize <= len s ->
  Forall (fun p => piece p s /\ len p <= maxSize) l -> l <> [] ->
  good (fold_left (addSlice minSize maxSize) l a).
Proof.
  induction l as [|p l IH]; intros a C K S Ls F N; [now destruct N|].
  inversion F as [|p' l' [P Lp] F']; subst. cbn [fold_left].
  pose proof (good_addSlice a s p C K S Ls P Lp) as [C1 K1].
  destruct l as [|q l]; [now split|].
  apply IH; auto. discriminate.
Qed.

(** One sentence. *)
Lemma good_sentence fuel a s b :
  good a -> isS s ->
  addSentence minSize maxSize fuel a s = Some b -> good b.
Proof.
  intros G S. pose proof G as [C K]. unfold addSentence. cbv zeta.
  match goal with
  | |- context [?x <=? maxSize] => destruct (Z.leb_spec x maxSize) as [T | T]
  end.
  { intros [= <-]. split; [exact C|]. now apply kind_short. }
  destruct (Z.geb_spec (len (current a)) minSize) as [Y | Y].
  { intros [= <-]. destruct (good_flush a G) as [C' _]. split; [exact C'|].
    cbn [current]. destruct (Z_le_gt_dec (len s) maxSize) as [L | L];
      [now apply kind_short|].
    right. right. left. exists s. repeat split; trivial. lia. }
  destruct (Z.geb_spec (len s) maxSize) as [L | L].
  - destruct (Z_le_gt_dec (len s) 0) as [Z0 | Z0].
    { rewrite hardSplit_done by lia. now intros [= <-]. }
    intros H.
    destruct (Z_le_gt_dec maxSize 0) as [Hmax | Hmax].
    { rewrite hardSplit_diverges in H; [discriminate | lia | lia]. }
    apply hardSplit_slices in H; [|lia].
    destruct H as (slices & last_ & E & F & Hl & ->). cbn [skipn Z.to_nat] in E.
    apply (good_slices s); auto; [|now destruct slices].
    apply Forall_forall. intros p Hp.
    assert (Lp : 0 < len p <= maxSize).
    { apply in_app_or in Hp. destruct Hp as [Hp | [<- | []]]; [|lia].
      rewrite Forall_forall in F. rewrite (F p Hp). lia. }
    split; [|lia]. split.
    + intros ->. cbn in Lp. lia.
    + destruct (in_concat_piece (slices ++ [last_]) p Hp) as (u & v & Q).
      exists u, v. rewrite <- Q, concat_app. cbn [concat].
      now rewrite app_nil_r.
  - intros [= <-]. split.
    + destruct (truthy (current a)); [apply (good_flush a G) | exact C].
    + cbn [current]. apply kind_short. lia.
Qed.

Lemma good_sentences fuel l : forall a b,
  good a -> (forall s, In s l -> isS s) ->
  ofold (addSentence minSize maxSize fuel) l a = Some b -> good b.
Proof.
  induction l as [|s l IH]; intros a b G H; cbn [ofold].
  { now intros [= <-]. }
  destruct (addSentence minSize maxSize fuel a s) as [a1|] eqn:E;
    cbn [obind]; [|discriminate].
  apply IH; [|intros; apply H; now right].
  apply (good_sentence fuel a s a1); auto. apply H. now left.
Qed.

Lemma good_tokens fuel tokens : forall a b,
  good a ->
  (forall t, In t tokens -> type t = Heading -> isH (text t)) ->
  (forall s, In s (sentences tokens) -> isS s) ->
  ofold (addToken minSize maxSize fuel) tokens a = Some b -> good b.
Proof.
  induction tokens as [|t tokens IH]; intros a b G Hh Hs; cbn [ofold].
  { now intros [= <-]. }
  destruct (addToken minSize maxSize fuel a t) as [a1|] eqn:E;
    cbn [obind]; [|discriminate].
  apply IH.
  - destruct (type t) eqn:Ty.
    + apply (good_heading fuel a t a1); auto. apply Hh; auto. now left.
    + unfold addToken in E. rewrite Ty in E.
      apply (good_sentences fuel _ a a1) in E; auto.
      intros s Hin. apply Hs. unfold sentences. cbn [flat_map]. rewrite Ty.
      apply in_or_app. now left.
  - intros; apply Hh; auto. now right.
  - intros s Hin. apply Hs. unfold sentences in *. cbn [flat_map].
    apply in_or_app. now right.
Qed.
End Kinds.

(** Every passage is allowed. *)
Lemma buildChunks_allowed minSize maxSize fuel tokens passages :
  buildChunks minSize maxSize fuel tokens = Some passages ->
  Forall (allowed minSize maxSize (heading_of tokens) (sentence_of tokens))
    passages.
Proof.
  unfold buildChunks.
  destruct (ofold _ tokens _) as [a|] eqn:E; cbn [obind]; [|discriminate].
  intros [= <-].
  apply (good_tokens minSize maxSize (heading_of tokens) (sentence_of tokens))
    in E.
  - destruct (truthy (trim (current a))); [apply (good_flush _ _ _ _ a E)|].
    apply E.
  - split; [constructor | apply kind_nil].
  - intros t Hin Ty. now exists t.
  - now intros s Hin.
Qed.

(** ** Sentences end with a code unit that is not whitespace *)

Lemma is_ws_cases c :
  is_ws c = true ->
  (9 <= c <= 13 \/ c = 32 \/ c = 160 \/ c = 0x1680 \/ 0x2000 <= c <= 0x200A
   \/ c = 0x2028 \/ c = 0x2029 \/ c = 0x202F \/ c = 0x205F \/ c = 0x3000
   \/ c = 0xFEFF)%N.
Proof.
  unfold is_ws.
  rewrite !orb_true_iff, !andb_true_iff, !N.leb_le, !N.eqb_eq. tauto.
Qed.

Lemma sentence_end_not_ws c : is_sentence_end c = true -> is_ws c = false.
Proof.
  unfold is_sentence_end. rewrite !orb_true_iff, !N.eqb_eq.
  intros [[-> | ->] | ->]; reflexivity.
Qed.

Lemma capital_not_ws c : is_capital c = true -> is_ws c = false.
Proof.
  unfold is_capital.
  rewrite !orb_true_iff, !andb_true_iff, !N.leb_le, !N.eqb_eq. intros H.
  destruct (is_ws c) eqn:W; [|reflexivity].
  apply is_ws_cases in W. exfalso. lia.
Qed.

Lemma ends_solid_nonblank s : ends_solid s -> nonblank s.
Proof.
  intros (x & c & -> & H). unfold nonblank. rewrite nw_app.
  rewrite (nw_cons_nws H). now destruct (nw x).
Qed.

Lemma ends_solid_app x s : ends_solid s -> ends_solid (x ++ s).
Proof.
  intros (y & c & -> & H). exists (x ++ y), c. now rewrite app_assoc.
Qed.

Lemma ends_solid_tail c s : s <> [] -> ends_solid (c :: s) -> ends_solid s.
Proof.
  intros N (x & d & E & H). destruct x as [|y x].
  - cbn in E. injection E as -> ->. now destruct N.
  - cbn in E. injection E as -> ->. now exists x, d.
Qed.

Lemma ends_solid_suffix x s : s <> [] -> ends_solid (x ++ s) -> ends_solid s.
Proof.
  intros N. induction x as [|c x IH]; [trivial|]. cbn [app]. intros H.
  apply IH. apply (ends_solid_tail c); trivial. now destruct x, s.
Qed.

(** The parts [split] makes of a text that ends with a code unit that
    is not whitespace end so too: a part ends before a separator, where a
    full stop or the like is, or where the text ends. *)
Lemma split_from_solid s : forall skip prev part,
  (part = [] ->
   exists u rest, skipn skip s = u :: rest /\ is_ws u = false) ->
  (part <> [] -> skip = O /\ exists x p, part = x ++ [p] /\ prev = Some p) ->
  ends_solid (part ++ s) ->
  Forall ends_solid (split_from skip prev part s).
Proof.
  induction s as [|c s IH]; intros skip prev part H1 H2 H3; cbn [split_from].
  { constructor; [|constructor]. rewrite app_nil_r in H3. exact H3. }
  destruct skip as [|n].
  - destruct (sep_match prev (c :: s)) as [[|n]|] eqn:M.
    + apply IH.
      * intros E. now destruct part.
      * intros _. split; trivial. now exists part, c.
      * now rewrite <- app_assoc.
    + pose proof (sep_match_run _ _ _ M) as R.
      apply ws_run_head in R. destruct R as [Wc R].
      assert (Np : part <> []).
      { intros ->. destruct (H1 eq_refl) as (u & rest & E & Hu).
        cbn in E. injection E as <- <-. congruence. }
      destruct (H2 Np) as (_ & x & p & -> & ->).
      assert (Hu : exists u rest, skipn n s = u :: rest /\ is_ws u = false).
      { pose proof (sep_match_run _ _ _ M) as R'. unfold sep_match in M.
        destruct (is_sentence_end p); [|discriminate].
        rewrite R' in M. cbn [skipn] in M.
        destruct (skipn n s) as [|u rest]; [discriminate|].
        exists u, rest. split; trivial. apply capital_not_ws.
        now destruct (is_capital u). }
      constructor.
      * exists x, p. split; trivial. apply sentence_end_not_ws.
        unfold sep_match in M. now destruct (is_sentence_end p).
      * apply IH; [now intros _ | now intros [] |].
        destruct Hu as (u & rest & E & _). cbn [app].
        apply (ends_solid_suffix ((x ++ [p]) ++ [c])).
        -- intros ->. now destruct n.
        -- rewrite <- (app_assoc _ [c] s). exact H3.
    + apply IH.
      * intros E. now destruct part.
      * intros _. split; trivial. now exists part, c.
      * now rewrite <- app_assoc.
  - assert (part = []) as ->.
    { destruct part; [reflexivity|]. now destruct H2 as [[=] _]. }
    destruct (H1 eq_refl) as (u & rest & E & Hu). cbn [skipn] in E.
    apply IH; [intros _; now exists u, rest | now intros [] |].
    cbn [app] in *. apply (ends_solid_tail c); trivial.
    intros ->. now destruct n.
Qed.

Lemma trimmed_solid c t :
  trimmed (c :: t) = true -> is_ws c = false /\ ends_solid (c :: t).
Proof.
  unfold trimmed. intros H. apply andb_true_iff in H. destruct H as [H1 H2].
  apply negb_true_iff in H1. split; trivial.
  destruct (rev (c :: t)) as [|d r] eqn:E.
  - apply (f_equal (@rev char)) in E. rewrite rev_involutive in E.
    discriminate.
  - apply negb_true_iff in H2. exists (rev r), d. split; trivial.
    apply (f_equal (@rev char)) in E. rewrite rev_involutive in E.
    exact E.
Qed.

Lemma sentenceSplit_solid p : Forall ends_solid (sentenceSplit p).
Proof.
  unfold sentenceSplit.
  pose proof (trimmed_trim (replace_runs is_ws 1 [SP] p)) as T.
  destruct (trim (replace_runs is_ws 1 [SP] p)) as [|c t]; [constructor|].
  cbn [truthy]. apply trimmed_solid in T. destruct T as [Hc Ht].
  destruct (length (split_sentences (c :: t)) <=? 1)%nat;
    [now repeat constructor|].
  unfold split_sentences. apply split_from_solid; trivial.
  - intros _. now exists c, t.
  - now intros [].
Qed.

(** ** The buffer between two tokens *)

Section Tidy.
Variables minSize maxSize : Z.
Variable fuel : nat.

Lemma tidy_flush a : tidy (flush a).
Proof. now left. Qed.

Lemma tidy_heading a t b :
  type t = Heading -> nonblank (text t) ->
  addToken minSize maxSize fuel a t = Some b -> tidy b.
Proof.
  intros Ty N. unfold addToken. rewrite Ty. intros [= <-]. right.
  cbn [current]. apply nonblank_app_r, nonblank_app_r.
  now apply nonblank_app_l.
Qed.

Lemma addSlice_current a p :
  exists x, current (addSlice minSize maxSize a p) = x ++ p.
Proof.
  unfold addSlice. cbv zeta. cbn [current]. rewrite app_assoc. eauto.
Qed.

Lemma tidy_sentence a s b :
  ends_solid s -> addSentence minSize maxSize fuel a s = Some b -> tidy b.
Proof.
  intros S. pose proof (ends_solid_nonblank s S) as N.
  unfold addSentence. cbv zeta.
  destruct (_ <=? maxSize).
  { intros [= <-]. right. cbn [current].
    destruct (len (current a) >? 0); trivial.
    apply nonblank_app_r. now apply (nonblank_app_r [SP]). }
  destruct (len (current a) >=? minSize); [intros [= <-]; now right|].
  destruct (len s >=? maxSize); [|intros [= <-]; now right].
  intros H. right.
  assert (Ls : 0 < len s).
  { destruct S as (x & c & -> & _). rewrite len_app. unfold len. cbn. lia. }
  apply hardSplit_slices in H; [|lia].
  destruct H as (slices & last_ & E & _ & Hl & ->). cbn [skipn Z.to_nat] in E.
  rewrite fold_left_app. cbn [fold_left].
  match goal with
  | |- nonblank (current (addSlice _ _ ?a0 _)) =>
      destruct (addSlice_current a0 last_) as [x Ex]
  end.
  rewrite Ex.
  apply nonblank_app_r, ends_solid_nonblank.
  apply (ends_solid_suffix (concat slices)); [|now rewrite <- E].
  intros ->. cbn in Hl. lia.
Qed.

Lemma tidy_sentences l : forall a b,
  tidy a -> Forall ends_solid l ->
  ofold (addSentence minSize maxSize fuel) l a = Some b -> tidy b.
Proof.
  induction l as [|s l IH]; intros a b T F; cbn [ofold].
  { now intros [= <-]. }
  inversion F; subst.
  destruct (addSentence minSize maxSize fuel a s) as [a1|] eqn:E;
    cbn [obind]; [|discriminate].
  apply IH; trivial. now apply (tidy_sentence a s).
Qed.

Lemma tidy_token a t b :
  tidy a -> (type t = Heading -> nonblank (text t)) ->
  addToken minSize maxSize fuel a t = Some b -> tidy b.
Proof.
  intros T N H. destruct (type t) eqn:Ty.
  - apply (tidy_heading a t); auto.
  - unfold addToken in H. rewrite Ty in H.
    apply (tidy_sentences (sentenceSplit (text t)) a); trivial.
    apply sentenceSplit_solid.
Qed.

Lemma tidy_tokens tokens : forall a b,
  tidy a ->
  (forall t, In t tokens -> type t = Heading -> nonblank (text t)) ->
  ofold (addToken minSize maxSize fuel) tokens a = Some b -> tidy b.
Proof.
  induction tokens as [|t tokens IH]; intros a b T N; cbn [ofold].
  { now intros [= <-]. }
  destruct (addToken minSize maxSize fuel a t) as [a1|] eqn:E;
    cbn [obind]; [|discriminate].
  apply IH.
  - apply (tidy_token a t); trivial. apply N. now left.
  - intros; apply N; trivial. now right.
Qed.

(** A heading met with a tidy buffer: a buffer that is not empty is
    flushed as a passage, and the heading starts a fresh buffer. *)
Lemma heading_on_tidy a h :
  tidy a ->
  (current a <> [] -> cleanText (current a) <> [])
  /\ addToken minSize maxSize fuel a (mkToken Heading h)
     = Some (mkAcc (if truthy (current a)
                    then chunks a ++ [cleanText (current a)]
                    else chunks a)
               (h ++ [LF])).
Proof.
  intros [E | N].
  - split; [now rewrite E|]. rewrite heading_keeps by now rewrite E.
    now rewrite E.
  - destruct (heading_flushes minSize maxSize fuel a h N) as [C ->].
    split; [trivial|]. destruct (current a); [now destruct N | reflexivity].
Qed.

(** ** The passages made so far are out of reach *)

Lemma flush_prepend cs a : flush (prepend cs a) = prepend cs (flush a).
Proof.
  unfold flush, prepend. cbn [chunks current].
  destruct (truthy (cleanText (current a))); [|reflexivity].
  now rewrite app_assoc.
Qed.

Lemma hardSplit_prepend cs s : forall n start a,
  hardSplit minSize maxSize n s start (prepend cs a)
  = option_map (prepend cs) (hardSplit minSize maxSize n s start a).
Proof.
  induction n as [|n IH]; intros start a; cbn [hardSplit];
    destruct (start <? len s); try reflexivity.
  cbv zeta. cbn [prepend current].
  destruct ((_ >? maxSize) && _).
  - rewrite <- IH. f_equal. change (mkAcc (cs ++ chunks a) (current a))
      with (prepend cs a). rewrite flush_prepend. reflexivity.
  - rewrite <- IH. reflexivity.
Qed.

Lemma addSentence_prepend cs a s :
  addSentence minSize maxSize fuel (prepend cs a) s
  = option_map (prepend cs) (addSentence minSize maxSize fuel a s).
Proof.
  unfold addSentence. cbv zeta. cbn [prepend current].
  destruct (_ <=? maxSize); [reflexivity|].
  change (mkAcc (cs ++ chunks a) (current a)) with (prepend cs a).
  destruct (len (current a) >=? minSize).
  { rewrite flush_prepend. reflexivity. }
  destruct (len s >=? maxSize); [apply hardSplit_prepend|].
  destruct (truthy (current a)); [|reflexivity].
  rewrite flush_prepend. reflexivity.
Qed.

Lemma ofold_prepend {B} (f : acc -> B -> option acc) cs :
  (forall a t, f (prepend cs a) t = option_map (prepend cs) (f a t)) ->
  forall l a,
    ofold f l (prepend cs a) = option_map (prepend cs) (ofold f l a).
Proof.
  intros Hf. induction l as [|t l IH]; intros a; cbn [ofold]; [reflexivity|].
  rewrite Hf. destruct (f a t) as [a1|]; cbn [obind option_map];
    [apply IH | reflexivity].
Qed.

Lemma addToken_prepend cs a t :
  addToken minSize maxSize fuel (prepend cs a) t
  = option_map (prepend cs) (addToken minSize maxSize fuel a t).
Proof.
  unfold addToken. destruct (type t).
  - cbn [prepend current option_map].
    change (mkAcc (cs ++ chunks a) (current a)) with (prepend cs a).
    destruct (len (trim (current a)) >? 0); [|reflexivity].
    rewrite flush_prepend. reflexivity.
  - apply ofold_prepend. intros; apply addSentence_prepend.
Qed.

Lemma ofold_app {A B} (f : A -> B -> option A) l1 l2 a :
  ofold f (l1 ++ l2) a = obind (ofold f l1 a) (ofold f l2).
Proof.
  revert a. induction l1 as [|t l1 IH]; intros a; cbn [app ofold];
    [reflexivity|].
  destruct (f a t) as [a1|]; cbn [obind]; [apply IH | reflexivity].
Qed.

(** The passages of a sequence with a heading in it are the passages
    of what is before the heading, and then the passages of the heading and
    what follows it. *)
Lemma buildChunks_at_heading pre h post :
  (forall t, In t pre -> type t = Heading -> nonblank (text t)) ->
  buildChunks minSize maxSize fuel (pre ++ mkToken Heading h :: post)
  = match buildChunks minSize maxSize fuel pre,
          buildChunks minSize maxSize fuel (mkToken Heading h :: post) with
    | Some before, Some after => Some (before ++ after)
    | _, _ => None
    end.
Proof.
  intros N. unfold buildChunks. rewrite ofold_app.
  destruct (ofold _ pre _) as [a|] eqn:E; cbn [obind]; [|reflexivity].
  assert (T : tidy a).
  { apply (tidy_tokens pre (mkAcc [] []) a); trivial. now left. }
  cbn [ofold]. destruct (heading_on_tidy a h T) as [C ->].
  rewrite heading_keeps by reflexivity. cbn [obind chunks current truthy app].
  set (before := if truthy (current a) then _ else _).
  assert (B : before = chunks (if truthy (trim (current a))
                              then flush a else a)).
  { unfold before, flush. cbn [chunks]. destruct T as [T | T].
    - now rewrite T.
    - rewrite truthy_trim, truthy_nw_cleanText.
      destruct (current a) eqn:Ec; [now destruct T|]. cbn [truthy].
      rewrite <- Ec in *. unfold nonblank in T.
      destruct (nw (current a)); [now destruct T | reflexivity]. }
  rewrite <- B.
  replace (mkAcc before (h ++ [LF]))
    with (prepend before (mkAcc [] (h ++ [LF])))
    by (unfold prepend; cbn [chunks current]; now rewrite app_nil_r).
  rewrite (ofold_prepend _ before
             (fun a t => addToken_prepend before a t)).
  destruct (ofold _ post (mkAcc [] (h ++ [LF]))) as [b|];
    cbn [obind option_map]; [|reflexivity].
  f_equal. cbn [prepend current].
  change (mkAcc (before ++ chunks b) (current b)) with (prepend before b).
  destruct (truthy (trim (current b))); [|reflexivity].
  rewrite flush_prepend. reflexivity.
Qed.

(** A heading that is not blank begins the first passage of what it
    starts. *)
Lemma heading_begins h post after :
  nonblank h ->
  buildChunks minSize maxSize fuel (mkToken Heading h :: post) = Some after ->
  exists c rest, after = c :: rest /\ begins_with (cleanText h) c.
Proof.
  intros N. unfold buildChunks. cbn [ofold].
  rewrite heading_keeps by reflexivity. cbn [obind chunks current truthy app].
  destruct (ofold _ post _) as [b|] eqn:E; cbn [obind]; [|discriminate].
  intros [= <-].
  assert (C : carried 0 h (mkAcc [] (h ++ [LF]))).
  { right. split; trivial. now exists [], [LF]. }
  apply (ofold_moves _ text) in E; [|intros; eapply addToken_moves; eauto].
  destruct E as (x & M & _).
  apply (moves_carried 0 h _ _ _ N M) in C.
  assert (Out : exists b', chunks b' = chunks (if truthy (trim (current b))
                                               then flush b else b)
                           /\ nw (current b') = [] /\ carried 0 h b').
  { destruct (trim (current b)) eqn:T; cbn [truthy].
    - exists b. repeat split; trivial. now apply trim_nil_iff.
    - exists (flush b). repeat split; auto using carried_flush. }
  destruct Out as (b' & <- & B & K).
  destruct (carried_out _ _ _ N K B) as (c & Ec & P).
  destruct (chunks b') as [|c' rest]; [discriminate|].
  cbn in Ec. injection Ec as ->. now exists c, rest.
Qed.
End Tidy.

(** ** The properties *)

(** C1, as amended.  [buildChunks] returns when [maxSize] is positive.
    Whatever it returns, each passage has at most [maxSize] code units, or
    is one heading alone (a heading is put into the buffer with no check of
    its size), or is one sentence alone that has more than [maxSize] code
    units (a sentence met with a buffer of [minSize] or more is put into the
    buffer whole), or has at most [minSize + maxSize] code units and is a
    buffer that ends with a piece of a sentence of [maxSize] code units or
    more (the hard split adds its slices to a buffer shorter than
    [minSize]).  A sentence that is hard-split is cut into consecutive slices
    of exactly [maxSize] code units and a last one of 1 to [maxSize], each
    added to the buffer by the body of the loop, [addSlice].  So when every
    heading and every sentence is shorter than [maxSize], every passage has
    at most [maxSize] code units. *)
Theorem chunks_within_maxSize minSize maxSize tokens :
  (0 < maxSize -> exists chunks, returns minSize maxSize tokens chunks)
  /\ (forall chunks,
        returns minSize maxSize tokens chunks ->
        Forall (fun c =>
                  len c <= maxSize
                  \/ heading_alone (heading_of tokens) c
                  \/ sentence_alone maxSize (sentence_of tokens) c
                  \/ ends_with_slice minSize maxSize (sentence_of tokens) c)
          chunks)
  /\ (forall fuel a s,
        maxSize
        < len (if len (current a) >? 0 then current a ++ [SP] ++ s else s) ->
        len (current a) < minSize ->
        maxSize <= len s ->
        0 < len s ->
        (0 < maxSize -> (length s < fuel)%nat ->
         exists b, addSentence minSize maxSize fuel a s = Some b)
        /\ forall b,
            addSentence minSize maxSize fuel a s = Some b ->
            exists slices last_,
              s = concat slices ++ last_
              /\ Forall (fun p => len p = maxSize) slices
              /\ 0 < len last_ <= maxSize
              /\ b = fold_left (addSlice minSize maxSize)
                       (slices ++ [last_]) a)
  /\ ((forall t, In t tokens -> type t = Heading -> len (text t) < maxSize) ->
      (forall s, In s (sentences tokens) -> len s < maxSize) ->
      forall fuel, exists chunks,
        buildChunks minSize maxSize fuel tokens = Some chunks
        /\ Forall (fun c => len c <= maxSize) chunks).
Proof.
  split; [apply returns_total|]. split; [|split].
  - intros chunks [fuel R]. exact (buildChunks_allowed _ _ _ _ _ R).
  - intros fuel a s T C L Z. split.
    + intros Hmax Hf. now apply addSentence_returns.
    + intros b. rewrite addSentence_hardSplit by assumption. intros H.
      apply hardSplit_slices in H; [exact H | lia].
  - intros Hh Hs fuel. now apply buildChunks_fits.
Qed.

Lemma chunks_within_maxSize_witness :
  (exists chunks,
      returns 4 5 [heading_ "Articolul 1"; body_ "Ab. Cdefgh"] chunks
      /\ Forall (fun c =>
                   len c <= 5
                   \/ heading_alone
                        (heading_of [heading_ "Articolul 1";
                                     body_ "Ab. Cdefgh"]) c
                   \/ sentence_alone 5
                        (sentence_of [heading_ "Articolul 1";
                                      body_ "Ab. Cdefgh"]) c
                   \/ ends_with_slice 4 5
                        (sentence_of [heading_ "Articolul 1";
                                      body_ "Ab. Cdefgh"]) c)
           chunks)
  /\ (exists slices last_,
         lit "Cdefgh" = concat slices ++ last_
         /\ Forall (fun p => len p = 5) slices
         /\ 0 < len last_ <= 5
         /\ mkAcc [lit "Ab. Cdefg"] (lit "h")
            = fold_left (addSlice 4 5) (slices ++ [last_])
                (mkAcc [] (lit "Ab."))).
Proof.
  destruct (chunks_within_maxSize 4 5
              [heading_ "Articolul 1"; body_ "Ab. Cdefgh"])
    as (T & A & H & _).
  split.
  - destruct (T eq_refl) as [chunks R]. exists chunks. split; trivial.
    now apply A.
  - assert (L : 5 <= len (lit "Cdefgh")) by (vm_compute; discriminate).
    destruct (H 7%nat (mkAcc [] (lit "Ab.")) (lit "Cdefgh") eq_refl eq_refl
                L eq_refl) as [_ S].
    apply S. reflexivity.
Defined.

(** C2.  What [buildChunks] is given are the tokens of
    [extractMainTokens], and none of them has a blank text.  For a sequence
    whose headings are not blank, a heading token always starts a new
    passage: the buffer it meets is empty or has a code unit that is not
    whitespace; when the buffer is not empty it is flushed as a completed
    passage, and the heading text starts a fresh buffer.  So the passages of
    a sequence are the passages of what comes before a heading, and then the
    passages of the heading with what follows it, the first of which begins
    with the heading.  For heading, body, heading, body there are at least
    two passages: the passages of the first heading with its body, the first
    of which begins with that heading, and then those of the second heading
    with its body, the first of which begins with it. *)
Theorem heading_starts_passage minSize maxSize :
  (forall select html,
      Forall (fun t => nonblank (text t)) (extractMainTokens select html))
  /\ (forall fuel pre h a,
         (forall t, In t pre -> type t = Heading -> nonblank (text t)) ->
         ofold (addToken minSize maxSize fuel) pre (mkAcc [] []) = Some a ->
         (current a <> [] -> cleanText (current a) <> [])
         /\ addToken minSize maxSize fuel a (mkToken Heading h)
            = Some (mkAcc (if truthy (current a)
                           then chunks a ++ [cleanText (current a)]
                           else chunks a)
                      (h ++ [LF])))
  /\ (forall fuel pre h post,
         (forall t, In t pre -> type t = Heading -> nonblank (text t)) ->
         buildChunks minSize maxSize fuel (pre ++ mkToken Heading h :: post)
         = match buildChunks minSize maxSize fuel pre,
                 buildChunks minSize maxSize fuel (mkToken Heading h :: post)
           with
           | Some before, Some after => Some (before ++ after)
           | _, _ => None
           end
         /\ (nonblank h ->
             forall after,
               buildChunks minSize maxSize fuel (mkToken Heading h :: post)
               = Some after ->
               exists c rest,
                 after = c :: rest /\ begins_with (cleanText h) c))
  /\ (forall h1 b1 h2 b2,
         nonblank h1 -> nonblank h2 ->
         let tokens :=
           [mkToken Heading h1; mkToken Text b1;
            mkToken Heading h2; mkToken Text b2] in
         (0 < maxSize -> exists chunks, returns minSize maxSize tokens chunks)
         /\ forall chunks,
             returns minSize maxSize tokens chunks ->
             exists c1 r1 c2 r2,
               chunks = (c1 :: r1) ++ c2 :: r2
               /\ begins_with (cleanText h1) c1
               /\ begins_with (cleanText h2) c2
               /\ returns minSize maxSize
                    [mkToken Heading h1; mkToken Text b1] (c1 :: r1)
               /\ returns minSize maxSize
                    [mkToken Heading h2; mkToken Text b2] (c2 :: r2)).
Proof.
  split; [exact extractMainTokens_nonblank|]. split; [|split].
  - intros fuel pre h a N E. apply heading_on_tidy.
    apply (tidy_tokens minSize maxSize fuel pre (mkAcc [] []) a); trivial.
    now left.
  - intros fuel pre h post N. split.
    + now apply buildChunks_at_heading.
    + intros Nh after. now apply heading_begins.
  - intros h1 b1 h2 b2 N1 N2 tokens. split; [apply returns_total|].
    intros chunks [fuel R]. unfold tokens in R.
    change [mkToken Heading h1; mkToken Text b1; mkToken Heading h2;
            mkToken Text b2]
      with ([mkToken Heading h1; mkToken Text b1]
              ++ mkToken Heading h2 :: [mkToken Text b2]) in R.
    rewrite buildChunks_at_heading in R.
    2:{ intros t [<- | [<- | []]]; [now intros _ | discriminate]. }
    destruct (buildChunks minSize maxSize fuel
                [mkToken Heading h1; mkToken Text b1]) as [before|] eqn:E1;
      [|discriminate].
    destruct (buildChunks minSize maxSize fuel
                [mkToken Heading h2; mkToken Text b2]) as [after|] eqn:E2;
      [|discriminate].
    injection R as <-.
    destruct (heading_begins minSize maxSize fuel h1 _ _ N1 E1)
      as (c1 & r1 & -> & B1).
    destruct (heading_begins minSize maxSize fuel h2 _ _ N2 E2)
      as (c2 & r2 & -> & B2).
    exists c1, r1, c2, r2. repeat split; trivial; now exists fuel.
Qed.

Lemma heading_starts_passage_witness :
  addToken 800 1000 5 (mkAcc [] (lit "Preambul")) (heading_ "Articolul 1")
  = Some (mkAcc [lit "Preambul"] (lit "Articolul 1" ++ [LF]))
  /\ buildChunks 800 1000 5
       ([heading_ "Articolul 1"; body_ "Unu. Doi."]
          ++ heading_ "Articolul 2" :: [body_ "Trei."])
     = Some ([lit "Articolul 1" ++ [LF] ++ lit " Unu. Doi."]
               ++ [lit "Articolul 2" ++ [LF] ++ lit " Trei."]).
Proof.
  destruct (heading_starts_passage 800 1000) as (_ & F & S & _). split.
  - apply (F 5%nat [body_ "Preambul"] (lit "Articolul 1")
             (mkAcc [] (lit "Preambul"))).
    + intros t [<- | []]. discriminate.
    + reflexivity.
  - destruct (S 5%nat [heading_ "Articolul 1"; body_ "Unu. Doi."]
                (lit "Articolul 2") [body_ "Trei."]) as [E _].
    + intros t [<- | [<- | []]]; [|discriminate].
      intros _. unfold nonblank. vm_compute. discriminate.
    + exact E.
Defined.

End PassageLaws.
